(** * duka-control: decode_trace.py

    A shallow embedding of the trace decoder in [decode_trace.py] and the
    properties its specification states about it.

    Conventions of the embedding.
    - A Python [int] level is a [Z]; a [str] bit vector is a [list ascii];
      printed lines and exception messages are [string]s.
    - A raised exception is the [Raise] case of [result]; what a function
      prints is returned next to its result, in printing order.
    - [read_trace] starts after the CSV rows are parsed: it receives the
      [(time, level)] samples the reader loop appends to [times] and
      [levels].  The [debug] flag only gates printing and is taken [False].
    - The arithmetic on [float] timestamps and durations is embedded twice.
      In [read_trace], [build_bitvector] and [main] a float is a rational
      ([Q]) and subtraction, division and comparison are the exact ones; the
      properties stated of these do not depend on how a result is rounded.
      In [compute_runs_b64] and [build_bitvector_b64] a float is a
      [float], finite, infinite or NaN, and each operation gives the
      binary64 value of the exact result ([b64]); the properties that depend
      on the rounding are stated of these. *)

From Stdlib Require Import ZArith QArith Qround Qabs Qpower Qreduction Lia Lqa Bool.
From Stdlib Require Qcanon.
From Stdlib Require Import String Ascii DecimalString.
From Stdlib Require Import List Sorted.
Import ListNotations.

Local Open Scope string_scope.
Local Open Scope list_scope.
Local Open Scope nat_scope.

(** ** Python primitives *)

Inductive exn : Type :=
| ValueError (msg : string)
| IndexError (msg : string)
| ZeroDivisionError (msg : string)
| UnboundLocalError (msg : string)
| OverflowError (msg : string).

Inductive result (A : Type) : Type :=
| Ok (a : A)
| Raise (e : exn).

Arguments Ok {A} a.
Arguments Raise {A} e.

Definition bind {A B : Type} (r : result A) (k : A -> result B) : result B :=
  match r with
  | Ok a => k a
  | Raise e => Raise e
  end.

Notation "x <- r ;; k" := (bind r (fun x => k))
  (at level 61, r at next level, right associativity).

Infix "+++" := String.append (right associativity, at level 60).

(** [str(n)] for a length or a count. *)
Definition str_nat (n : nat) : string :=
  NilZero.string_of_uint (Nat.to_uint n).

(** [str(v)] for an [int]. *)
Definition str_Z (v : Z) : string :=
  NilZero.string_of_int (Z.to_int v).

(** [s[a:b]] for [0 <= a], [0 <= b]. *)
Definition slice {A : Type} (s : list A) (a b : nat) : list A :=
  firstn (b - a) (skipn a s).

(** [min(xs)]: the first least element; [ValueError] on an empty sequence. *)
Definition py_min (xs : list Q) : result Q :=
  match xs with
  | [] => Raise (ValueError "min() arg is an empty sequence")
  | x :: xs' =>
      Ok (fold_left (fun m y => match Qcompare y m with Lt => y | _ => m end) xs' x)
  end.

(** [round(q)]: to the nearest integer, ties to the even one. *)
Definition py_round (q : Q) : Z :=
  let f := Qfloor q in
  match Qcompare (q - inject_Z f) (1 # 2) with
  | Lt => f
  | Gt => (f + 1)%Z
  | Eq => if Z.even f then f else (f + 1)%Z
  end.

(** [a / b] on floats: [ZeroDivisionError] when [b] is zero. *)
Definition py_div (a b : Q) : result Q :=
  if Qeq_bool b 0 then Raise (ZeroDivisionError "float division by zero")
  else Ok (a / b)%Q.

(** ** read_trace *)

Definition sample : Type := Q * Z.
Definition run : Type := Z * Q.

(** One iteration of the transition loop (lines 21-23): the sample is
    appended when its level differs from the last transition's. *)
Definition transition_step (transitions : list sample) (s : sample) : list sample :=
  let '(t, v) := s in
  if negb (v =? snd (last transitions (0%Q, 0%Z)))%Z
  then transitions ++ [(t, v)]
  else transitions.

(** Lines 20-23. [times[0]] raises on an empty trace. *)
Definition extract_transitions (times : list Q) (levels : list Z) : result (list sample) :=
  match times, levels with
  | t0 :: times', v0 :: levels' =>
      Ok (fold_left transition_step (combine times' levels') [(t0, v0)])
  | _, _ => Raise (IndexError "list index out of range")
  end.

(** One iteration of the run loop (lines 27-30). *)
Definition run_step (transitions : list sample) (runs : list run) (i : nat) : list run :=
  let '(t0, v0) := nth i transitions (0%Q, 0%Z) in
  let '(t1, _) := nth (i + 1) transitions (0%Q, 0%Z) in
  runs ++ [(v0, (t1 - t0)%Q)].

(** Lines 26-31; [t_end] is [times[-1]]. *)
Definition compute_runs (transitions : list sample) (t_end : Q) : list run :=
  let runs := fold_left (run_step transitions) (seq 0 (length transitions - 1)) [] in
  let '(t_last, v_last) := last transitions (0%Q, 0%Z) in
  runs ++ [(v_last, (t_end - t_last)%Q)].

Definition read_trace (samples : list sample)
  : result (list run * list Q * list Z) :=
  let times := map fst samples in
  let levels := map snd samples in
  transitions <- extract_transitions times levels ;;
  Ok (compute_runs transitions (last times 0%Q), times, levels).

(** No two neighbours of a list are equal. *)
Fixpoint adjacent_distinct (l : list Z) : Prop :=
  match l with
  | a :: (b :: _) as l' => a <> b /\ adjacent_distinct l'
  | _ => True
  end.

(** ** build_bitvector *)

(** Line 41: the durations of the runs at level 0. *)
Definition low_durations (runs : list run) : list Q :=
  map snd (filter (fun r => (fst r =? 0)%Z) runs).

(** Line 42: the base quantum. *)
Definition estimate_T0 (runs : list run) : result Q :=
  match low_durations runs with
  | [] => py_min (map snd runs)
  | _ :: _ => py_min (low_durations runs)
  end.

(** Lines 47-48: index of the first run lasting at least [20 * T0]. *)
Fixpoint first_idle (T0 : Q) (runs : list run) (i : nat) : option nat :=
  match runs with
  | [] => None
  | (_, dur) :: runs' =>
      if Qle_bool (20 * T0) dur then Some i else first_idle T0 runs' (S i)
  end.

(** Lines 47-52: [runs[i + 1:]] for that index, all the runs when there is
    none. *)
Definition trim_idle (T0 : Q) (runs : list run) : list run :=
  match first_idle T0 runs 0 with
  | Some i => skipn (i + 1) runs
  | None => runs
  end.

(** One iteration of the expansion loop (lines 56-58); [[val] * n] is empty
    for a negative [n]. *)
Definition expand_step (T0 : Q) (acc : result (list Z)) (r : run) : result (list Z) :=
  bitvec <- acc ;;
  let '(val, dur) := r in
  q <- py_div dur T0 ;;
  Ok (bitvec ++ repeat val (Z.to_nat (py_round q))).

Definition expand_runs (T0 : Q) (runs : list run) : result (list Z) :=
  fold_left (expand_step T0) runs (Ok []).

(** Line 60: [''.join(str(b) for b in bitvec)]. *)
Definition join_bits (bitvec : list Z) : list ascii :=
  concat (map (fun b => list_ascii_of_string (str_Z b)) bitvec).

Definition build_bitvector (runs : list run) : result (list ascii * Q) :=
  T0 <- estimate_T0 runs ;;
  bitvec <- expand_runs T0 (trim_idle T0 runs) ;;
  Ok (join_bits bitvec, T0).

(** The character of a binary level. *)
Definition bit_char (v : Z) : ascii :=
  if (v =? 0)%Z then "0"%char else "1"%char.

(** ** Binary64 arithmetic *)

(** A [float] as the interpreter holds it: a finite value, an infinity or a
    NaN.  A finite value is the rational number it stands for; the sign of
    a zero is not kept, no operation of the decoder telling the two zeros
    apart.  The operations are defined on every rational, the binary64
    values among them. *)
Inductive float : Type :=
| Fin (q : Q)
| PInf
| NInf
| NaN.

Definition pow2 (e : Z) : Q := (2 ^ e)%Q.

(** The binary exponent of a rational other than zero: the largest [e] with
    [2 ^ e <= |x|]. *)
Definition ilog2 (x : Q) : Z :=
  let e := (Z.log2 (Z.abs (Qnum x)) - Z.log2 (Zpos (Qden x)))%Z in
  if Qle_bool (pow2 e) (Qabs x) then e else (e - 1)%Z.

(** The binary64 value of an exact result: the nearest multiple of the unit
    in the last place of a 53-bit significand, ties to the even one, the
    exponent never below -1022 (the subnormal range), and an infinity when
    the rounded value reaches [2 ^ 1024]. *)
Definition b64 (x : Q) : float :=
  if Qeq_bool x 0 then Fin 0 else
  let e := Z.max (ilog2 x) (-1022) in
  let ulp := pow2 (e - 52) in
  let y := (inject_Z (py_round (x / ulp)) * ulp)%Q in
  if Qle_bool (pow2 1024) (Qabs y) then (if Qle_bool 0 x then PInf else NInf)
  else Fin (Qred y).

(** How a float compares with zero; [Eq] for a NaN. *)
Definition float_sign (a : float) : comparison :=
  match a with
  | Fin x => (x ?= 0)%Q
  | PInf => Gt
  | NInf => Lt
  | NaN => Eq
  end.


(** [a * b]. *)
Definition float_mul (a b : float) : float :=
  match a, b with
  | Fin x, Fin y => b64 (x * y)
  | NaN, _ => NaN
  | _, NaN => NaN
  | _, _ =>
      match float_sign a, float_sign b with
      | Eq, _ => NaN
      | _, Eq => NaN
      | Gt, Gt => PInf
      | Lt, Lt => PInf
      | _, _ => NInf
      end
  end.

(** [a / b]: [ZeroDivisionError] when [b] is zero. *)
Definition float_div (a b : float) : result float :=
  match b with
  | Fin y =>
      if Qeq_bool y 0 then Raise (ZeroDivisionError "float division by zero")
      else match a with
           | Fin x => Ok (b64 (x / y))
           | NaN => Ok NaN
           | _ => match float_sign a, (y ?= 0)%Q with
                  | Gt, Gt => Ok PInf
                  | Lt, Lt => Ok PInf
                  | _, _ => Ok NInf
                  end
           end
  | NaN => Ok NaN
  | _ => match a with
         | Fin _ => Ok (Fin 0)
         | _ => Ok NaN
         end
  end.

(** [a < b]: false when either is a NaN. *)
Definition float_lt (a b : float) : bool :=
  match a, b with
  | Fin x, Fin y => match (x ?= y)%Q with Lt => true | _ => false end
  | NaN, _ => false
  | _, NaN => false
  | NInf, NInf => false
  | NInf, _ => true
  | PInf, _ => false
  | Fin _, PInf => true
  | Fin _, NInf => false
  end.

(** [a >= b]: false when either is a NaN. *)
Definition float_ge (a b : float) : bool :=
  match a, b with
  | NaN, _ => false
  | _, NaN => false
  | _, _ => negb (float_lt a b)
  end.

(** [round(a)]: an infinity and a NaN have no integer. *)
Definition float_round (a : float) : result Z :=
  match a with
  | Fin x => Ok (py_round x)
  | NaN => Raise (ValueError "cannot convert float NaN to integer")
  | _ => Raise (OverflowError "cannot convert float infinity to integer")
  end.

(** [min(xs)] on floats: an element replaces the current least one when it
    is [<] it. *)
Definition float_min (xs : list float) : result float :=
  match xs with
  | [] => Raise (ValueError "min() arg is an empty sequence")
  | x :: xs' => Ok (fold_left (fun m y => if float_lt y m then y else m) xs' x)
  end.

(** ** The run loop and build_bitvector on binary64 floats

    Lines 26-31 and 39-63 once more, each float operation now the rounded
    one.  The properties that depend on the rounding are stated of these
    definitions. *)

Definition float_run : Type := Z * float.



(** Line 41. *)
Definition low_durations_b64 (runs : list float_run) : list float :=
  map snd (filter (fun r => (fst r =? 0)%Z) runs).

(** Line 42. *)
Definition estimate_T0_b64 (runs : list float_run) : result float :=
  match low_durations_b64 runs with
  | [] => float_min (map snd runs)
  | _ :: _ => float_min (low_durations_b64 runs)
  end.

(** Line 48: [dur >= 20 * T0]. *)
Definition idle_test (T0 dur : float) : bool :=
  float_ge dur (float_mul (Fin 20) T0).

(** Lines 47-48: index of the first run that passes the test. *)
Fixpoint first_idle_b64 (T0 : float) (runs : list float_run) (i : nat) : option nat :=
  match runs with
  | [] => None
  | (_, dur) :: runs' =>
      if idle_test T0 dur then Some i else first_idle_b64 T0 runs' (S i)
  end.

(** Lines 47-52. *)
Definition trim_idle_b64 (T0 : float) (runs : list float_run) : list float_run :=
  match first_idle_b64 T0 runs 0 with
  | Some i => skipn (i + 1) runs
  | None => runs
  end.

(** Line 57: [round(dur / T0)]. *)
Definition run_count (T0 dur : float) : result Z :=
  q <- float_div dur T0 ;;
  float_round q.

(** One iteration of the expansion loop (lines 56-58). *)
Definition expand_step_b64 (T0 : float) (acc : result (list Z)) (r : float_run)
  : result (list Z) :=
  bitvec <- acc ;;
  let '(val, dur) := r in
  n <- run_count T0 dur ;;
  Ok (bitvec ++ repeat val (Z.to_nat n)).

Definition expand_runs_b64 (T0 : float) (runs : list float_run) : result (list Z) :=
  fold_left (expand_step_b64 T0) runs (Ok []).

Definition build_bitvector_b64 (runs : list float_run) : result (list ascii * float) :=
  T0 <- estimate_T0_b64 runs ;;
  bitvec <- expand_runs_b64 T0 (trim_idle_b64 T0 runs) ;;
  Ok (join_bits bitvec, T0).

(** ** extract_and_verify *)

Definition newline : string := String "010"%char EmptyString.
Definition tab : string := String "009"%char EmptyString.

(** [bitvec[i]], read only for [i < len(bitvec)]. *)
Definition char_at (bitvec : list ascii) (i : nat) : ascii :=
  nth i bitvec "000"%char.

(** The three nested [while] loops of lines 72-89 run on a counter that
    bounds their iterations; [None] is running out of it, which
    [length bitvec + 3] never does (see [scan_loop_total]). *)

(** Lines 78-79: [while i < n and bitvec[i] == '1': i += 1]. *)
Fixpoint ones_loop (fuel : nat) (bitvec : list ascii) (i : nat) : option nat :=
  match fuel with
  | O => None
  | S fuel' =>
      if (i <? length bitvec) && (char_at bitvec i =? "1")%char
      then ones_loop fuel' bitvec (S i)
      else Some i
  end.

(** Lines 75-87: the inner [while i < n], from a frame opened at [start].
    Returns the index it stops at and, when it stops at the [break], the
    position [(start, end)] of the frame it closed. *)
Fixpoint frame_loop (fuel : nat) (bitvec : list ascii) (min_idle : Z)
    (start i : nat) : option (nat * option (nat * nat)) :=
  match fuel with
  | O => None
  | S fuel' =>
      if i <? length bitvec then
        if (char_at bitvec i =? "1")%char then
          let run_start := i in
          match ones_loop fuel' bitvec i with
          | None => None
          | Some i' =>
              let run_len := i' - run_start in
              if (min_idle <=? Z.of_nat run_len)%Z
              then Some (i', Some (start, run_start))
              else frame_loop fuel' bitvec min_idle start i'
          end
        else frame_loop fuel' bitvec min_idle start (S i)
      else Some (i, None)
  end.

(** Lines 72-89: the outer [while i < n]. *)
Fixpoint scan_loop (fuel : nat) (bitvec : list ascii) (min_idle : Z) (i : nat)
    (frames : list (list ascii)) (positions : list (nat * nat))
  : option (list (list ascii) * list (nat * nat)) :=
  match fuel with
  | O => None
  | S fuel' =>
      if i <? length bitvec then
        if (char_at bitvec i =? "0")%char then
          match frame_loop fuel' bitvec min_idle i i with
          | None => None
          | Some (i', Some (start, end_)) =>
              scan_loop fuel' bitvec min_idle i'
                (frames ++ [slice bitvec start end_]) (positions ++ [(start, end_)])
          | Some (i', None) => scan_loop fuel' bitvec min_idle i' frames positions
          end
        else scan_loop fuel' bitvec min_idle (S i) frames positions
      else Some (frames, positions)
  end.

(** Lines 67-89: the frames and positions collected by the scan. *)
Definition extract_frames (bitvec : list ascii) (min_idle : Z)
  : option (list (list ascii) * list (nat * nat)) :=
  scan_loop (length bitvec + 3) bitvec min_idle 0 [] [].

(** [a == b] on strings. *)
Definition str_eqb (a b : list ascii) : bool :=
  if list_eq_dec ascii_dec a b then true else false.

(** Lines 110-123: the lines the diagnostic aligner prints. *)
Definition debug_print_frame_and_bitvec (frame bitvec : list ascii)
    (positions : list (nat * nat)) : list string :=
  let frame_len := length frame in
  [newline +++ "=== Extracted Frame ===";
   string_of_list_ascii frame;
   "=======================" +++ newline;
   "=== Bitvector with frames aligned ==="]
  ++ map (fun pos : nat * nat =>
            let line := slice bitvec (fst pos) (fst pos + frame_len) in
            let marker := if str_eqb line frame then "OK" else "DIFF" in
            string_of_list_ascii line +++ "   " +++ marker) positions
  ++ ["=======================" +++ newline].

(** One iteration of the comparison loop (lines 98-101), on the printed
    lines and the error count. *)
Definition verify_step (first : list ascii) (st : list string * nat)
    (entry : nat * list ascii) : list string * nat :=
  let '(out, errors) := st in
  let '(idx, f) := entry in
  if str_eqb f first then (out, errors)
  else (out ++ ["Frame " +++ str_nat idx +++ " differs"], errors + 1).

(** Lines 91-107, on the frames and positions of the scan. *)
Definition verify_frames (bitvec : list ascii)
    (frames : list (list ascii)) (positions : list (nat * nat))
  : list string * result (list ascii * nat * list (nat * nat)) :=
  match frames with
  | [] => ([], Raise (ValueError "No frames found"))
  | first :: others =>
      let out := ["Frames found: " +++ str_nat (length frames)] in
      let '(out, errors) :=
        fold_left (verify_step first)
                  (combine (seq 1 (length others)) others) (out, 0) in
      if 0 <? errors then
        (out ++ debug_print_frame_and_bitvec first bitvec positions,
         Raise (ValueError (str_nat errors +++ " frames differ, unreliable capture")))
      else (out, Ok (first, length frames - errors, positions))
  end.

(** Lines 66-107: what is printed, and the result or the exception. *)
Definition extract_and_verify (bitvec : list ascii) (min_idle : Z)
  : option (list string * result (list ascii * nat * list (nat * nat))) :=
  match extract_frames bitvec min_idle with
  | None => None
  | Some (frames, positions) => Some (verify_frames bitvec frames positions)
  end.

(** ** main *)

(** Lines 151-153: the length check on the accepted frame. *)
Definition length_check (frame : list ascii) : result unit :=
  if (length frame <? 30) || (34 <? length frame) then
    Raise (ValueError
             ("Frame too " +++ (if length frame <? 3 then "short" else "long")
              +++ " (" +++ str_nat (length frame) +++ " bits), unreliable capture"))
  else Ok tt.

(** The state of [main] between traces: what was printed, [trace_errors],
    the local variable [frame] ([None] while it is unbound), and the frames
    written out, each with the trace it was decoded from (the derivation of
    the output file name is left out). *)
Record main_state : Type := {
  stdout : list string;
  trace_errors : list (string * list ascii * string);
  frame_var : option (list ascii);
  written : list (string * list ascii)
}.

Inductive main_outcome : Type :=
| Continue (st : main_state)
| Abort (st : main_state) (e : exn).

Definition print (st : main_state) (lines : list string) : main_state :=
  {| stdout := stdout st ++ lines; trace_errors := trace_errors st;
     frame_var := frame_var st; written := written st |}.

(** Lines 154-157: the [except ValueError] handler. Reading [frame] while it
    is unbound raises [UnboundLocalError], which nothing catches. *)
Definition handle_value_error (st : main_state) (trace msg : string) : main_outcome :=
  let st := print st ["Error processing " +++ trace +++ ": " +++ msg] in
  match frame_var st with
  | None =>
      Abort st (UnboundLocalError
        "cannot access local variable 'frame' where it is not associated with a value")
  | Some frame =>
      Continue {| stdout := stdout st;
                  trace_errors := trace_errors st ++ [(trace, frame, msg)];
                  frame_var := frame_var st; written := written st |}
  end.

(** Lines 159-177, with [debug] off. *)
Definition report_frame (st : main_state) (trace : string) (frame : list ascii)
    (count : nat) : main_state :=
  let st := print st ["Frame (length " +++ str_nat (length frame) +++ "): "
                      +++ string_of_list_ascii frame +++ " found "
                      +++ str_nat count +++ " times"] in
  if 5 <=? count then
    {| stdout := stdout st; trace_errors := trace_errors st;
       frame_var := frame_var st;
       written := written st ++ [(trace, frame ++ list_ascii_of_string newline)] |}
  else st.

(** Lines 145-177: the body of the loop over the traces. *)
Definition process_trace (st : main_state) (trace : string) (samples : list sample)
  : option main_outcome :=
  let st := print st [newline +++ "Processing " +++ trace +++ "..."] in
  match read_trace samples with
  | Raise e => Some (Abort st e)
  | Ok (runs, _, _) =>
      match build_bitvector runs with
      | Raise e => Some (Abort st e)
      | Ok (whole_bitvector, _) =>
          match extract_and_verify whole_bitvector 20 with
          | None => None
          | Some (out, Raise (ValueError msg)) =>
              Some (handle_value_error (print st out) trace msg)
          | Some (out, Raise e) => Some (Abort (print st out) e)
          | Some (out, Ok (frame, count, _)) =>
              let st := {| stdout := stdout st ++ out;
                           trace_errors := trace_errors st;
                           frame_var := Some frame; written := written st |} in
              match length_check frame with
              | Raise (ValueError msg) => Some (handle_value_error st trace msg)
              | Raise e => Some (Abort st e)
              | Ok _ => Some (Continue (report_frame st trace frame count))
              end
          end
      end
  end.

(** Lines 144-177: the loop over the traces. *)
Fixpoint process_traces (st : main_state) (traces : list (string * list sample))
  : option main_outcome :=
  match traces with
  | [] => Some (Continue st)
  | (trace, samples) :: traces' =>
      match process_trace st trace samples with
      | None => None
      | Some (Abort st' e) => Some (Abort st' e)
      | Some (Continue st') => process_traces st' traces'
      end
  end.

(** Lines 179-182: the summary of the failures. *)
Definition report_errors (st : main_state) : main_state :=
  match trace_errors st with
  | [] => st
  | _ :: _ =>
      print st ([newline +++ "==== Errors ===="]
                ++ map (fun entry : string * list ascii * string =>
                          let '(trace, frame, err) := entry in
                          trace +++ ": " +++ err +++ " " +++ tab +++ " Frame: "
                          +++ string_of_list_ascii frame)
                       (trace_errors st))
  end.

Definition initial_state : main_state :=
  {| stdout := []; trace_errors := []; frame_var := None; written := [] |}.

(** Lines 136-182; a trace is its name and the samples read from it. *)
Definition main (traces : list (string * list sample)) : option main_outcome :=
  match process_traces initial_state traces with
  | None => None
  | Some (Abort st e) => Some (Abort st e)
  | Some (Continue st) => Some (Continue (report_errors st))
  end.

(** ** Notions the properties are stated with *)

(** Number of ['1'] a string begins with. *)
Fixpoint leading_ones (s : list ascii) : nat :=
  match s with
  | c :: s' => if (c =? "1")%char then S (leading_ones s') else 0
  | [] => 0
  end.

(** Length of the longest run of consecutive ['1'] in a string. *)
Fixpoint longest_ones (s : list ascii) : nat :=
  match s with
  | [] => 0
  | _ :: s' => Nat.max (leading_ones s) (longest_ones s')
  end.

(** A string of ['0'] and ['1'] only. *)
Definition is_bitvector (s : list ascii) : Prop :=
  forallb (fun c => (c =? "0")%char || (c =? "1")%char) s = true.

(** A frame the scan can delimit: it begins and ends with ['0'] and has no
    run of [min_idle] or more ['1']. *)
Definition framed (min_idle : Z) (p : list ascii) : Prop :=
  hd_error p = Some "0"%char /\
  last p "1"%char = "0"%char /\
  (Z.of_nat (longest_ones p) < min_idle)%Z.

(** An idle separator: [k] consecutive ['1']. *)
Definition idle (k : nat) : list ascii := repeat "1"%char k.

(** The bit vector of a capture: each frame followed by its idle run. *)
Definition capture (segments : list (list ascii * nat)) : list ascii :=
  concat (map (fun seg => fst seg ++ idle (snd seg)) segments).

(** A pattern tiled once per separator length. *)
Definition tiled (p : list ascii) (seps : list nat) : list ascii :=
  capture (map (fun k => (p, k)) seps).

(** Where the frames of a capture lie, from offset [off]. *)
Fixpoint segment_positions (off : nat) (segments : list (list ascii * nat))
  : list (nat * nat) :=
  match segments with
  | [] => []
  | (fr, k) :: segments' =>
      (off, off + length fr) :: segment_positions (off + length fr + k) segments'
  end.

(** The frame [fr] lies at [pos] in [bitvec], right before a run of
    [min_idle] or more ['1']; it begins with ['0'], does not end with ['1']
    and has no run of [min_idle] or more ['1']. *)
Definition delimited (bitvec : list ascii) (min_idle : Z)
    (fr : list ascii) (pos : nat * nat) : Prop :=
  exists pre k rest,
    bitvec = pre ++ fr ++ idle k ++ rest /\
    pos = (length pre, length pre + length fr) /\
    1 <= k /\ (min_idle <= Z.of_nat k)%Z /\
    hd_error fr = Some "0"%char /\
    last fr "1"%char <> "1"%char /\
    (Z.of_nat (longest_ones fr) < min_idle)%Z.

(** What is stated of a frame [fr] extracted at [pos = (start, end)]: it is
    the slice at [pos], is not empty, begins and ends with ['0'], holds no
    run of [min_idle] or more ['1'], and the idle run that closes it starts
    at [end], outside the frame. *)
Definition extracted_frame_ok (bitvec : list ascii) (min_idle : Z)
    (fr : list ascii) (pos : nat * nat) : Prop :=
  fr = slice bitvec (fst pos) (snd pos) /\
  fr <> [] /\
  hd_error fr = Some "0"%char /\
  last fr "1"%char = "0"%char /\
  (forall pre k post, fr = pre ++ idle k ++ post -> (Z.of_nat k < min_idle)%Z) /\
  (exists k, (min_idle <= Z.of_nat k)%Z /\
             slice bitvec (snd pos) (snd pos + k) = idle k).

(** A segment of a capture: a frame and an idle run long enough. *)
Definition capture_segment (min_idle : Z) (seg : list ascii * nat) : Prop :=
  framed min_idle (fst seg) /\ (min_idle <= Z.of_nat (snd seg))%Z.

(** The bit at index [i] of a pattern flipped. *)
Definition flip_bit (i : nat) (p : list ascii) : list ascii :=
  firstn i p ++
  match skipn i p with
  | c :: r => (if (c =? "0")%char then "1"%char else "0"%char) :: r
  | [] => []
  end.

(** The runs of the concrete scenario: a low run of 1 ms, a high run of
    0.5 ms, a low run of 1 ms and a high run of 25 ms, six times over. *)
Definition scenario_block : list run :=
  [(0%Z, 1 # 1000); (1%Z, 5 # 10000); (0%Z, 1 # 1000); (1%Z, 25 # 1000)].

Definition scenario_runs : list run := concat (repeat scenario_block 6).

(** A 30-bit pattern. *)
Definition sample_pattern : list ascii :=
  list_ascii_of_string "010011000111010100110001110100".

(** A trace whose level never leaves 1: two samples, one second apart. *)
Definition idle_trace : list sample := [(0%Q, 1%Z); (1%Q, 1%Z)].

(** Runs on a time grid: each lasts a whole number of units [u]. *)
Definition quantized (u : Q) (counts : list (Z * nat)) : list run :=
  map (fun vc => (fst vc, (inject_Z (Z.of_nat (snd vc)) * u)%Q)) counts.

(** The bits of such runs, one per unit. *)
Definition bits_of_counts (counts : list (Z * nat)) : list ascii :=
  concat (map (fun vc => repeat (bit_char (fst vc)) (snd vc)) counts).

(** The runs after the first one of 20 units or more, if there is one. *)
Fixpoint after_first_idle (counts : list (Z * nat)) : option (list (Z * nat)) :=
  match counts with
  | [] => None
  | (_, c) :: counts' => if 20 <=? c then Some counts' else after_first_idle counts'
  end.

Definition kept_counts (counts : list (Z * nat)) : list (Z * nat) :=
  match after_first_idle counts with
  | Some counts' => counts'
  | None => counts
  end.

(** Lines 126-133, for the indices [start >= 0] and [end >= 0] that
    positions are; [width] is not used by the function. *)
Definition whole_line (bitvec : list ascii) (start end_ : nat) : string :=
  let left := Nat.max 0 (start - 5) in
  let right := Nat.min (length bitvec) (end_ + 5) in
  let snippet := slice bitvec left right in
  let prefix := if 0 <? left then "..." else "" in
  let suffix := if right <? length bitvec then "..." else "" in
  prefix +++ string_of_list_ascii snippet +++ suffix.

(** How many of the other frames differ from the first. *)
Definition mismatches (first : list ascii) (others : list (list ascii)) : nat :=
  length (filter (fun f => negb (str_eqb f first)) others).

(** Positions in increasing order from index [i] on, each a non-empty
    interval, the next one starting [min_idle] or more after the end of
    the one before. *)
Fixpoint separated_from (min_idle : Z) (i : nat) (positions : list (nat * nat)) : Prop :=
  match positions with
  | [] => True
  | (s, e) :: positions' =>
      i <= s /\ s < e /\ separated_from min_idle (e + Z.to_nat min_idle) positions'
  end.

(** A string from its first ['0'] on; empty when it has none. *)
Fixpoint from_first_zero (s : list ascii) : list ascii :=
  match s with
  | [] => []
  | c :: s' => if (c =? "0")%char then s else from_first_zero s'
  end.

(** The state [main] is in when it returns or stops. *)
Definition final_state (outcome : main_outcome) : main_state :=
  match outcome with
  | Continue st => st
  | Abort st _ => st
  end.

(** The samples of a trace that holds each level for its number of units of
    one second, from time [t] on: one sample where each run starts and one
    where the last run ends. *)
Fixpoint samples_of_counts (t : Z) (counts : list (Z * nat)) : list sample :=
  match counts with
  | [] => []
  | [(v, c)] => [(inject_Z t, v); (inject_Z (t + Z.of_nat c), v)]
  | (v, c) :: counts' => (inject_Z t, v) :: samples_of_counts (t + Z.of_nat c) counts'
  end.

(** The runs of [sample_pattern]. *)
Definition pattern_counts : list (Z * nat) :=
  map (fun vc : nat * nat => (Z.of_nat (fst vc), snd vc))
      [(0, 1); (1, 1); (0, 2); (1, 2); (0, 3); (1, 3); (0, 1); (1, 1); (0, 1);
       (1, 1); (0, 2); (1, 2); (0, 3); (1, 3); (0, 1); (1, 1); (0, 2)].

(** A capture of [k] repetitions of the pattern: an idle lead-in of 30
    units, then each repetition followed by an idle run of 25 units. *)
Definition capture_counts (k : nat) : list (Z * nat) :=
  (1%Z, 30) :: concat (repeat (pattern_counts ++ [(1%Z, 25)]) k).

(** ** Notions for the properties on binary64 floats *)






(** [kept] is what lines 47-52 leave of [runs] at quantum [T0]: the runs
    after the first one that passes the test of line 48, all the runs when
    none passes it. *)
Definition kept_after_trim (T0 : float) (runs kept : list float_run) : Prop :=
  (Forall (fun r => idle_test T0 (snd r) = false) runs /\ kept = runs) \/
  (exists before r,
     runs = before ++ r :: kept /\
     Forall (fun r' => idle_test T0 (snd r') = false) before /\
     idle_test T0 (snd r) = true).



(** The float of a whole number of seconds. *)
Definition seconds (c : nat) : float := Fin (inject_Z (Z.of_nat c)).

(** Runs that last whole numbers of seconds. *)
Definition unit_runs (counts : list (Z * nat)) : list float_run :=
  map (fun vc => (fst vc, seconds (snd vc))) counts.

(** Runs that last whole numbers of bit times of [u] seconds, each duration
    the float product. *)
Definition timed_runs (u : float) (counts : list (Z * nat)) : list float_run :=
  map (fun vc => (fst vc, float_mul (seconds (snd vc)) u)) counts.

(** The level a bit stands for. *)
Definition bit_level (c : ascii) : Z :=
  if (c =? "0")%char then 0%Z else 1%Z.

(** The runs of equal bits of a bit string, each with its length. *)
Fixpoint run_lengths (s : list ascii) : list (Z * nat) :=
  match s with
  | [] => []
  | c :: s' =>
      match run_lengths s' with
      | (v, n) :: rest =>
          if (bit_level c =? v)%Z then (v, S n) :: rest
          else (bit_level c, 1) :: (v, n) :: rest
      | [] => [(bit_level c, 1)]
      end
  end.

(** The runs of a synthetic trace: an idle lead-in if there is one, then the
    runs of the pattern followed by an idle run, once per separator. *)
Definition tiled_counts (lead : option nat) (p : list ascii) (seps : list nat)
  : list (Z * nat) :=
  match lead with
  | Some j => [(1%Z, j)]
  | None => []
  end ++ concat (map (fun k => run_lengths p ++ [(1%Z, k)]) seps).

(** Lines 148-153 on a run list: the bit vector is built, the frames are
    extracted and verified, and the length of the accepted frame is
    checked; the frame and its number of occurrences, or the exception. *)
Definition decode (runs : list float_run) : option (result (list ascii * nat)) :=
  match build_bitvector_b64 runs with
  | Raise e => Some (Raise e)
  | Ok (whole_bitvector, _) =>
      match extract_and_verify whole_bitvector 20 with
      | None => None
      | Some (_, Raise e) => Some (Raise e)
      | Some (_, Ok (frame, count, _)) =>
          match length_check frame with
          | Raise e => Some (Raise e)
          | Ok _ => Some (Ok (frame, count))
          end
      end
  end.

(** * Properties *)

(** ** The embedding on small inputs *)

Example py_round_ties_to_even :
  map py_round [1 # 2; 3 # 2; 5 # 2; -1 # 2; -3 # 2; 7 # 4; -7 # 4]%Q
  = [0; 2; 2; 0; -2; 2; -2]%Z.
Proof. reflexivity. Qed.

Example read_trace_example :
  read_trace [(0, 1%Z); (1, 0%Z); (2, 0%Z); (3, 1%Z); (5, 1%Z)]%Q
  = Ok ([(1%Z, 1 - 0); (0%Z, 3 - 1); (1%Z, 5 - 3)]%Q,
        [0; 1; 2; 3; 5]%Q, [1; 0; 0; 1; 1]%Z).
Proof. reflexivity. Qed.

Example read_trace_empty :
  read_trace [] = Raise (IndexError "list index out of range").
Proof. reflexivity. Qed.

Example build_bitvector_zero_quantum :
  build_bitvector [(1%Z, 0%Q); (1%Z, 3%Q)]
  = Raise (ZeroDivisionError "float division by zero").
Proof. reflexivity. Qed.

Example extract_frames_example :
  extract_frames (list_ascii_of_string "1101011111001011101111") 3
  = Some ([list_ascii_of_string "010"; list_ascii_of_string "0010";
           list_ascii_of_string "0"],
          [(2, 5); (10, 14); (17, 18)]).
Proof. reflexivity. Qed.

Example whole_line_example :
  whole_line (list_ascii_of_string "1101011111001011101111") 17 18 = "...1011101111".
Proof. reflexivity. Qed.

Example extract_and_verify_no_frames :
  extract_and_verify (list_ascii_of_string "1110110") 3
  = Some ([], Raise (ValueError "No frames found")).
Proof. reflexivity. Qed.

(** ** read_trace: transitions and runs *)

Section ReadTrace.

Lemma adjacent_distinct_snoc (l : list Z) (v : Z) :
  adjacent_distinct l -> l <> [] -> last l 0%Z <> v ->
  adjacent_distinct (l ++ [v]).
Proof.
  induction l as [| a [| b l'] IH]; intros Hl Hne Hlast.
  - congruence.
  - simpl in *. auto.
  - destruct Hl as [Hab Hl]. change ((a :: b :: l') ++ [v]) with (a :: ((b :: l') ++ [v])).
    change (a <> b /\ adjacent_distinct ((b :: l') ++ [v])).
    split; [exact Hab |]. apply IH; [exact Hl | discriminate | exact Hlast].
Qed.

Lemma last_map_snd (l : list sample) (d : sample) :
  last (map snd l) (snd d) = snd (last l d).
Proof.
  induction l as [| a [| b l'] IH]; try reflexivity.
  exact IH.
Qed.

Lemma transition_step_inv (transitions : list sample) (s : sample) :
  transitions <> [] -> adjacent_distinct (map snd transitions) ->
  transition_step transitions s <> [] /\
  adjacent_distinct (map snd (transition_step transitions s)) /\
  hd_error (transition_step transitions s) = hd_error transitions.
Proof.
  intros Hne Hadj. destruct s as [t v]. unfold transition_step.
  destruct (Z.eqb_spec v (snd (last transitions (0%Q, 0%Z)))) as [Heq | Hneq]; simpl.
  - auto.
  - split; [| split].
    + destruct transitions; discriminate.
    + rewrite map_app. simpl. apply adjacent_distinct_snoc.
      * exact Hadj.
      * destruct transitions; [congruence | discriminate].
      * change 0%Z with (snd (0%Q, 0%Z)) at 1. rewrite last_map_snd. congruence.
    + destruct transitions; [congruence | reflexivity].
Qed.

Lemma transitions_loop_inv (rest : list sample) (transitions : list sample) :
  transitions <> [] -> adjacent_distinct (map snd transitions) ->
  fold_left transition_step rest transitions <> [] /\
  adjacent_distinct (map snd (fold_left transition_step rest transitions)) /\
  hd_error (fold_left transition_step rest transitions) = hd_error transitions.
Proof.
  revert transitions. induction rest as [| s rest IH]; intros transitions Hne Hadj.
  - simpl. auto.
  - simpl. destruct (transition_step_inv transitions s Hne Hadj) as (H1 & H2 & H3).
    destruct (IH _ H1 H2) as (H4 & H5 & H6). rewrite H6, H3. auto.
Qed.

Lemma run_loop_snoc (transitions : list sample) (idxs : list nat) (acc : list run) :
  fold_left (run_step transitions) idxs acc =
  acc ++ map (fun i => (snd (nth i transitions (0%Q, 0%Z)),
                        (fst (nth (i + 1) transitions (0%Q, 0%Z))
                         - fst (nth i transitions (0%Q, 0%Z)))%Q)) idxs.
Proof.
  revert acc. induction idxs as [| i idxs IH]; intros acc; simpl.
  - now rewrite app_nil_r.
  - rewrite IH. unfold run_step.
    destruct (nth i transitions (0%Q, 0%Z)) as [t0 v0].
    destruct (nth (i + 1) transitions (0%Q, 0%Z)) as [t1 v1].
    simpl. now rewrite <- app_assoc.
Qed.

(** The run loop, unfolded along the transition list. *)
Lemma compute_runs_one (tr : sample) (t_end : Q) :
  compute_runs [tr] t_end = [(snd tr, (t_end - fst tr)%Q)].
Proof. destruct tr as [t v]. reflexivity. Qed.

Lemma compute_runs_cons (a b : sample) (rest : list sample) (t_end : Q) :
  compute_runs (a :: b :: rest) t_end =
  (snd a, (fst b - fst a)%Q) :: compute_runs (b :: rest) t_end.
Proof.
  unfold compute_runs. rewrite !run_loop_snoc. simpl app.
  change (last (a :: b :: rest) (0%Q, 0%Z)) with (last (b :: rest) (0%Q, 0%Z)).
  destruct (last (b :: rest) (0%Q, 0%Z)) as [t_last v_last].
  change (length (a :: b :: rest) - 1) with (S (length (b :: rest) - 1)).
  simpl length. rewrite Nat.sub_0_r.
  replace (S (length rest) - 1) with (length rest) by lia.
  change (seq 0 (S (length rest))) with (0 :: seq 1 (length rest)).
  rewrite <- seq_shift, map_map. simpl map at 1. simpl app. f_equal.
Qed.

Lemma compute_runs_levels (tr : sample) (rest : list sample) (t_end : Q) :
  map fst (compute_runs (tr :: rest) t_end) = map snd (tr :: rest).
Proof.
  revert tr. induction rest as [| b rest IH]; intros tr.
  - now rewrite compute_runs_one.
  - rewrite compute_runs_cons. simpl. f_equal. apply IH.
Qed.

Lemma compute_runs_length (tr : sample) (rest : list sample) (t_end : Q) :
  length (compute_runs (tr :: rest) t_end) = length (tr :: rest).
Proof.
  transitivity (length (map fst (compute_runs (tr :: rest) t_end))).
  - symmetry. apply length_map.
  - rewrite compute_runs_levels. apply length_map.
Qed.

(** C9. For every sample sequence (with a first sample), the runs read from
    it have alternating levels: no two adjacent runs share a level.  The
    levels of the runs are those of the transition list, in order, and the
    transition list is alternating as it is built, a sample being appended
    only when its level differs from the last one appended. *)
Theorem runs_have_alternating_levels (s : sample) (rest : list sample) :
  exists transitions runs,
    extract_transitions (map fst (s :: rest)) (map snd (s :: rest)) = Ok transitions /\
    read_trace (s :: rest) =
      Ok (runs, map fst (s :: rest), map snd (s :: rest)) /\
    adjacent_distinct (map snd transitions) /\
    map fst runs = map snd transitions /\
    adjacent_distinct (map fst runs).
Proof.
  destruct s as [t0 v0].
  set (transitions :=
         fold_left transition_step (combine (map fst rest) (map snd rest)) [(t0, v0)]).
  destruct (transitions_loop_inv (combine (map fst rest) (map snd rest)) [(t0, v0)])
    as (Hne & Hadj & Hhd); [discriminate | exact I |].
  fold transitions in Hne, Hadj, Hhd.
  exists transitions, (compute_runs transitions (last (map fst ((t0, v0) :: rest)) 0%Q)).
  assert (Hlev : map fst (compute_runs transitions (last (map fst ((t0, v0) :: rest)) 0%Q))
                 = map snd transitions).
  { destruct transitions as [| tr trs]; [congruence |]. apply compute_runs_levels. }
  repeat split.
  - exact Hadj.
  - exact Hlev.
  - rewrite Hlev. exact Hadj.
Qed.

End ReadTrace.

(** ** build_bitvector: quantum and expansion *)

Section BuildBitvector.

Lemma py_min_loop (xs : list Q) (m0 : Q) :
  let m := fold_left (fun m y => match Qcompare y m with Lt => y | _ => m end) xs m0 in
  (m = m0 \/ In m xs) /\ (m <= m0)%Q /\ forall y, In y xs -> (m <= y)%Q.
Proof.
  revert m0. induction xs as [| x xs IH]; intros m0; simpl.
  - split; [now left | split; [apply Qle_refl | intros y []]].
  - specialize (IH (match Qcompare x m0 with Lt => x | _ => m0 end)).
    simpl in IH. destruct IH as (Hin & Hle & Hall).
    destruct (Qcompare_spec x m0) as [Heq | Hlt | Hgt].
    + split; [| split].
      * destruct Hin; auto.
      * exact Hle.
      * intros y [<- | Hy]; [| now apply Hall].
        rewrite Heq. exact Hle.
    + split; [| split].
      * destruct Hin; auto.
      * eapply Qle_trans; [exact Hle |]. now apply Qlt_le_weak.
      * intros y [<- | Hy]; [exact Hle | now apply Hall].
    + split; [| split].
      * destruct Hin; auto.
      * exact Hle.
      * intros y [<- | Hy]; [| now apply Hall].
        eapply Qle_trans; [exact Hle |]. now apply Qlt_le_weak.
Qed.

Lemma py_min_spec (x : Q) (xs : list Q) :
  exists m, py_min (x :: xs) = Ok m /\ In m (x :: xs) /\
            forall y, In y (x :: xs) -> (m <= y)%Q.
Proof.
  eexists. split; [reflexivity |].
  destruct (py_min_loop xs x) as (Hin & Hle & Hall). split.
  - destruct Hin as [-> | Hin]; [now left | now right].
  - intros y [<- | Hy]; [exact Hle | now apply Hall].
Qed.

Lemma in_low_durations (runs : list run) (d : Q) :
  In d (low_durations runs) <-> In (0%Z, d) runs.
Proof.
  unfold low_durations. rewrite in_map_iff. split.
  - intros ([v d'] & Hd & Hin). simpl in Hd. subst d'.
    apply filter_In in Hin. destruct Hin as [Hin Hv]. simpl in Hv.
    apply Z.eqb_eq in Hv. now subst v.
  - intros Hin. exists (0%Z, d). split; [reflexivity |].
    apply filter_In. split; [exact Hin | reflexivity].
Qed.

(** C6. For every non-empty run list the quantum is estimated, and it is
    the least duration among the runs at level 0 when there is one, the
    least duration among all the runs when there is none. *)
Theorem estimated_quantum_is_minimum (r : run) (runs : list run) :
  exists T0,
    estimate_T0 (r :: runs) = Ok T0 /\
    ((exists d, In (0%Z, d) (r :: runs)) ->
       In (0%Z, T0) (r :: runs) /\
       forall d, In (0%Z, d) (r :: runs) -> (T0 <= d)%Q) /\
    ((forall d, ~ In (0%Z, d) (r :: runs)) ->
       (exists v, In (v, T0) (r :: runs)) /\
       forall v d, In (v, d) (r :: runs) -> (T0 <= d)%Q).
Proof.
  unfold estimate_T0.
  destruct (low_durations (r :: runs)) as [| l lows] eqn:Hlow.
  - destruct (py_min_spec (snd r) (map snd runs)) as (m & Hm & Hin & Hall).
    exists m. split; [exact Hm | split].
    + intros [d Hd]. apply in_low_durations in Hd. rewrite Hlow in Hd. destruct Hd.
    + intros _. split.
      * change (snd r :: map snd runs) with (map snd (r :: runs)) in Hin.
        apply in_map_iff in Hin. destruct Hin as ([v d] & Hd & Hin).
        simpl in Hd. subst d. now exists v.
      * intros v d Hin'. apply Hall.
        change (snd r :: map snd runs) with (map snd (r :: runs)).
        apply in_map_iff. now exists (v, d).
  - destruct (py_min_spec l lows) as (m & Hm & Hin & Hall).
    exists m. split; [exact Hm | split].
    + intros _. rewrite <- Hlow in Hin, Hall. split.
      * now apply in_low_durations.
      * intros d Hd. apply Hall. now apply in_low_durations.
    + intros Hnone. exfalso. apply (Hnone l).
      apply in_low_durations. rewrite Hlow. now left.
Qed.

Lemma estimate_T0_in (r : run) (runs : list run) :
  exists T0 v, estimate_T0 (r :: runs) = Ok T0 /\ In (v, T0) (r :: runs).
Proof.
  unfold estimate_T0.
  destruct (low_durations (r :: runs)) as [| l lows] eqn:Hlow.
  - destruct (py_min_spec (snd r) (map snd runs)) as (m & Hm & Hin & _).
    change (snd r :: map snd runs) with (map snd (r :: runs)) in Hin.
    apply in_map_iff in Hin. destruct Hin as ([v d] & Hd & Hin).
    simpl in Hd. subst d. now exists m, v.
  - destruct (py_min_spec l lows) as (m & Hm & Hin & _).
    rewrite <- Hlow in Hin. apply in_low_durations in Hin. now exists m, 0%Z.
Qed.

Lemma in_skipn {A : Type} (n : nat) (l : list A) (x : A) :
  In x (skipn n l) -> In x l.
Proof.
  intros H. rewrite <- (firstn_skipn n l). apply in_or_app. now right.
Qed.

Lemma trim_idle_incl (T0 : Q) (runs : list run) (r : run) :
  In r (trim_idle T0 runs) -> In r runs.
Proof.
  unfold trim_idle. destruct (first_idle T0 runs 0); [apply in_skipn | auto].
Qed.


Lemma join_bits_app (l1 l2 : list Z) :
  join_bits (l1 ++ l2) = join_bits l1 ++ join_bits l2.
Proof. unfold join_bits. now rewrite map_app, concat_app. Qed.

Lemma join_bits_repeat (v : Z) (n : nat) :
  v = 0%Z \/ v = 1%Z -> join_bits (repeat v n) = repeat (bit_char v) n.
Proof.
  intros Hv. induction n as [| n IH]; [reflexivity |].
  change (repeat v (S n)) with ([v] ++ repeat v n).
  rewrite join_bits_app, IH. destruct Hv as [-> | ->]; reflexivity.
Qed.

End BuildBitvector.

(** ** extract_and_verify: the scan *)

Lemma char_at_app (pre rest : list ascii) (c : ascii) :
  char_at (pre ++ c :: rest) (length pre) = c.
Proof.
  unfold char_at. rewrite app_nth2, Nat.sub_diag; [reflexivity | lia].
Qed.

Lemma index_in_range (pre rest : list ascii) (c : ascii) :
  (length pre <? length (pre ++ c :: rest)) = true.
Proof. apply Nat.ltb_lt. rewrite length_app. simpl. lia. Qed.

Lemma index_at_end (pre : list ascii) :
  (length pre <? length (pre ++ [])) = false.
Proof. rewrite app_nil_r. apply Nat.ltb_irrefl. Qed.

Lemma snoc_app (pre rest : list ascii) (c : ascii) :
  pre ++ c :: rest = (pre ++ [c]) ++ rest.
Proof. now rewrite <- app_assoc. Qed.

Lemma length_snoc (pre : list ascii) (c : ascii) :
  S (length pre) = length (pre ++ [c]).
Proof. rewrite length_app. simpl. lia. Qed.

(** Moves the character under the index from the part still to read to the
    part already read. *)
Ltac advance pre c rest :=
  rewrite (snoc_app pre rest c), (length_snoc pre c).

Section Scan.

(** *** Runs of ['1'] *)

Lemma length_idle (k : nat) : length (idle k) = k.
Proof. apply repeat_length. Qed.

Lemma leading_ones_le_length (s : list ascii) : leading_ones s <= length s.
Proof.
  induction s as [| c s IH]; simpl; [lia |].
  destruct (c =? "1")%char; lia.
Qed.

Lemma leading_ones_idle (k : nat) (s : list ascii) :
  leading_ones (idle k ++ s) = k + leading_ones s.
Proof.
  unfold idle. induction k as [| k IH]; simpl; [reflexivity | now rewrite IH].
Qed.

Lemma leading_ones_split (s : list ascii) :
  s = idle (leading_ones s) ++ skipn (leading_ones s) s /\
  leading_ones (skipn (leading_ones s) s) = 0.
Proof.
  unfold idle. induction s as [| c s [IH1 IH2]]; simpl; [auto |].
  destruct (Ascii.eqb_spec c "1"%char) as [-> | Hc]; simpl.
  - split; [now rewrite <- IH1 | exact IH2].
  - split; [reflexivity |]. apply Ascii.eqb_neq in Hc. now rewrite Hc.
Qed.

Lemma leading_ones_le_longest (s : list ascii) : leading_ones s <= longest_ones s.
Proof. destruct s; simpl; lia. Qed.

Lemma longest_ones_cons (c : ascii) (s : list ascii) :
  longest_ones s <= longest_ones (c :: s).
Proof. cbn [longest_ones]. lia. Qed.

Lemma longest_ones_app_r (pre s : list ascii) :
  longest_ones s <= longest_ones (pre ++ s).
Proof.
  induction pre as [| c pre IH]; [simpl; lia |].
  etransitivity; [exact IH | apply longest_ones_cons].
Qed.

(** A string that does not end with ['1'] keeps its leading run when
    extended. *)
Lemma leading_ones_app (w s : list ascii) :
  w <> [] -> last w "1"%char <> "1"%char ->
  leading_ones (w ++ s) = leading_ones w.
Proof.
  induction w as [| c w IH]; intros Hne Hlast; [congruence |].
  simpl. destruct (Ascii.eqb_spec c "1"%char) as [-> | Hc]; [| reflexivity].
  f_equal. destruct w as [| d w]; [simpl in Hlast; congruence |].
  apply IH; [discriminate | exact Hlast].
Qed.

Lemma leading_ones_idle_nil (k : nat) : leading_ones (idle k) = k.
Proof.
  pose proof (leading_ones_idle k []) as H. rewrite app_nil_r in H.
  rewrite H. simpl. lia.
Qed.

Lemma longest_ones_idle (k : nat) : longest_ones (idle k) = k.
Proof.
  induction k as [| k IH]; [reflexivity |].
  change (idle (S k)) with ("1"%char :: idle k). cbn [longest_ones].
  rewrite IH. change ("1"%char :: idle k) with (idle (S k)).
  rewrite leading_ones_idle_nil. lia.
Qed.

Lemma longest_ones_app_idle (w : list ascii) (k : nat) :
  w = [] \/ last w "1"%char <> "1"%char ->
  longest_ones (w ++ idle k) = Nat.max (longest_ones w) k.
Proof.
  induction w as [| c w IH]; intros Hw.
  - simpl. apply longest_ones_idle.
  - destruct Hw as [Hw | Hw]; [discriminate |].
    change ((c :: w) ++ idle k) with (c :: (w ++ idle k)).
    cbn [longest_ones].
    change (c :: w ++ idle k) with ((c :: w) ++ idle k).
    rewrite (leading_ones_app (c :: w) (idle k)) by (discriminate || exact Hw).
    destruct w as [| d w].
    + cbn [app]. rewrite longest_ones_idle. simpl in Hw.
      simpl. apply Ascii.eqb_neq in Hw. rewrite Hw. lia.
    + rewrite IH by (right; exact Hw). lia.
Qed.

Lemma longest_ones_snoc (w : list ascii) (c : ascii) :
  c <> "1"%char -> longest_ones (w ++ [c]) = longest_ones w.
Proof.
  intros Hc. induction w as [| d w IH].
  - simpl. apply Ascii.eqb_neq in Hc. now rewrite Hc.
  - change ((d :: w) ++ [c]) with (d :: (w ++ [c])). cbn [longest_ones].
    rewrite IH. f_equal.
    change (d :: w ++ [c]) with ((d :: w) ++ [c]).
    clear IH. induction (d :: w) as [| e v IHv]; simpl.
    + apply Ascii.eqb_neq in Hc. now rewrite Hc.
    + destruct (e =? "1")%char; [now rewrite IHv | reflexivity].
Qed.

(** A run of [k] consecutive ['1'] anywhere in a string is no longer than
    its longest run. *)
Lemma longest_ones_run (pre post : list ascii) (k : nat) :
  k <= longest_ones (pre ++ idle k ++ post).
Proof.
  etransitivity; [| apply longest_ones_app_r].
  etransitivity; [| apply leading_ones_le_longest].
  rewrite leading_ones_idle. lia.
Qed.

(** *** The loop over a run of ['1'] *)

Lemma ones_loop_total (f : nat) (pre rest : list ascii) :
  length rest < f ->
  ones_loop f (pre ++ rest) (length pre) = Some (length pre + leading_ones rest).
Proof.
  revert pre rest. induction f as [| f IH]; intros pre rest Hf; [lia |].
  cbn [ones_loop]. destruct rest as [| c rest].
  - rewrite index_at_end. simpl. f_equal. lia.
  - rewrite index_in_range, char_at_app. cbn [andb leading_ones].
    destruct (c =? "1")%char.
    + advance pre c rest. rewrite IH by (simpl in Hf; lia).
      rewrite <- length_snoc. f_equal. lia.
    + f_equal. lia.
Qed.

(** *** The loop over an open frame *)

(** From any index, with the text still to read [rest]: the loop either
    closes the frame at the first run of [min_idle] or more ['1'] in [rest],
    having skipped [w2], or reads [rest] to its end.  [w] stands for what the
    frame holds so far; with [w2] it has no idle run either and ends
    outside a run. *)
Lemma frame_loop_spec (m : Z) (f : nat) :
  forall (seen w rest : list ascii) (start : nat),
  length rest + 2 <= f ->
  (Z.of_nat (longest_ones w) < m)%Z ->
  leading_ones rest = 0 \/ w = [] \/ last w "1"%char <> "1"%char ->
  (exists w2 k rest2,
      rest = w2 ++ idle k ++ rest2 /\
      frame_loop f (seen ++ rest) m start (length seen) =
        Some (length seen + length w2 + k, Some (start, length seen + length w2)) /\
      1 <= k /\ (m <= Z.of_nat k)%Z /\
      (Z.of_nat (longest_ones (w ++ w2)) < m)%Z /\
      (w ++ w2 = [] \/ last (w ++ w2) "1"%char <> "1"%char) /\
      leading_ones rest2 = 0)
  \/ frame_loop f (seen ++ rest) m start (length seen) =
       Some (length (seen ++ rest), None).
Proof.
  induction f as [| f IH]; intros seen w rest start Hf Hw Hb; [lia |].
  destruct rest as [| c rest'].
  - right. cbn [frame_loop]. rewrite index_at_end. now rewrite app_nil_r.
  - cbn [frame_loop]. rewrite index_in_range, char_at_app.
    destruct (Ascii.eqb_spec c "1"%char) as [Hc | Hc].
    + remember (c :: rest') as rest eqn:Hrest.
      destruct (leading_ones_split rest) as [Hsplit Hrest2].
      remember (leading_ones rest) as k eqn:Hk.
      remember (skipn k rest) as rest2 eqn:Hr2.
      assert (Hk1 : 1 <= k). { subst k rest c. simpl. lia. }
      assert (Hlen : length rest = k + length rest2).
      { rewrite Hsplit at 1. now rewrite length_app, length_idle. }
      rewrite ones_loop_total by lia. rewrite <- Hk.
      replace (length seen + k - length seen) with k by lia.
      destruct (Z.leb_spec m (Z.of_nat k)) as [Hmk | Hmk].
      * left. exists [], k, rest2. rewrite !app_nil_r. cbn [length app].
        rewrite !Nat.add_0_r. repeat split; auto.
        destruct Hb as [Hb | Hb]; [lia | exact Hb].
      * assert (Hw' : w = [] \/ last w "1"%char <> "1"%char).
        { destruct Hb as [Hb | Hb]; [lia | exact Hb]. }
        destruct (IH (seen ++ idle k) (w ++ idle k) rest2 start) as [Hl | Hr].
        -- lia.
        -- rewrite longest_ones_app_idle by exact Hw'. lia.
        -- now left.
        -- left. destruct Hl as (w2 & k2 & rest3 & E & HF & Hk2 & Hm2 & Hl2 & Hb2 & Hr3).
           exists (idle k ++ w2), k2, rest3.
           rewrite <- app_assoc, <- Hsplit in HF.
           rewrite length_app, length_idle in HF.
           rewrite (app_assoc w (idle k) w2).
           rewrite length_app, length_idle.
           split; [rewrite <- !app_assoc, <- E; exact Hsplit |].
           split; [| now auto].
           rewrite HF. f_equal. f_equal; [lia |]. f_equal. f_equal. lia.
        -- right. rewrite <- app_assoc, <- Hsplit in Hr.
           rewrite length_app, length_idle in Hr. exact Hr.
    + apply Ascii.eqb_neq in Hc. 
      destruct (IH (seen ++ [c]) (w ++ [c]) rest' start) as [Hl | Hr].
      * simpl in Hf. lia.
      * apply Ascii.eqb_neq in Hc. now rewrite longest_ones_snoc.
      * right. right. rewrite last_last. now apply Ascii.eqb_neq.
      * left. destruct Hl as (w2 & k2 & rest3 & E & HF & Hk2 & Hm2 & Hl2 & Hb2 & Hr3).
        exists (c :: w2), k2, rest3.
        rewrite <- app_assoc in *. cbn [app] in *. rewrite <- length_snoc in HF.
        subst rest'. repeat split; auto.
        rewrite HF. cbn [length]. f_equal. f_equal; [lia |]. f_equal. f_equal. lia.
      * right. rewrite <- app_assoc in Hr. cbn [app] in Hr.
        rewrite <- length_snoc in Hr. exact Hr.
Qed.

Lemma slice_app (pre fr post : list ascii) :
  slice (pre ++ fr ++ post) (length pre) (length pre + length fr) = fr.
Proof.
  unfold slice. rewrite skipn_app, skipn_all, Nat.sub_diag. cbn [skipn app].
  replace (length pre + length fr - length pre) with (length fr) by lia.
  rewrite firstn_app, firstn_all, Nat.sub_diag. cbn [firstn]. apply app_nil_r.
Qed.

(** *** The outer loop *)

(** From any index, with enough of the counter left: the scan ends, and
    every frame it adds is delimited in the bit vector at the position added
    with it. *)
Lemma scan_loop_spec (m : Z) (f : nat) :
  (1 <= m)%Z ->
  forall (bitvec seen rest : list ascii) frames positions,
  bitvec = seen ++ rest ->
  length rest + 3 <= f ->
  exists nf np,
    scan_loop f bitvec m (length seen) frames positions =
      Some (frames ++ nf, positions ++ np) /\
    Forall2 (delimited bitvec m) nf np.
Proof.
  intros Hm. induction f as [| f IH]; intros bitvec seen rest frames positions Hbv Hf;
    [lia |].
  cbn [scan_loop]. destruct rest as [| c rest'].
  - exists [], []. split; [| constructor].
    replace (length seen <? length bitvec) with false
      by (subst bitvec; symmetry; apply index_at_end).
    now rewrite !app_nil_r.
  - replace (length seen <? length bitvec) with true
      by (subst bitvec; symmetry; apply index_in_range).
    replace (char_at bitvec (length seen)) with c
      by (subst bitvec; symmetry; apply char_at_app).
    cbn [length] in Hf.
    destruct (Ascii.eqb_spec c "0"%char) as [Hc | Hc].
    + destruct (frame_loop_spec m f seen [] (c :: rest') (length seen))
        as [(w2 & k & rest2 & E & HF & Hk & Hmk & Hl & Hb & _) | HF];
        [cbn [length]; lia | simpl; lia | now (right; left) | |];
        rewrite <- Hbv in HF; rewrite HF.
      * cbn [app] in Hl, Hb.
        assert (Hlen : length (c :: rest') = length w2 + k + length rest2).
        { rewrite E, !length_app, length_idle. lia. }
        cbn [length] in Hlen.
        assert (Hbv2 : bitvec = (seen ++ w2 ++ idle k) ++ rest2).
        { rewrite Hbv, E, <- !app_assoc. reflexivity. }
        assert (Hslice : slice bitvec (length seen) (length seen + length w2) = w2).
        { rewrite Hbv, E. apply slice_app. }
        rewrite Hslice.
        replace (length seen + length w2 + k) with (length (seen ++ w2 ++ idle k))
          by (rewrite !length_app, length_idle; lia).
        destruct (IH bitvec (seen ++ w2 ++ idle k) rest2 (frames ++ [w2])
                     (positions ++ [(length seen, length seen + length w2)]) Hbv2)
          as (nf & np & HS & HD); [lia |].
        exists (w2 :: nf), ((length seen, length seen + length w2) :: np).
        split; [rewrite HS, <- !app_assoc; reflexivity |].
        constructor; [| exact HD].
        exists seen, k, rest2. rewrite Hbv, E.
        repeat split; auto.
        -- destruct w2 as [| d w2]; [| cbn [app] in E; injection E as -> _; now subst].
           destruct k as [| k]; [lia |]. simpl in E. injection E as E _.
           subst c. discriminate.
        -- destruct Hb as [Hb | Hb]; [| exact Hb]. subst w2.
           destruct k as [| k]; [lia |]. simpl in E. injection E as E _.
           subst c. discriminate.
      * assert (Hbv2 : bitvec = bitvec ++ []) by now rewrite app_nil_r.
        destruct (IH bitvec bitvec [] frames positions Hbv2) as (nf & np & HS & HD);
          [simpl; lia |].
        exists nf, np. split; [| exact HD]. exact HS.
    + assert (Hbv2 : bitvec = (seen ++ [c]) ++ rest') by now rewrite <- app_assoc.
      rewrite (length_snoc seen c).
      destruct (IH bitvec (seen ++ [c]) rest' frames positions Hbv2) as (nf & np & HS & HD);
        [lia |].
      exists nf, np. auto.
Qed.

End Scan.

(** ** extract_and_verify: the loops end *)

Section Termination.

Variable m : Z.

Lemma frame_loop_total (f : nat) :
  forall (seen rest : list ascii) (start : nat),
  length rest + 2 <= f ->
  exists i' res,
    frame_loop f (seen ++ rest) m start (length seen) = Some (i', res) /\
    length seen <= i' <= length (seen ++ rest) /\
    (rest <> [] -> length seen < i').
Proof.
  induction f as [| f IH]; intros seen rest start Hf; [lia |].
  destruct rest as [| c rest'].
  - exists (length seen), None. cbn [frame_loop]. rewrite index_at_end.
    rewrite app_nil_r. repeat split; auto; congruence.
  - cbn [frame_loop]. rewrite index_in_range, char_at_app.
    destruct (Ascii.eqb_spec c "1"%char) as [Hc | Hc].
    + remember (c :: rest') as rest eqn:Hrest.
      destruct (leading_ones_split rest) as [Hsplit _].
      remember (leading_ones rest) as k eqn:Hk.
      assert (Hk1 : 1 <= k) by (subst k rest c; simpl; lia).
      assert (Hlen : length rest = k + length (skipn k rest)).
      { rewrite Hsplit at 1. now rewrite length_app, length_idle. }
      rewrite ones_loop_total by lia. rewrite <- Hk.
      destruct (m <=? Z.of_nat (length seen + k - length seen))%Z.
      * exists (length seen + k), (Some (start, length seen)).
        rewrite length_app. repeat split; lia.
      * destruct (IH (seen ++ idle k) (skipn k rest) start) as (i' & res & HF & Hi & _);
          [lia |].
        rewrite <- app_assoc, <- Hsplit, length_app, length_idle in HF, Hi.
        exists i', res. repeat split; try exact HF; lia.
    + destruct (IH (seen ++ [c]) rest' start) as (i' & res & HF & Hi & _);
        [simpl in Hf; lia |].
      rewrite <- app_assoc in HF, Hi. cbn [app] in HF, Hi.
      rewrite <- length_snoc in HF, Hi.
      exists i', res. repeat split; try exact HF; lia.
Qed.

Lemma scan_loop_total (f : nat) :
  forall (bitvec seen rest : list ascii) frames positions,
  bitvec = seen ++ rest ->
  length rest + 3 <= f ->
  exists r, scan_loop f bitvec m (length seen) frames positions = Some r.
Proof.
  induction f as [| f IH]; intros bitvec seen rest frames positions Hbv Hf; [lia |].
  cbn [scan_loop]. destruct rest as [| c rest'].
  - replace (length seen <? length bitvec) with false
      by (subst bitvec; symmetry; apply index_at_end).
    eauto.
  - replace (length seen <? length bitvec) with true
      by (subst bitvec; symmetry; apply index_in_range).
    replace (char_at bitvec (length seen)) with c
      by (subst bitvec; symmetry; apply char_at_app).
    cbn [length] in Hf.
    destruct (c =? "0")%char.
    + destruct (frame_loop_total f seen (c :: rest') (length seen))
        as (i' & res & HF & Hi & Hlt); [cbn [length]; lia |].
      rewrite <- Hbv in HF, Hi. rewrite HF.
      specialize (Hlt ltac:(discriminate)).
      assert (Hn : length bitvec = length seen + S (length rest')).
      { rewrite Hbv, length_app. reflexivity. }
      assert (Hcut : bitvec = firstn i' bitvec ++ skipn i' bitvec)
        by (symmetry; apply firstn_skipn).
      assert (Hi' : length (firstn i' bitvec) = i')
        by (apply firstn_length_le; lia).
      assert (Hrest : length (skipn i' bitvec) + 3 <= f)
        by (rewrite length_skipn; lia).
      destruct res as [[s e] |]; rewrite <- Hi'; eapply IH; eassumption.
    + assert (Hbv2 : bitvec = (seen ++ [c]) ++ rest') by now rewrite <- app_assoc.
      rewrite (length_snoc seen c). eapply IH; [exact Hbv2 | lia].
Qed.

(** Extraction and verification always return: with what they printed, a
    result or an exception. *)
Lemma extract_and_verify_returns (bitvec : list ascii) :
  exists out res, extract_and_verify bitvec m = Some (out, res).
Proof.
  unfold extract_and_verify, extract_frames.
  destruct (scan_loop_total (length bitvec + 3) bitvec [] bitvec [] [] eq_refl)
    as [[frames positions] HS]; [lia |].
  change (@length ascii []) with 0 in HS. rewrite HS.
  destruct (verify_frames bitvec frames positions) as [out res]. eauto.
Qed.

End Termination.

(** ** extract_and_verify: the frames of any bit vector *)

Section Frames.

Lemma last_in (s : list ascii) (d : ascii) : s <> [] -> In (last s d) s.
Proof.
  induction s as [| c [| c' s] IH]; intros Hne; [congruence | now left |].
  right. apply IH. discriminate.
Qed.

Lemma is_bitvector_in (s : list ascii) (c : ascii) :
  is_bitvector s -> In c s -> c = "0"%char \/ c = "1"%char.
Proof.
  unfold is_bitvector. rewrite forallb_forall. intros H Hin.
  apply H in Hin. apply orb_true_iff in Hin.
  destruct Hin as [Hc | Hc]; apply Ascii.eqb_eq in Hc; auto.
Qed.

Lemma delimited_ok (bitvec : list ascii) (m : Z) (fr : list ascii) (pos : nat * nat) :
  is_bitvector bitvec -> delimited bitvec m fr pos -> extracted_frame_ok bitvec m fr pos.
Proof.
  intros Hbits (pre & k & rest & Hbv & -> & Hk & Hmk & Hhd & Hlast & Hlong).
  assert (Hne : fr <> []) by (intros ->; discriminate).
  cbn [fst snd]. repeat split.
  - rewrite Hbv. symmetry. apply slice_app.
  - exact Hne.
  - exact Hhd.
  - destruct (is_bitvector_in bitvec (last fr "1"%char) Hbits) as [H | H];
      [| exact H | contradiction].
    rewrite Hbv. apply in_or_app. right. apply in_or_app. left.
    now apply last_in.
  - intros pre' k' post' E. pose proof (longest_ones_run pre' post' k') as H.
    rewrite <- E in H. lia.
  - exists k. split; [exact Hmk |].
    rewrite Hbv. cbn [fst snd].
    replace (pre ++ fr ++ idle k ++ rest) with ((pre ++ fr) ++ idle k ++ rest)
      by (now rewrite <- app_assoc).
    replace (length pre + length fr) with (length (pre ++ fr))
      by apply length_app.
    replace (length (pre ++ fr) + k) with (length (pre ++ fr) + length (idle k))
      by (now rewrite length_idle).
    apply slice_app.
Qed.

(** C10. For every bit vector and every [min_idle >= 1] the scan ends, and
    each frame it extracts is the slice at its position, is not empty,
    begins with ['0'], ends with ['0'] and holds no run of [min_idle] or more
    consecutive ['1']; the idle run that closes the frame starts where the
    frame ends and is no part of it. *)
Theorem extracted_frames_are_delimited (bitvec : list ascii) (min_idle : Z) :
  (1 <= min_idle)%Z ->
  is_bitvector bitvec ->
  exists frames positions,
    extract_frames bitvec min_idle = Some (frames, positions) /\
    Forall2 (extracted_frame_ok bitvec min_idle) frames positions.
Proof.
  intros Hm Hbits. unfold extract_frames.
  destruct (scan_loop_spec min_idle (length bitvec + 3) Hm bitvec [] bitvec [] [] eq_refl)
    as (nf & np & HS & HD); [lia |].
  exists nf, np. split; [exact HS |].
  clear HS. induction HD as [| fr pos nf np H HD IH]; constructor; auto.
  now apply delimited_ok.
Qed.

Lemma extracted_frames_are_delimited_witness :
  (1 <= 3)%Z /\
  is_bitvector (list_ascii_of_string "1101011111001011101111") /\
  exists frames positions,
    extract_frames (list_ascii_of_string "1101011111001011101111") 3 =
      Some (frames, positions) /\
    Forall2 (extracted_frame_ok (list_ascii_of_string "1101011111001011101111") 3)
            frames positions.
Proof.
  split; [lia |]. split; [reflexivity |].
  apply (extracted_frames_are_delimited
           (list_ascii_of_string "1101011111001011101111") 3); [lia | reflexivity].
Defined.

End Frames.

(** ** extract_and_verify: the frames of a capture *)

Section Capture.

Variable m : Z.
Hypothesis m_positive : (1 <= m)%Z.

Lemma last_app_r (a b : list ascii) (d : ascii) :
  b <> [] -> last (a ++ b) d = last b d.
Proof.
  intros Hb. induction a as [| c a IH]; [reflexivity |].
  cbn [app]. destruct (a ++ b) eqn:E.
  - apply app_eq_nil in E. tauto.
  - exact IH.
Qed.

Lemma last_idle (j : nat) (d : ascii) : 1 <= j -> last (idle j) d = "1"%char.
Proof.
  induction j as [| [| j] IH]; intros Hj; [lia | reflexivity |].
  change (idle (S (S j))) with ("1"%char :: idle (S j)).
  change (last (idle (S j)) d = "1"%char). apply IH. lia.
Qed.

(** Over a frame body [rem] followed by an idle run, the loop closes the
    frame where the idle run begins. *)
Lemma frame_loop_closes (f : nat) :
  forall (seen rem : list ascii) (k : nat) (suf : list ascii) (start : nat),
  length (rem ++ idle k ++ suf) + 2 <= f ->
  (m <= Z.of_nat k)%Z ->
  leading_ones suf = 0 ->
  rem = [] \/ last rem "1"%char <> "1"%char ->
  (Z.of_nat (longest_ones rem) < m)%Z ->
  frame_loop f (seen ++ rem ++ idle k ++ suf) m start (length seen) =
    Some (length seen + length rem + k, Some (start, length seen + length rem)).
Proof.
  induction f as [| f IH]; intros seen rem k suf start Hf Hk Hsuf Hlast Hlong; [lia |].
  destruct rem as [| c rem'].
  - destruct k as [| k']; [lia |].
    cbn [app length]. rewrite !Nat.add_0_r.
    change (idle (S k') ++ suf) with ("1"%char :: (idle k' ++ suf)).
    cbn [frame_loop]. rewrite index_in_range, char_at_app. cbn [Ascii.eqb].
    change (("1" =? "1")%char) with true. cbv iota.
    rewrite (ones_loop_total f seen ("1"%char :: idle k' ++ suf)).
    + change ("1"%char :: idle k' ++ suf) with (idle (S k') ++ suf).
      rewrite leading_ones_idle, Hsuf, Nat.add_0_r.
      replace (length seen + S k' - length seen) with (S k') by lia.
      destruct (Z.leb_spec m (Z.of_nat (S k'))); [reflexivity | lia].
    + cbn [app length] in Hf.
      change (idle (S k') ++ suf) with ("1"%char :: (idle k' ++ suf)) in Hf. lia.
  - cbn [app]. cbn [frame_loop]. rewrite index_in_range, char_at_app.
    destruct Hlast as [Hlast | Hlast]; [discriminate |].
    destruct (Ascii.eqb_spec c "1"%char) as [Hc | Hc].
    + remember (c :: rem') as rem eqn:Hrem.
      destruct (leading_ones_split rem) as [Hsplit Hrem2].
      remember (leading_ones rem) as j eqn:Hj.
      remember (skipn j rem) as rem2 eqn:Hr2.
      assert (Hj1 : 1 <= j) by (subst j rem c; simpl; lia).
      assert (Hne2 : rem2 <> []).
      { intros E. rewrite E, app_nil_r in Hsplit. rewrite Hsplit in Hlast.
        now rewrite last_idle in Hlast. }
      assert (Hjm : (Z.of_nat j < m)%Z).
      { pose proof (leading_ones_le_longest rem). lia. }
      change (c :: rem' ++ idle k ++ suf) with ((c :: rem') ++ idle k ++ suf).
      rewrite <- Hrem.
      rewrite (ones_loop_total f seen (rem ++ idle k ++ suf))
        by lia.
      rewrite leading_ones_app, <- Hj by (subst rem; discriminate || exact Hlast).
      replace (length seen + j - length seen) with j by lia.
      destruct (Z.leb_spec m (Z.of_nat j)); [lia |].
      assert (Hlen : length rem = j + length rem2).
      { rewrite Hsplit at 1. now rewrite length_app, length_idle. }
      replace (seen ++ rem ++ idle k ++ suf)
        with ((seen ++ idle j) ++ rem2 ++ idle k ++ suf)
        by (rewrite <- !app_assoc, (app_assoc (idle j) rem2), <- Hsplit; reflexivity).
      replace (length seen + j) with (length (seen ++ idle j))
        by (now rewrite length_app, length_idle).
      rewrite IH.
      * rewrite length_app, length_idle. f_equal. f_equal; [lia |].
        f_equal. f_equal. lia.
      * rewrite !length_app in *. lia.
      * exact Hk.
      * exact Hsuf.
      * right. rewrite Hsplit, last_app_r in Hlast; assumption.
      * pose proof (longest_ones_app_r (idle j) rem2) as H'.
        rewrite <- Hsplit in H'. lia.
    + advance seen c (rem' ++ idle k ++ suf).
      rewrite IH.
      * rewrite <- length_snoc. cbn [length]. f_equal. f_equal; [lia |].
        f_equal. f_equal. lia.
      * cbn [app length] in Hf. lia.
      * exact Hk.
      * exact Hsuf.
      * destruct rem' as [| d rem']; [now left | right; exact Hlast].
      * pose proof (longest_ones_cons c rem'). lia.
Qed.

Lemma capture_cons (fr : list ascii) (k : nat) (segs : list (list ascii * nat)) :
  capture ((fr, k) :: segs) = fr ++ idle k ++ capture segs.
Proof. unfold capture. cbn [map concat fst snd]. now rewrite <- app_assoc. Qed.

Lemma capture_no_leading_one (segs : list (list ascii * nat)) :
  Forall (capture_segment m) segs -> leading_ones (capture segs) = 0.
Proof.
  intros H. destruct H as [| [fr k] segs [(Hhd & _) _] _]; [reflexivity |].
  rewrite capture_cons. cbn [fst] in Hhd.
  destruct fr as [| c fr]; [discriminate |]. injection Hhd as ->. reflexivity.
Qed.

(** Over a capture, the scan collects the frames of the segments, each at
    its position. *)
Lemma scan_loop_capture (segs : list (list ascii * nat)) :
  Forall (capture_segment m) segs ->
  forall (f : nat) (bitvec seen : list ascii) frames positions,
  bitvec = seen ++ capture segs ->
  length (capture segs) + 3 <= f ->
  scan_loop f bitvec m (length seen) frames positions =
    Some (frames ++ map fst segs,
          positions ++ segment_positions (length seen) segs).
Proof.
  induction 1 as [| [fr k] segs [Hfr Hk] Hsegs IH];
    intros f bitvec seen frames positions Hbv Hf.
  - destruct f as [| f]; [lia |]. cbn [scan_loop].
    replace (length seen <? length bitvec) with false
      by (subst bitvec; symmetry; apply index_at_end).
    now rewrite !app_nil_r.
  - destruct f as [| f]; [lia |]. cbn [fst snd] in Hfr, Hk.
    destruct Hfr as (Hhd & Hlast & Hlong).
    destruct fr as [| c fr']; [discriminate |]. injection Hhd as ->.
    rewrite capture_cons in Hbv, Hf.
    cbn [scan_loop].
    replace (length seen <? length bitvec) with true
      by (subst bitvec; symmetry; apply index_in_range).
    replace (char_at bitvec (length seen)) with "0"%char
      by (subst bitvec; symmetry; apply char_at_app).
    change (("0" =? "0")%char) with true. cbv iota.
    rewrite Hbv at 1.
    rewrite frame_loop_closes.
    + replace (slice bitvec (length seen) (length seen + length ("0"%char :: fr')))
        with ("0"%char :: fr') by (rewrite Hbv; symmetry; apply slice_app).
      replace (length seen + length ("0"%char :: fr') + k)
        with (length (seen ++ ("0"%char :: fr') ++ idle k))
        by (rewrite !length_app, length_idle; lia).
      rewrite (IH f bitvec (seen ++ ("0"%char :: fr') ++ idle k)).
      * rewrite <- !app_assoc. cbn [map fst segment_positions app].
        replace (length (seen ++ "0"%char :: fr' ++ idle k))
          with (length seen + length ("0"%char :: fr') + k); [reflexivity |].
        change ("0"%char :: fr' ++ idle k) with (("0"%char :: fr') ++ idle k).
        rewrite !length_app, length_idle. lia.
      * rewrite Hbv, <- !app_assoc. reflexivity.
      * rewrite !length_app in Hf. cbn [length] in Hf. lia.
    + lia.
    + exact Hk.
    + now apply capture_no_leading_one.
    + right. rewrite Hlast. discriminate.
    + exact Hlong.
Qed.

Lemma extract_frames_capture (segs : list (list ascii * nat)) :
  Forall (capture_segment m) segs ->
  extract_frames (capture segs) m =
    Some (map fst segs, segment_positions 0 segs).
Proof.
  intros Hsegs. unfold extract_frames.
  apply (scan_loop_capture segs Hsegs _ (capture segs) [] [] []); [reflexivity | lia].
Qed.

End Capture.

(** ** extract_and_verify: verification *)

Section Verify.

Variable m : Z.
Hypothesis m_positive : (1 <= m)%Z.

Lemma str_eqb_refl (a : list ascii) : str_eqb a a = true.
Proof. unfold str_eqb. destruct (list_eq_dec ascii_dec a a); congruence. Qed.

Lemma str_eqb_neq (a b : list ascii) : a <> b -> str_eqb a b = false.
Proof. unfold str_eqb. destruct (list_eq_dec ascii_dec a b); congruence. Qed.

Lemma verify_loop_all_equal (first : list ascii) (others : list (list ascii)) :
  Forall (eq first) others ->
  forall (s : nat) (st : list string * nat),
  fold_left (verify_step first) (combine (seq s (length others)) others) st = st.
Proof.
  induction 1 as [| x others <- _ IH]; intros s [out errors]; [reflexivity |].
  cbn [length seq combine fold_left verify_step]. rewrite str_eqb_refl. apply IH.
Qed.

Lemma verify_loop_one_mismatch (first q : list ascii) (a b : list (list ascii)) :
  Forall (eq first) a -> Forall (eq first) b -> q <> first ->
  forall (s : nat) (out : list string),
  fold_left (verify_step first)
            (combine (seq s (length (a ++ q :: b))) (a ++ q :: b)) (out, 0) =
    (out ++ ["Frame " +++ str_nat (s + length a) +++ " differs"], 1).
Proof.
  intros Ha Hb Hq. induction Ha as [| x a <- _ IH]; intros s out.
  - cbn [app length seq combine fold_left verify_step].
    rewrite (str_eqb_neq _ _ Hq), Nat.add_0_r.
    now apply verify_loop_all_equal.
  - replace (s + length (first :: a)) with (S s + length a)
      by (cbn [length]; lia).
    cbn [app length seq combine fold_left verify_step]. rewrite str_eqb_refl.
    apply IH.
Qed.

Lemma length_check_passes (frame : list ascii) :
  30 <= length frame <= 34 -> length_check frame = Ok tt.
Proof.
  intros [Hlo Hhi]. unfold length_check.
  destruct (Nat.ltb_spec (length frame) 30); [lia |].
  destruct (Nat.ltb_spec 34 (length frame)); [lia |]. reflexivity.
Qed.

Lemma tiled_segments_ok (p : list ascii) (seps : list nat) :
  framed m p ->
  Forall (fun k => (m <= Z.of_nat k)%Z) seps ->
  Forall (capture_segment m) (map (fun k => (p, k)) seps).
Proof.
  intros Hp Hseps. induction Hseps as [| k seps Hk _ IH]; constructor; auto.
  split; assumption.
Qed.

Lemma tiled_frames (p : list ascii) (seps : list nat) :
  Forall (eq p) (map fst (map (fun k => (p, k)) seps)).
Proof. induction seps; constructor; auto. Qed.

Lemma flip_bit_differs (i : nat) (p : list ascii) :
  i < length p -> flip_bit i p <> p.
Proof.
  intros Hi E. unfold flip_bit in E.
  rewrite <- (firstn_skipn i p) in E at 3.
  apply app_inv_head in E.
  destruct (skipn i p) as [| c r] eqn:Hs.
  - apply (f_equal (@length ascii)) in Hs. rewrite length_skipn in Hs.
    simpl in Hs. lia.
  - injection E as E. destruct (Ascii.eqb_spec c "0"%char) as [-> | Hc];
      [discriminate | congruence].
Qed.

Lemma corrupted_frames (p q : list ascii) (before after : list nat) (kq : nat) :
  map fst (map (fun k => (p, k)) before ++ (q, kq) :: map (fun k => (p, k)) after)
  = map (fun _ => p) before ++ q :: map (fun _ => p) after.
Proof. rewrite map_app. cbn [map fst]. now rewrite !map_map. Qed.

Lemma constant_frames (p : list ascii) (seps : list nat) :
  Forall (eq p) (map (fun _ => p) seps).
Proof. induction seps; constructor; auto. Qed.

(** C4, as the code has it. On the bit vector of repetitions of a pattern
    where one repetition other than the first has one bit flipped, each
    repetition followed by its idle run and the flipped one still a frame
    (it begins and ends with ['0'] and holds no idle run): the comparison
    with the first frame reports that repetition, the diagnostic aligner
    prints its lines, and then the error that 1 frame differs is raised. *)
Theorem one_flipped_repetition_is_reported
    (p : list ascii) (i : nat) (k0 : nat) (before after : list nat) (kq : nat) :
  framed m p ->
  i < length p ->
  framed m (flip_bit i p) ->
  Forall (fun k => (m <= Z.of_nat k)%Z) (k0 :: before ++ kq :: after) ->
  let segments :=
    map (fun k => (p, k)) (k0 :: before)
    ++ (flip_bit i p, kq) :: map (fun k => (p, k)) after in
  extract_and_verify (capture segments) m =
    Some (["Frames found: " +++ str_nat (length segments);
           "Frame " +++ str_nat (length (k0 :: before)) +++ " differs"]
          ++ debug_print_frame_and_bitvec p (capture segments)
               (segment_positions 0 segments),
          Raise (ValueError "1 frames differ, unreliable capture")).
Proof.
  intros Hp Hi Hq Hseps segments.
  assert (Hsegs : Forall (capture_segment m) segments).
  { change (k0 :: before ++ kq :: after) with ((k0 :: before) ++ kq :: after) in Hseps.
    apply Forall_app in Hseps. destruct Hseps as [Hb Ha].
    inversion Ha as [| x l Hkq Ha']; subst.
    apply Forall_app. split; [now apply tiled_segments_ok |].
    constructor; [split; assumption | now apply tiled_segments_ok]. }
  unfold extract_and_verify.
  rewrite (extract_frames_capture m m_positive segments Hsegs).
  assert (Hfr : map fst segments =
                map (fun _ => p) (k0 :: before)
                ++ flip_bit i p :: map (fun _ => p) after)
    by apply corrupted_frames.
  rewrite Hfr. cbn [map app].
  unfold verify_frames.
  rewrite (verify_loop_one_mismatch p (flip_bit i p) _ _
             (constant_frames p before) (constant_frames p after)
             (flip_bit_differs i p Hi)).
  cbn [Nat.ltb Nat.leb]. rewrite length_map.
  replace (length (p :: map (fun _ => p) before ++ flip_bit i p :: map (fun _ => p) after))
    with (length segments).
  - reflexivity.
  - unfold segments. cbn [length map app]. rewrite !length_app. cbn [length].
    now rewrite !length_map.
Qed.

End Verify.

(** *** Instances *)

Lemma sample_pattern_framed : framed 20 sample_pattern.
Proof. repeat split. Qed.

Lemma one_flipped_repetition_is_reported_witness :
  (1 <= 3)%Z /\
  framed 3 (list_ascii_of_string "01010") /\
  1 < length (list_ascii_of_string "01010") /\
  framed 3 (flip_bit 1 (list_ascii_of_string "01010")) /\
  Forall (fun k => (3 <= Z.of_nat k)%Z) [3; 4; 3; 5] /\
  extract_and_verify
    (capture [(list_ascii_of_string "01010", 3); (list_ascii_of_string "01010", 4);
              (list_ascii_of_string "00010", 3); (list_ascii_of_string "01010", 5)]) 3 =
    Some (["Frames found: 4"; "Frame 2 differs"]
          ++ debug_print_frame_and_bitvec (list_ascii_of_string "01010")
               (capture [(list_ascii_of_string "01010", 3);
                         (list_ascii_of_string "01010", 4);
                         (list_ascii_of_string "00010", 3);
                         (list_ascii_of_string "01010", 5)])
               [(0, 5); (8, 13); (17, 22); (25, 30)],
          Raise (ValueError "1 frames differ, unreliable capture")).
Proof.
  assert (H1 : (1 <= 3)%Z) by lia.
  assert (H2 : framed 3 (list_ascii_of_string "01010")) by (repeat split).
  assert (H3 : 1 < length (list_ascii_of_string "01010")) by (simpl; lia).
  assert (H4 : framed 3 (flip_bit 1 (list_ascii_of_string "01010"))) by (repeat split).
  assert (H5 : Forall (fun k => (3 <= Z.of_nat k)%Z) [3; 4; 3; 5])
    by (repeat constructor; simpl; lia).
  repeat (split; [assumption |]).
  exact (one_flipped_repetition_is_reported 3 H1 (list_ascii_of_string "01010")
           1 3 [4] [5] 3 H2 H3 H4 H5).
Defined.

(** C4, as stated, fails: when the flipped repetition is the first of three,
    the two intact ones are compared with it and both differ, so the error
    raised carries 2 and not 1. *)
Lemma flipped_first_repetition_counts_the_others :
  let p := list_ascii_of_string "01010" in
  extract_and_verify (capture [(flip_bit 1 p, 3); (p, 3); (p, 3)]) 3 =
    Some (["Frames found: 3"; "Frame 1 differs"; "Frame 2 differs"]
          ++ debug_print_frame_and_bitvec (flip_bit 1 p)
               (capture [(flip_bit 1 p, 3); (p, 3); (p, 3)])
               [(0, 5); (8, 13); (16, 21)],
          Raise (ValueError "2 frames differ, unreliable capture")).
Proof. vm_compute. reflexivity. Qed.

(** ** main: the length check and the loop over the traces *)

Section Main.

(** C3. The length check passes a frame of 30 to 34 bits, and raises on any
    other: the error says "too short" when the frame has fewer than 3 bits
    and "too long" otherwise, also for a frame of 3 to 29 bits. *)
Theorem length_check_classifies (frame : list ascii) :
  (30 <= length frame <= 34 -> length_check frame = Ok tt) /\
  (length frame < 3 ->
   length_check frame =
     Raise (ValueError ("Frame too short (" +++ str_nat (length frame)
                        +++ " bits), unreliable capture"))) /\
  (3 <= length frame < 30 \/ 34 < length frame ->
   length_check frame =
     Raise (ValueError ("Frame too long (" +++ str_nat (length frame)
                        +++ " bits), unreliable capture"))).
Proof.
  unfold length_check. repeat split.
  - intros [Hlo Hhi].
    destruct (Nat.ltb_spec (length frame) 30); [lia |].
    destruct (Nat.ltb_spec 34 (length frame)); [lia | reflexivity].
  - intros Hlt.
    destruct (Nat.ltb_spec (length frame) 30); [| lia].
    destruct (Nat.ltb_spec (length frame) 3); [reflexivity | lia].
  - intros Hout.
    destruct (Nat.ltb_spec (length frame) 3); [lia |].
    destruct (Nat.ltb_spec (length frame) 30); [reflexivity |].
    destruct (Nat.ltb_spec 34 (length frame)); [reflexivity | lia].
Qed.

Lemma length_check_classifies_witness :
  (30 <= length sample_pattern <= 34 /\ length_check sample_pattern = Ok tt) /\
  (length (list_ascii_of_string "00") < 3 /\
   length_check (list_ascii_of_string "00") =
     Raise (ValueError "Frame too short (2 bits), unreliable capture")) /\
  ((3 <= length (list_ascii_of_string "00100") < 30
    \/ 34 < length (list_ascii_of_string "00100")) /\
   length_check (list_ascii_of_string "00100") =
     Raise (ValueError "Frame too long (5 bits), unreliable capture")).
Proof.
  assert (H1 : 30 <= length sample_pattern <= 34) by (simpl; lia).
  assert (H2 : length (list_ascii_of_string "00") < 3) by (simpl; lia).
  assert (H3 : 3 <= length (list_ascii_of_string "00100") < 30
               \/ 34 < length (list_ascii_of_string "00100")) by (simpl; lia).
  split; [split; [exact H1 |] | split; [split; [exact H2 |] | split; [exact H3 |]]].
  - exact (proj1 (length_check_classifies sample_pattern) H1).
  - exact (proj1 (proj2 (length_check_classifies (list_ascii_of_string "00"))) H2).
  - exact (proj2 (proj2 (length_check_classifies (list_ascii_of_string "00100"))) H3).
Defined.

(** C2, as the code has it. On the scenario's runs the quantum is the
    shortest low run, 1 ms; the first 25 ms run is taken for the leading idle
    and the first four runs are dropped; each 0.5 ms high run rounds to no
    bit at all and each 25 ms run to 25 ['1'], so the bit vector is five
    times "00" and 25 ['1']; five equal frames "00" are found; and the
    length check raises "too short" for the 2-bit frame. *)
Theorem scenario_decodes_to_five_short_frames :
  estimate_T0 scenario_runs = Ok (1 # 1000) /\
  trim_idle (1 # 1000) scenario_runs = concat (repeat scenario_block 5) /\
  build_bitvector scenario_runs =
    Ok (tiled (list_ascii_of_string "00") [25; 25; 25; 25; 25], 1 # 1000) /\
  extract_and_verify (tiled (list_ascii_of_string "00") [25; 25; 25; 25; 25]) 20 =
    Some (["Frames found: 5"],
          Ok (list_ascii_of_string "00", 5,
              [(0, 2); (27, 29); (54, 56); (81, 83); (108, 110)])) /\
  length_check (list_ascii_of_string "00") =
    Raise (ValueError "Frame too short (2 bits), unreliable capture").
Proof. repeat split; vm_compute; reflexivity. Qed.

(** C2, as stated, fails: the quantum estimated is 1 ms and not 0.5 ms, the
    idle runs are 25 ['1'] long and not 50, and 5 frames of 2 bits are found,
    not 6 frames of 4 bits. *)
Lemma scenario_is_not_six_frames_of_four_bits :
  exists T0 bitvec frame count positions,
    build_bitvector scenario_runs = Ok (bitvec, T0) /\
    extract_and_verify bitvec 20 =
      Some (["Frames found: 5"], Ok (frame, count, positions)) /\
    ~ (T0 == 5 # 10000)%Q /\
    longest_ones bitvec = 25 /\
    count <> 6 /\
    length frame <> 4.
Proof.
  exists (1 # 1000), (tiled (list_ascii_of_string "00") [25; 25; 25; 25; 25]),
    (list_ascii_of_string "00"), 5,
    [(0, 2); (27, 29); (54, 56); (81, 83); (108, 110)].
  repeat split; try (vm_compute; reflexivity); try discriminate.
Qed.

Lemma idle_trace_aborts :
  process_trace initial_state "capture.csv" idle_trace =
    Some (Abort
            {| stdout := [newline +++ "Processing capture.csv...";
                          "Error processing capture.csv: No frames found"];
               trace_errors := [];
               frame_var := None;
               written := [] |}
            (UnboundLocalError
               "cannot access local variable 'frame' where it is not associated with a value")).
Proof. vm_compute. reflexivity. Qed.

(** C5 does not hold of the code. When the first trace has no frame,
    [extract_and_verify] raises before [frame] is ever assigned; the handler
    prints the error and then reads [frame] to record it, which raises
    [UnboundLocalError]: nothing is recorded in [trace_errors], and the run
    stops there whatever traces follow. *)
Theorem first_trace_without_frames_aborts_the_run
    (traces : list (string * list sample)) :
  main (("capture.csv", idle_trace) :: traces) =
    Some (Abort
            {| stdout := [newline +++ "Processing capture.csv...";
                          "Error processing capture.csv: No frames found"];
               trace_errors := [];
               frame_var := None;
               written := [] |}
            (UnboundLocalError
               "cannot access local variable 'frame' where it is not associated with a value")).
Proof.
  unfold main. cbn [process_traces]. now rewrite idle_trace_aborts.
Qed.

Lemma process_trace_returns (st : main_state) (trace : string) (samples : list sample) :
  exists outcome, process_trace st trace samples = Some outcome.
Proof.
  unfold process_trace.
  destruct (read_trace samples) as [[[runs times] levels] | e]; [| eauto].
  destruct (build_bitvector runs) as [[whole_bitvector T0] | e]; [| eauto].
  destruct (extract_and_verify_returns 20 whole_bitvector) as (out & res & ->).
  destruct res as [[[frame count] positions] | []]; eauto.
  destruct (length_check frame) as [? | []]; eauto.
Qed.

(** [main] always returns: it finishes the traces or stops at an exception
    nothing catches. *)
Lemma main_returns (traces : list (string * list sample)) :
  exists outcome, main traces = Some outcome.
Proof.
  unfold main. generalize initial_state.
  induction traces as [| [trace samples] traces IH]; intros st; cbn [process_traces].
  - eauto.
  - destruct (process_trace_returns st trace samples) as ([st' | st' e] & ->); eauto.
Qed.

End Main.

(** * Further properties *)

(** ** read_trace: edges of the input *)

Section ReadTraceEdges.

Lemma combine_fst_snd_id {A B : Type} (l : list (A * B)) :
  combine (map fst l) (map snd l) = l.
Proof.
  induction l as [| [a b] l IH]; [reflexivity |]. simpl. now rewrite IH.
Qed.

Lemma read_trace_cons (s : sample) (rest : list sample) :
  read_trace (s :: rest) =
    Ok (compute_runs (fold_left transition_step rest [s])
                     (last (map fst (s :: rest)) 0%Q),
        map fst (s :: rest), map snd (s :: rest)).
Proof.
  destruct s as [t0 v0]. unfold read_trace. cbn [map fst snd extract_transitions bind].
  now rewrite combine_fst_snd_id.
Qed.

Lemma transitions_length (rest acc : list sample) :
  length (fold_left transition_step rest acc) <= length acc + length rest.
Proof.
  revert acc. induction rest as [| [t v] rest IH]; intros acc; cbn [fold_left length];
    [lia |].
  etransitivity; [apply IH |]. unfold transition_step.
  destruct (negb (v =? snd (last acc (0%Q, 0%Z)))%Z);
    [rewrite length_app; simpl; lia | lia].
Qed.

Lemma transitions_head (s : sample) (rest : list sample) :
  exists trs, fold_left transition_step rest [s] = s :: trs.
Proof.
  destruct (transitions_loop_inv rest [s]) as (Hne & _ & Hhd);
    [discriminate | exact I |].
  destruct (fold_left transition_step rest [s]) as [| x trs]; [congruence |].
  injection Hhd as ->. now exists trs.
Qed.

(** X1. An empty trace raises [IndexError]; a trace with a first sample is
    read into at least one run and at most one run per sample, the first
    run at the level of the first sample. *)
Theorem read_trace_needs_a_sample (s : sample) (rest : list sample) :
  read_trace [] = Raise (IndexError "list index out of range") /\
  exists runs,
    read_trace (s :: rest) =
      Ok (runs, map fst (s :: rest), map snd (s :: rest)) /\
    1 <= length runs <= length (s :: rest) /\
    hd_error (map fst runs) = Some (snd s).
Proof.
  split; [reflexivity |]. rewrite read_trace_cons. eexists. split; [reflexivity |].
  destruct (transitions_head s rest) as [trs Htrs].
  pose proof (transitions_length rest [s]) as Hlen. rewrite Htrs in *.
  rewrite compute_runs_length, compute_runs_levels. cbn [length] in *.
  split; [lia | reflexivity].
Qed.

Lemma constant_level_transitions (s : sample) (rest : list sample) :
  Forall (fun x => snd x = snd s) rest ->
  fold_left transition_step rest [s] = [s].
Proof.
  induction 1 as [| [t v] rest Hv _ IH]; [reflexivity |].
  cbn [fold_left transition_step last]. cbn [snd] in Hv. subst v.
  now rewrite Z.eqb_refl.
Qed.

(** X2. A trace whose level never changes is read into exactly one run, at
    that level, lasting from the first timestamp to the last. *)
Theorem constant_level_trace_is_one_run (s : sample) (rest : list sample) :
  Forall (fun x => snd x = snd s) rest ->
  read_trace (s :: rest) =
    Ok ([(snd s, (last (map fst (s :: rest)) 0 - fst s)%Q)],
        map fst (s :: rest), map snd (s :: rest)).
Proof.
  intros Hconst. rewrite read_trace_cons, constant_level_transitions by exact Hconst.
  now rewrite compute_runs_one.
Qed.

Lemma constant_level_trace_is_one_run_witness :
  Forall (fun x : sample => snd x = snd (0%Q, 1%Z)) [(1%Q, 1%Z); (3%Q, 1%Z)] /\
  read_trace [(0%Q, 1%Z); (1%Q, 1%Z); (3%Q, 1%Z)] =
    Ok ([(1%Z, (3 - 0)%Q)], [0%Q; 1%Q; 3%Q], [1%Z; 1%Z; 1%Z]).
Proof.
  assert (H : Forall (fun x : sample => snd x = snd (0%Q, 1%Z))
                     [(1%Q, 1%Z); (3%Q, 1%Z)]) by (repeat constructor).
  split; [exact H |].
  exact (constant_level_trace_is_one_run (0%Q, 1%Z) [(1%Q, 1%Z); (3%Q, 1%Z)] H).
Defined.

Lemma transition_step_last_level (transitions : list sample) (x : sample) :
  snd (last (transition_step transitions x) (0%Q, 0%Z)) = snd x.
Proof.
  destruct x as [t v]. unfold transition_step.
  destruct (Z.eqb_spec v (snd (last transitions (0%Q, 0%Z)))) as [-> | Hne]; simpl.
  - reflexivity.
  - now rewrite last_last.
Qed.

Lemma transitions_last_level (s : sample) (rest : list sample) :
  snd (last (fold_left transition_step rest [s]) (0%Q, 0%Z))
  = snd (last (s :: rest) (0%Q, 0%Z)).
Proof.
  induction rest as [| x rest _] using rev_ind; [reflexivity |].
  rewrite fold_left_app. cbn [fold_left]. rewrite transition_step_last_level.
  change (s :: rest ++ [x]) with ((s :: rest) ++ [x]). now rewrite last_last.
Qed.

Lemma trailing_edge_runs
    (s : sample) (rest : list sample) (t_last : Q) (v_last : Z) :
  v_last <> snd (last (s :: rest) (0%Q, 0%Z)) ->
  exists runs,
    runs <> [] /\
    read_trace ((s :: rest) ++ [(t_last, v_last)]) =
      Ok (runs ++ [(v_last, (t_last - t_last)%Q)],
          map fst ((s :: rest) ++ [(t_last, v_last)]),
          map snd ((s :: rest) ++ [(t_last, v_last)])).
Proof.
  intros Hedge. change ((s :: rest) ++ [(t_last, v_last)])
    with (s :: (rest ++ [(t_last, v_last)])).
  rewrite read_trace_cons, fold_left_app. cbn [fold_left].
  unfold transition_step at 1. rewrite transitions_last_level.
  destruct (Z.eqb_spec v_last (snd (last (s :: rest) (0%Q, 0%Z)))) as [E | _];
    [contradiction |].
  cbn [negb]. unfold compute_runs. rewrite last_last.
  change (s :: rest ++ [(t_last, v_last)]) with ((s :: rest) ++ [(t_last, v_last)]).
  replace (last (map fst ((s :: rest) ++ [(t_last, v_last)])) 0%Q) with t_last
    by (rewrite map_app; cbn [map fst]; now rewrite last_last).
  eexists. split; [| reflexivity].
  rewrite run_loop_snoc. cbn [app]. rewrite length_app. cbn [length].
  destruct (transitions_head s rest) as [trs ->]. cbn [length].
  replace (S (length trs) + 1 - 1) with (S (length trs)) by lia.
  discriminate.
Qed.

(** X3. When the last sample of a trace changes the level, it opens a run
    that nothing closes: after the runs before it, the last run read has
    that level and a duration of zero. *)
Theorem trailing_edge_gives_empty_run
    (s : sample) (rest : list sample) (t_last : Q) (v_last : Z) :
  v_last <> snd (last (s :: rest) (0%Q, 0%Z)) ->
  exists runs,
    runs <> [] /\
    read_trace ((s :: rest) ++ [(t_last, v_last)]) =
      Ok (runs ++ [(v_last, (t_last - t_last)%Q)],
          map fst ((s :: rest) ++ [(t_last, v_last)]),
          map snd ((s :: rest) ++ [(t_last, v_last)])).
Proof. apply trailing_edge_runs. Qed.

Lemma trailing_edge_gives_empty_run_witness :
  0%Z <> snd (last [(0%Q, 0%Z); (1%Q, 1%Z)] (0%Q, 0%Z)) /\
  exists runs,
    runs <> [] /\
    read_trace ([(0%Q, 0%Z); (1%Q, 1%Z)] ++ [(2%Q, 0%Z)]) =
      Ok (runs ++ [(0%Z, (2 - 2)%Q)],
          map fst ([(0%Q, 0%Z); (1%Q, 1%Z)] ++ [(2%Q, 0%Z)]),
          map snd ([(0%Q, 0%Z); (1%Q, 1%Z)] ++ [(2%Q, 0%Z)])).
Proof.
  assert (H : 0%Z <> snd (last [(0%Q, 0%Z); (1%Q, 1%Z)] (0%Q, 0%Z)))
    by (simpl; lia).
  split; [exact H |].
  exact (trailing_edge_gives_empty_run (0%Q, 0%Z) [(1%Q, 1%Z)] 2%Q 0%Z H).
Defined.

Lemma strongly_sorted_remove (a b : list Q) (x : Q) :
  StronglySorted Qle (a ++ x :: b) -> StronglySorted Qle (a ++ b).
Proof.
  induction a as [| y a IH]; intros H; cbn [app] in *.
  - now inversion H.
  - inversion H as [| ? ? Hs Hf]; subst. constructor; [now apply IH |].
    apply Forall_app in Hf. destruct Hf as [Hf1 Hf2].
    apply Forall_app. split; [exact Hf1 | now inversion Hf2].
Qed.

Lemma transitions_sorted (rest acc : list sample) (tail : list Q) :
  StronglySorted Qle (map fst acc ++ map fst rest ++ tail) ->
  StronglySorted Qle (map fst (fold_left transition_step rest acc) ++ tail).
Proof.
  revert acc. induction rest as [| [t v] rest IH]; intros acc H; [exact H |].
  cbn [fold_left]. apply IH. unfold transition_step.
  destruct (negb (v =? snd (last acc (0%Q, 0%Z)))%Z).
  - rewrite map_app, <- app_assoc. exact H.
  - cbn [map fst app] in H. now apply strongly_sorted_remove in H.
Qed.

Lemma last_In {A : Type} (l : list A) (d : A) : l <> [] -> In (last l d) l.
Proof.
  induction l as [| a [| b l] IH]; intros Hne; [congruence | now left |].
  right. apply IH. discriminate.
Qed.

Lemma strongly_sorted_with_last (l : list Q) (d : Q) :
  l <> [] -> StronglySorted Qle l -> StronglySorted Qle (l ++ [last l d]).
Proof.
  induction l as [| a l IH]; intros Hne Hs; [congruence |].
  inversion Hs as [| ? ? Hs' Hf]; subst.
  destruct l as [| b l].
  - cbn [app last]. repeat constructor. apply Qle_refl.
  - change ((a :: b :: l) ++ [last (a :: b :: l) d])
      with (a :: ((b :: l) ++ [last (b :: l) d])).
    constructor; [apply IH; [discriminate | exact Hs'] |].
    apply Forall_app. split; [exact Hf |]. constructor; [| constructor].
    rewrite Forall_forall in Hf. apply Hf. apply last_In. discriminate.
Qed.

Lemma compute_runs_nonneg (tr : sample) (trs : list sample) (t_end : Q) :
  StronglySorted Qle (map fst (tr :: trs) ++ [t_end]) ->
  Forall (fun r : run => (0 <= snd r)%Q) (compute_runs (tr :: trs) t_end).
Proof.
  revert tr. induction trs as [| b trs IH]; intros tr Hs;
    inversion Hs as [| ? ? Hs' Hf]; subst.
  - rewrite compute_runs_one. constructor; [| constructor]. cbn [snd].
    inversion Hf; subst. unfold Qminus. now apply -> Qle_minus_iff.
  - rewrite compute_runs_cons. constructor; [| now apply IH]. cbn [snd].
    inversion Hf; subst. unfold Qminus. now apply -> Qle_minus_iff.
Qed.

Lemma sorted_trace_runs (s : sample) (rest : list sample) :
  Sorted Qle (map fst (s :: rest)) ->
  Forall (fun r : run => (0 <= snd r)%Q)
         (compute_runs (fold_left transition_step rest [s])
                       (last (map fst (s :: rest)) 0%Q)).
Proof.
  intros Hs. apply Sorted_StronglySorted in Hs; [| exact Qle_trans].
  apply (strongly_sorted_with_last _ 0%Q) in Hs; [| discriminate].
  destruct (transitions_head s rest) as [trs Htrs].
  pose proof (transitions_sorted rest [s] [last (map fst (s :: rest)) 0%Q]) as H.
  rewrite Htrs in *. apply compute_runs_nonneg. apply H.
  cbn [map app] in Hs |- *. exact Hs.
Qed.

(** X4. When the timestamps of a trace never decrease, no run read from it
    has a negative duration. *)
Theorem sorted_trace_has_nonnegative_runs (s : sample) (rest : list sample) :
  Sorted Qle (map fst (s :: rest)) ->
  exists runs,
    read_trace (s :: rest) =
      Ok (runs, map fst (s :: rest), map snd (s :: rest)) /\
    Forall (fun r : run => (0 <= snd r)%Q) runs.
Proof.
  intros Hs. rewrite read_trace_cons. eexists. split; [reflexivity |].
  now apply sorted_trace_runs.
Qed.

Lemma sorted_trace_has_nonnegative_runs_witness :
  Sorted Qle (map fst [(0%Q, 1%Z); (1 # 2, 0%Z); (3%Q, 1%Z)]) /\
  exists runs,
    read_trace [(0%Q, 1%Z); (1 # 2, 0%Z); (3%Q, 1%Z)] =
      Ok (runs, map fst [(0%Q, 1%Z); (1 # 2, 0%Z); (3%Q, 1%Z)],
          map snd [(0%Q, 1%Z); (1 # 2, 0%Z); (3%Q, 1%Z)]) /\
    Forall (fun r : run => (0 <= snd r)%Q) runs.
Proof.
  assert (H : Sorted Qle (map fst [(0%Q, 1%Z); (1 # 2, 0%Z); (3%Q, 1%Z)]))
    by (repeat constructor; unfold Qle; simpl; lia).
  split; [exact H |].
  exact (sorted_trace_has_nonnegative_runs (0%Q, 1%Z) [(1 # 2, 0%Z); (3%Q, 1%Z)] H).
Defined.

End ReadTraceEdges.

(** ** build_bitvector: quantum, trim and expansion *)

Section BuildBitvectorEdges.

Lemma expand_loop_raise (T0 : Q) (runs : list run) (e : exn) :
  fold_left (expand_step T0) runs (Raise e) = Raise e.
Proof. induction runs as [| r runs IH]; [reflexivity | exact IH]. Qed.

Lemma estimate_T0_low (runs : list run) (d : Q) :
  In (0%Z, d) runs ->
  exists T0, estimate_T0 runs = Ok T0 /\ In (0%Z, T0) runs /\
             forall d', In (0%Z, d') runs -> (T0 <= d')%Q.
Proof.
  intros Hd. unfold estimate_T0. apply in_low_durations in Hd.
  destruct (low_durations runs) as [| l lows] eqn:Hlow; [destruct Hd |].
  destruct (py_min_spec l lows) as (m & Hm & Hin & Hall).
  rewrite <- Hlow in Hin, Hall. exists m. split; [exact Hm | split].
  - now apply in_low_durations.
  - intros d' Hd'. apply Hall. now apply in_low_durations.
Qed.

Lemma zero_quantum_raises (runs : list run) (d : Q) :
  Forall (fun r : run => (0 <= snd r)%Q) runs ->
  In (0%Z, d) runs -> (d == 0)%Q ->
  2 <= length runs ->
  build_bitvector runs = Raise (ZeroDivisionError "float division by zero").
Proof.
  intros Hpos Hd Hd0 Hlen.
  destruct (estimate_T0_low runs d Hd) as (T0 & HT0 & Hin & Hmin).
  assert (Hz : (T0 == 0)%Q).
  { apply Qle_antisym.
    - rewrite <- Hd0. now apply Hmin.
    - rewrite Forall_forall in Hpos. apply (Hpos (0%Z, T0) Hin). }
  unfold build_bitvector. rewrite HT0. cbn [bind].
  destruct runs as [| [v0 d0] [| [v1 d1] runs]]; [simpl in Hlen; lia .. |].
  unfold trim_idle. cbn [first_idle].
  assert (Hidle : Qle_bool (20 * T0) d0 = true).
  { apply Qle_bool_iff. rewrite Hz. inversion Hpos; subst.
    assert (E : (20 * 0 == 0)%Q) by reflexivity. rewrite E. assumption. }
  rewrite Hidle. cbn [skipn Nat.add]. unfold expand_runs. cbn [fold_left].
  unfold expand_step at 2. cbn [bind]. unfold py_div.
  assert (Hq : Qeq_bool T0 0 = true) by now apply Qeq_bool_iff.
  rewrite Hq. cbn [bind]. now rewrite expand_loop_raise.
Qed.

(** X5. When a run at level 0 has a duration of zero, no duration is
    negative and there are two runs or more, the quantum is zero: the first
    run is trimmed as the leading idle and the expansion of the next one
    raises [ZeroDivisionError]. *)
Theorem zero_length_low_run_divides_by_zero (runs : list run) (d : Q) :
  Forall (fun r : run => (0 <= snd r)%Q) runs ->
  In (0%Z, d) runs -> (d == 0)%Q ->
  2 <= length runs ->
  build_bitvector runs = Raise (ZeroDivisionError "float division by zero").
Proof. apply zero_quantum_raises. Qed.

Lemma zero_length_low_run_divides_by_zero_witness :
  Forall (fun r : run => (0 <= snd r)%Q) [(1%Z, 2%Q); (0%Z, (3 - 3)%Q)] /\
  In (0%Z, (3 - 3)%Q) [(1%Z, 2%Q); (0%Z, (3 - 3)%Q)] /\
  (3 - 3 == 0)%Q /\
  2 <= length [(1%Z, 2%Q); (0%Z, (3 - 3)%Q)] /\
  build_bitvector [(1%Z, 2%Q); (0%Z, (3 - 3)%Q)] =
    Raise (ZeroDivisionError "float division by zero").
Proof.
  assert (H1 : Forall (fun r : run => (0 <= snd r)%Q) [(1%Z, 2%Q); (0%Z, (3 - 3)%Q)])
    by (repeat constructor; unfold Qle; simpl; lia).
  assert (H2 : In (0%Z, (3 - 3)%Q) [(1%Z, 2%Q); (0%Z, (3 - 3)%Q)])
    by (right; left; reflexivity).
  assert (H3 : (3 - 3 == 0)%Q) by reflexivity.
  assert (H4 : 2 <= length [(1%Z, 2%Q); (0%Z, (3 - 3)%Q)]) by (simpl; lia).
  repeat (split; [assumption |]).
  exact (zero_length_low_run_divides_by_zero _ _ H1 H2 H3 H4).
Defined.

Lemma expand_loop_levels (T0 : Q) (runs : list run) :
  forall acc bits,
  fold_left (expand_step T0) runs (Ok acc) = Ok bits ->
  forall b, In b bits -> In b acc \/ In b (map fst runs).
Proof.
  induction runs as [| [v d] runs IH]; intros acc bits H b Hb.
  - injection H as <-. now left.
  - cbn [fold_left] in H. unfold expand_step at 2 in H. cbn [bind] in H.
    destruct (py_div d T0) as [q | e]; cbn [bind] in H.
    + destruct (IH _ _ H b Hb) as [Hacc | Hrest].
      * apply in_app_or in Hacc. destruct Hacc as [Hacc | Hrep]; [now left |].
        apply repeat_spec in Hrep. subst b. right. now left.
      * right. now right.
    + rewrite expand_loop_raise in H. discriminate.
Qed.

Lemma join_bits_binary (bits : list Z) :
  Forall (fun b => b = 0%Z \/ b = 1%Z) bits -> is_bitvector (join_bits bits).
Proof.
  unfold is_bitvector. induction 1 as [| b bits Hb _ IH]; [reflexivity |].
  change (b :: bits) with ([b] ++ bits). rewrite join_bits_app, forallb_app, IH.
  destruct Hb as [-> | ->]; reflexivity.
Qed.

(** X7. Whenever the builder returns, on runs at levels 0 and 1, what it
    returns is a string of ['0'] and ['1'] only. *)
Theorem built_bitvector_is_binary (runs : list run) (bitvec : list ascii) (T0 : Q) :
  (forall v d, In (v, d) runs -> v = 0%Z \/ v = 1%Z) ->
  build_bitvector runs = Ok (bitvec, T0) ->
  is_bitvector bitvec.
Proof.
  intros Hbin. unfold build_bitvector.
  destruct (estimate_T0 runs) as [T | e]; [| discriminate]. cbn [bind].
  destruct (expand_runs T (trim_idle T runs)) as [bits | e] eqn:Hx; [| discriminate].
  cbn [bind]. intros [= <- <-]. apply join_bits_binary.
  rewrite Forall_forall. intros b Hb.
  destruct (expand_loop_levels T _ _ _ Hx b Hb) as [[] | Hin].
  apply in_map_iff in Hin. destruct Hin as ([v d] & <- & Hin).
  apply trim_idle_incl in Hin. apply (Hbin v d Hin).
Qed.

Lemma built_bitvector_is_binary_witness :
  (forall v d, In (v, d) scenario_runs -> v = 0%Z \/ v = 1%Z) /\
  build_bitvector scenario_runs =
    Ok (tiled (list_ascii_of_string "00") [25; 25; 25; 25; 25], 1 # 1000) /\
  is_bitvector (tiled (list_ascii_of_string "00") [25; 25; 25; 25; 25]).
Proof.
  assert (H1 : forall v d, In (v, d) scenario_runs -> v = 0%Z \/ v = 1%Z).
  { intros v d H. vm_compute in H.
    repeat (destruct H as [H | H]; [injection H as <- _; auto |]). destruct H. }
  assert (H2 : build_bitvector scenario_runs =
               Ok (tiled (list_ascii_of_string "00") [25; 25; 25; 25; 25], 1 # 1000))
    by (vm_compute; reflexivity).
  split; [exact H1 |]. split; [exact H2 |].
  exact (built_bitvector_is_binary scenario_runs _ _ H1 H2).
Defined.

Lemma py_round_integer (q : Q) (n : Z) : (q == inject_Z n)%Q -> py_round q = n.
Proof.
  intros Hq. unfold py_round.
  assert (Hf : Qfloor q = n) by (rewrite Hq; apply Qfloor_Z).
  rewrite Hf.
  assert (Hz : (q - inject_Z n == 0)%Q).
  { rewrite Hq. unfold Qminus. apply Qplus_opp_r. }
  destruct (Qcompare_spec (q - inject_Z n) (1 # 2)) as [E | _ | G];
    [| reflexivity |]; rewrite Hz in *; discriminate.
Qed.

Lemma after_first_idle_incl (counts rest : list (Z * nat)) (x : Z * nat) :
  after_first_idle counts = Some rest -> In x rest -> In x counts.
Proof.
  revert rest. induction counts as [| [v c] counts IH]; intros rest; cbn [after_first_idle];
    [discriminate |].
  destruct (20 <=? c).
  - intros [= ->] Hx. now right.
  - intros H Hx. right. eapply IH; eassumption.
Qed.

Lemma kept_counts_incl (counts : list (Z * nat)) (x : Z * nat) :
  In x (kept_counts counts) -> In x counts.
Proof.
  unfold kept_counts. destruct (after_first_idle counts) as [rest |] eqn:E; [| auto].
  now apply after_first_idle_incl.
Qed.

End BuildBitvectorEdges.

(** ** extract_and_verify: what the comparison counts *)

Section VerifyCounts.

Lemma verify_loop_counts (first : list ascii) (others : list (list ascii)) :
  forall (s : nat) (out : list string) (errors : nat),
  snd (fold_left (verify_step first) (combine (seq s (length others)) others)
                 (out, errors))
  = errors + mismatches first others.
Proof.
  unfold mismatches. induction others as [| f others IH]; intros s out errors.
  - cbn. lia.
  - cbn [length seq combine fold_left verify_step filter].
    destruct (str_eqb f first); cbn [negb]; rewrite IH; cbn [length]; lia.
Qed.

Lemma mismatches_zero (first : list ascii) (others : list (list ascii)) :
  mismatches first others = 0 <-> Forall (eq first) others.
Proof.
  unfold mismatches. induction others as [| f others IH]; cbn [filter].
  - split; [constructor | reflexivity].
  - unfold str_eqb at 1. destruct (list_eq_dec ascii_dec f first) as [-> | Hne];
      cbn [negb].
    + rewrite IH. split; [now constructor | now inversion 1].
    + split; [discriminate |]. inversion 1; congruence.
Qed.

Lemma verification_counts_and_result
    (bitvec first : list ascii) (others : list (list ascii))
    (positions : list (nat * nat)) :
  snd (verify_frames bitvec (first :: others) positions) =
    if mismatches first others =? 0
    then Ok (first, S (length others), positions)
    else Raise (ValueError (str_nat (mismatches first others)
                            +++ " frames differ, unreliable capture")).
Proof.
  unfold verify_frames.
  pose proof (verify_loop_counts first others 1
                ["Frames found: " +++ str_nat (length (first :: others))] 0) as H.
  destruct (fold_left (verify_step first) (combine (seq 1 (length others)) others)
                      (["Frames found: " +++ str_nat (length (first :: others))], 0))
    as [out errors].
  cbn [snd] in H. rewrite Nat.add_0_l in H. subst errors.
  destruct (mismatches first others) as [| d]; cbn [Nat.ltb Nat.leb Nat.eqb snd].
  - now rewrite Nat.sub_0_r.
  - reflexivity.
Qed.

(** X9. The comparison counts the frames after the first that differ from
    it. When none does it returns the first frame, the number of frames found
    and the positions; otherwise it raises the error carrying that count. *)
Theorem verification_counts_frames_differing_from_first
    (bitvec first : list ascii) (others : list (list ascii))
    (positions : list (nat * nat)) :
  snd (verify_frames bitvec (first :: others) positions) =
    if mismatches first others =? 0
    then Ok (first, S (length others), positions)
    else Raise (ValueError (str_nat (mismatches first others)
                            +++ " frames differ, unreliable capture")).
Proof. apply verification_counts_and_result. Qed.

End VerifyCounts.

(** ** extract_and_verify: the positions returned *)

Section Positions.

Variable m : Z.
Hypothesis m_positive : (1 <= m)%Z.

Lemma extract_frames_delimited (bitvec : list ascii) :
  exists frames positions,
    extract_frames bitvec m = Some (frames, positions) /\
    Forall2 (delimited bitvec m) frames positions.
Proof.
  unfold extract_frames.
  destruct (scan_loop_spec m (length bitvec + 3) m_positive bitvec [] bitvec [] []
              eq_refl) as (nf & np & HS & HD); [lia |].
  exists nf, np. split; assumption.
Qed.

Lemma delimited_slice (bitvec fr : list ascii) (pos : nat * nat) :
  delimited bitvec m fr pos ->
  slice bitvec (fst pos) (snd pos) = fr /\ fst pos < snd pos <= length bitvec.
Proof.
  intros (pre & k & rest & Hbv & -> & _ & _ & Hhd & _). cbn [fst snd].
  split; [rewrite Hbv; apply slice_app |].
  rewrite Hbv, !length_app. destruct fr; [discriminate |]. cbn [length]. lia.
Qed.

(** X10. When extraction and verification succeed, the count returned is
    the number of positions returned, it is at least 1, and the frame
    returned is what the bit vector holds at every one of the positions. *)
Theorem accepted_frame_is_at_every_position
    (bitvec : list ascii) (out : list string)
    (frame : list ascii) (count : nat) (positions : list (nat * nat)) :
  extract_and_verify bitvec m = Some (out, Ok (frame, count, positions)) ->
  count = length positions /\ 1 <= count /\
  Forall (fun pos => slice bitvec (fst pos) (snd pos) = frame /\
                     fst pos < snd pos <= length bitvec) positions.
Proof.
  unfold extract_and_verify.
  destruct (extract_frames_delimited bitvec) as (frames & ps & -> & HD).
  intros [= Hv]. destruct frames as [| first others]; [discriminate |].
  pose proof (verification_counts_and_result bitvec first others ps) as Hres.
  rewrite Hv in Hres. cbn [snd] in Hres.
  destruct (mismatches first others =? 0) eqn:Hz; [| discriminate].
  injection Hres as -> -> ->. apply Nat.eqb_eq, mismatches_zero in Hz.
  pose proof (Forall2_length HD) as Hlen. cbn [length] in Hlen.
  split; [exact Hlen | split; [lia |]].
  assert (Hall : Forall (eq first) (first :: others)) by now constructor.
  clear Hv Hlen Hz. revert HD Hall. generalize (first :: others).
  intros frames HD. induction HD as [| fr pos frames ps Hd _ IH]; intros Hall;
    constructor.
  - inversion Hall; subst. now apply delimited_slice.
  - apply IH. now inversion Hall.
Qed.

Lemma separated_from_le (i j : nat) (positions : list (nat * nat)) :
  i <= j -> separated_from m j positions -> separated_from m i positions.
Proof.
  destruct positions as [| [s e] positions]; cbn [separated_from]; [auto |].
  intros Hij (H1 & H2 & H3). repeat split; auto. lia.
Qed.

Lemma scan_loop_separated (f : nat) :
  forall (bitvec seen rest : list ascii) frames positions,
  bitvec = seen ++ rest ->
  length rest + 3 <= f ->
  exists nf np,
    scan_loop f bitvec m (length seen) frames positions =
      Some (frames ++ nf, positions ++ np) /\
    separated_from m (length seen) np.
Proof.
  induction f as [| f IH]; intros bitvec seen rest frames positions Hbv Hf; [lia |].
  cbn [scan_loop]. destruct rest as [| c rest'].
  - exists [], []. split; [| exact I].
    replace (length seen <? length bitvec) with false
      by (subst bitvec; symmetry; apply index_at_end).
    now rewrite !app_nil_r.
  - replace (length seen <? length bitvec) with true
      by (subst bitvec; symmetry; apply index_in_range).
    replace (char_at bitvec (length seen)) with c
      by (subst bitvec; symmetry; apply char_at_app).
    cbn [length] in Hf.
    destruct (Ascii.eqb_spec c "0"%char) as [Hc | Hc].
    + destruct (frame_loop_spec m f seen [] (c :: rest') (length seen))
        as [(w2 & k & rest2 & E & HF & Hk & Hmk & _ & _ & _) | HF];
        [cbn [length]; lia | simpl; lia | now (right; left) | |];
        rewrite <- Hbv in HF; rewrite HF.
      * assert (Hlen : length (c :: rest') = length w2 + k + length rest2).
        { rewrite E, !length_app, length_idle. lia. }
        cbn [length] in Hlen.
        assert (Hw2 : 1 <= length w2).
        { destruct w2 as [| d w2]; [| cbn [length]; lia].
          destruct k as [| k]; [lia |]. simpl in E. injection E as E _.
          subst c. discriminate. }
        assert (Hbv2 : bitvec = (seen ++ w2 ++ idle k) ++ rest2).
        { rewrite Hbv, E, <- !app_assoc. reflexivity. }
        assert (Hi : length (seen ++ w2 ++ idle k) = length seen + length w2 + k)
          by (rewrite !length_app, length_idle; lia).
        rewrite <- Hi.
        destruct (IH bitvec (seen ++ w2 ++ idle k) rest2
                     (frames ++ [slice bitvec (length seen) (length seen + length w2)])
                     (positions ++ [(length seen, length seen + length w2)]) Hbv2)
          as (nf & np & HS & Hsep); [lia |].
        exists (slice bitvec (length seen) (length seen + length w2) :: nf),
          ((length seen, length seen + length w2) :: np).
        split; [rewrite HS, <- !app_assoc; reflexivity |].
        cbn [separated_from]. repeat split; [lia | lia |].
        apply (separated_from_le _ (length (seen ++ w2 ++ idle k))); [lia | exact Hsep].
      * assert (Hbv2 : bitvec = bitvec ++ []) by now rewrite app_nil_r.
        destruct (IH bitvec bitvec [] frames positions Hbv2) as (nf & np & HS & Hsep);
          [simpl; lia |].
        exists nf, np. split; [exact HS |].
        apply (separated_from_le _ (length bitvec)); [| exact Hsep].
        rewrite Hbv, length_app. lia.
    + assert (Hbv2 : bitvec = (seen ++ [c]) ++ rest') by now rewrite <- app_assoc.
      rewrite (length_snoc seen c).
      destruct (IH bitvec (seen ++ [c]) rest' frames positions Hbv2)
        as (nf & np & HS & Hsep); [lia |].
      exists nf, np. split; [exact HS |].
      apply (separated_from_le _ (length (seen ++ [c]))); [| exact Hsep].
      rewrite length_app. lia.
Qed.

(** X11. The positions of the frames extracted are in increasing order,
    each a non-empty interval, and from the end of a frame to the start of
    the next there are [min_idle] bits or more. *)
Theorem extracted_positions_are_separated
    (bitvec : list ascii) (frames : list (list ascii)) (positions : list (nat * nat)) :
  extract_frames bitvec m = Some (frames, positions) ->
  separated_from m 0 positions.
Proof.
  unfold extract_frames. intros H.
  destruct (scan_loop_separated (length bitvec + 3) bitvec [] bitvec [] [] eq_refl)
    as (nf & np & HS & Hsep); [lia |].
  change (@length ascii []) with 0 in HS, Hsep. rewrite HS in H.
  injection H as _ <-. exact Hsep.
Qed.

End Positions.

Lemma extracted_positions_are_separated_witness :
  (1 <= 3)%Z /\
  extract_frames (list_ascii_of_string "1101011111001011101111") 3 =
    Some ([list_ascii_of_string "010"; list_ascii_of_string "0010";
           list_ascii_of_string "0"],
          [(2, 5); (10, 14); (17, 18)]) /\
  separated_from 3 0 [(2, 5); (10, 14); (17, 18)].
Proof.
  assert (H1 : (1 <= 3)%Z) by lia.
  assert (H2 : extract_frames (list_ascii_of_string "1101011111001011101111") 3 =
               Some ([list_ascii_of_string "010"; list_ascii_of_string "0010";
                      list_ascii_of_string "0"],
                     [(2, 5); (10, 14); (17, 18)])) by reflexivity.
  split; [exact H1 |]. split; [exact H2 |].
  exact (extracted_positions_are_separated 3 H1 _ _ _ H2).
Defined.

Lemma accepted_frame_is_at_every_position_witness :
  (1 <= 20)%Z /\
  extract_and_verify (tiled (list_ascii_of_string "00") [25; 25; 25; 25; 25]) 20 =
    Some (["Frames found: 5"],
          Ok (list_ascii_of_string "00", 5,
              [(0, 2); (27, 29); (54, 56); (81, 83); (108, 110)])) /\
  5 = length [(0, 2); (27, 29); (54, 56); (81, 83); (108, 110)] /\ 1 <= 5 /\
  Forall (fun pos =>
            slice (tiled (list_ascii_of_string "00") [25; 25; 25; 25; 25])
                  (fst pos) (snd pos) = list_ascii_of_string "00" /\
            fst pos < snd pos <=
              length (tiled (list_ascii_of_string "00") [25; 25; 25; 25; 25]))
         [(0, 2); (27, 29); (54, 56); (81, 83); (108, 110)].
Proof.
  assert (H1 : (1 <= 20)%Z) by lia.
  assert (H2 : extract_and_verify
                 (tiled (list_ascii_of_string "00") [25; 25; 25; 25; 25]) 20 =
               Some (["Frames found: 5"],
                     Ok (list_ascii_of_string "00", 5,
                         [(0, 2); (27, 29); (54, 56); (81, 83); (108, 110)])))
    by (vm_compute; reflexivity).
  split; [exact H1 |]. split; [exact H2 |].
  exact (accepted_frame_is_at_every_position 20 H1 _ _ _ _ _ H2).
Defined.

(** ** extract_and_verify: when no frame is found *)

Section NoFrames.

Variable m : Z.
Hypothesis m_positive : (1 <= m)%Z.

(** When the loop over an open frame reads the text to its end, what the
    frame holds with the text has no idle run. *)
Lemma frame_loop_exhausts (f : nat) :
  forall (seen w rest : list ascii) (start i' : nat),
  length rest + 2 <= f ->
  (Z.of_nat (longest_ones w) < m)%Z ->
  leading_ones rest = 0 \/ w = [] \/ last w "1"%char <> "1"%char ->
  frame_loop f (seen ++ rest) m start (length seen) = Some (i', None) ->
  (Z.of_nat (longest_ones (w ++ rest)) < m)%Z.
Proof.
  induction f as [| f IH]; intros seen w rest start i' Hf Hw Hb; [lia |].
  destruct rest as [| c rest'].
  - intros _. now rewrite app_nil_r.
  - cbn [frame_loop]. rewrite index_in_range, char_at_app.
    destruct (Ascii.eqb_spec c "1"%char) as [Hc | Hc].
    + remember (c :: rest') as rest eqn:Hrest.
      destruct (leading_ones_split rest) as [Hsplit Hrest2].
      remember (leading_ones rest) as k eqn:Hk.
      remember (skipn k rest) as rest2 eqn:Hr2.
      assert (Hk1 : 1 <= k) by (subst k rest c; simpl; lia).
      assert (Hlen : length rest = k + length rest2).
      { rewrite Hsplit at 1. now rewrite length_app, length_idle. }
      rewrite ones_loop_total by lia. rewrite <- Hk.
      replace (length seen + k - length seen) with k by lia.
      destruct (Z.leb_spec m (Z.of_nat k)) as [Hmk | Hmk]; [discriminate |].
      assert (Hw' : w = [] \/ last w "1"%char <> "1"%char).
      { destruct Hb as [Hb | Hb]; [lia | exact Hb]. }
      intros H.
      replace (seen ++ rest) with ((seen ++ idle k) ++ rest2) in H
        by (rewrite <- app_assoc, <- Hsplit; reflexivity).
      replace (length seen + k) with (length (seen ++ idle k)) in H
        by (now rewrite length_app, length_idle).
      apply (IH _ (w ++ idle k)) in H.
      * rewrite <- app_assoc, <- Hsplit in H. exact H.
      * lia.
      * rewrite longest_ones_app_idle by exact Hw'. lia.
      * now left.
    + intros H. rewrite (snoc_app seen rest' c), (length_snoc seen c) in H.
      apply (IH _ (w ++ [c])) in H.
      * rewrite <- app_assoc in H. exact H.
      * simpl in Hf. lia.
      * now rewrite longest_ones_snoc.
      * right. right. now rewrite last_last.
Qed.

Lemma scan_loop_none (f : nat) :
  forall (bitvec seen rest : list ascii) frames positions frames' positions',
  bitvec = seen ++ rest ->
  length rest + 3 <= f ->
  scan_loop f bitvec m (length seen) frames positions = Some (frames', positions') ->
  length frames' = length frames ->
  (Z.of_nat (longest_ones (from_first_zero rest)) < m)%Z.
Proof.
  induction f as [| f IH];
    intros bitvec seen rest frames positions frames' positions' Hbv Hf; [lia |].
  cbn [scan_loop]. destruct rest as [| c rest']; [intros _ _; simpl; lia |].
  replace (length seen <? length bitvec) with true
    by (subst bitvec; symmetry; apply index_in_range).
  replace (char_at bitvec (length seen)) with c
    by (subst bitvec; symmetry; apply char_at_app).
  cbn [length] in Hf. cbn [from_first_zero].
  destruct (Ascii.eqb_spec c "0"%char) as [Hc | Hc].
  - destruct (frame_loop_spec m f seen [] (c :: rest') (length seen))
      as [(w2 & k & rest2 & E & HF & Hk & _) | HF];
      [cbn [length]; lia | simpl; lia | now (right; left) | |];
      rewrite <- Hbv in HF; rewrite HF.
    + intros H Hlen. exfalso.
      assert (Hlen2 : length (c :: rest') = length w2 + k + length rest2).
      { rewrite E, !length_app, length_idle. lia. }
      cbn [length] in Hlen2.
      assert (Hbv2 : bitvec = (seen ++ w2 ++ idle k) ++ rest2).
      { rewrite Hbv, E, <- !app_assoc. reflexivity. }
      replace (length seen + length w2 + k) with (length (seen ++ w2 ++ idle k)) in H
        by (rewrite !length_app, length_idle; lia).
      destruct (scan_loop_spec m f m_positive bitvec (seen ++ w2 ++ idle k) rest2
                  (frames ++ [slice bitvec (length seen) (length seen + length w2)])
                  (positions ++ [(length seen, length seen + length w2)]) Hbv2)
        as (nf & np & HS & _); [lia |].
      rewrite HS in H. injection H as <- _.
      rewrite !length_app in Hlen. cbn [length] in Hlen. lia.
    + intros _ _. rewrite Hbv in HF.
      eapply (frame_loop_exhausts f seen [] (c :: rest'));
        [cbn [length]; lia | simpl; lia | now (right; left) | exact HF].
  - intros H Hlen.
    apply (IH bitvec (seen ++ [c]) rest' frames positions frames' positions');
      [now rewrite <- app_assoc | lia | | exact Hlen].
    rewrite <- length_snoc. exact H.
Qed.

Lemma from_first_zero_suffix (pre x : list ascii) :
  exists pre', from_first_zero (pre ++ "0"%char :: x) = pre' ++ "0"%char :: x.
Proof.
  induction pre as [| c pre [pre' IH]].
  - now exists [].
  - cbn [app from_first_zero]. destruct (c =? "0")%char.
    + now exists (c :: pre).
    + now exists pre'.
Qed.

Lemma verify_frames_prints (bitvec first : list ascii) (others : list (list ascii))
    (positions : list (nat * nat)) :
  fst (verify_frames bitvec (first :: others) positions) <> [].
Proof.
  unfold verify_frames.
  assert (Hgrow : forall entries out errors,
             out <> [] ->
             fst (fold_left (verify_step first) entries (out, errors)) <> []).
  { induction entries as [| [idx f] entries IH]; intros out errors Hout; [exact Hout |].
    cbn [fold_left verify_step]. destruct (str_eqb f first); apply IH; [exact Hout |].
    destruct out; discriminate. }
  specialize (Hgrow (combine (seq 1 (length others)) others)
                    ["Frames found: " +++ str_nat (length (first :: others))] 0).
  destruct (fold_left _ _ _) as [out errors]. cbn [fst] in Hgrow.
  destruct (0 <? errors); cbn [fst]; [| apply Hgrow; discriminate].
  destruct out; [exfalso; apply Hgrow; [discriminate | reflexivity] | discriminate].
Qed.

(** X12. Extraction and verification raise "No frames found", with nothing
    printed, exactly when the bit vector from its first ['0'] on holds no
    run of [min_idle] or more ['1']: no frame is opened, or the one opened is
    never closed. *)
Theorem no_frames_iff_no_idle_after_first_zero (bitvec : list ascii) :
  extract_and_verify bitvec m = Some ([], Raise (ValueError "No frames found"))
  <-> (Z.of_nat (longest_ones (from_first_zero bitvec)) < m)%Z.
Proof.
  unfold extract_and_verify.
  destruct (extract_frames_delimited m m_positive bitvec) as (frames & ps & HE & HD).
  rewrite HE. split.
  - intros [= Hv]. destruct frames as [| first others].
    + unfold extract_frames in HE.
      apply (scan_loop_none (length bitvec + 3) bitvec [] bitvec [] [] [] ps eq_refl);
        [lia | exact HE | reflexivity].
    + exfalso. apply (verify_frames_prints bitvec first others ps). now rewrite Hv.
  - intros Hlong. destruct HD as [| fr pos frames ps Hd _]; [reflexivity |].
    exfalso. destruct Hd as (pre & k & rest & Hbv & _ & _ & Hmk & Hhd & _).
    destruct fr as [| c fr]; [discriminate |]. injection Hhd as ->.
    cbn [app] in Hbv.
    destruct (from_first_zero_suffix pre (fr ++ idle k ++ rest)) as [pre' Hsuf].
    rewrite <- Hbv in Hsuf. rewrite Hsuf in Hlong.
    pose proof (longest_ones_run (pre' ++ "0"%char :: fr) rest k) as Hrun.
    rewrite <- app_assoc in Hrun. cbn [app] in Hrun. lia.
Qed.

End NoFrames.

Lemma no_frames_iff_no_idle_after_first_zero_witness :
  (1 <= 3)%Z /\
  (extract_and_verify (list_ascii_of_string "1110110") 3 =
     Some ([], Raise (ValueError "No frames found"))
   <-> (Z.of_nat (longest_ones (from_first_zero (list_ascii_of_string "1110110"))) < 3)%Z).
Proof.
  assert (H1 : (1 <= 3)%Z) by lia.
  split; [exact H1 |].
  exact (no_frames_iff_no_idle_after_first_zero 3 H1 (list_ascii_of_string "1110110")).
Defined.

(** ** extract_and_verify: any capture, after any lead-in *)

Section LeadIn.

Variable m : Z.
Hypothesis m_positive : (1 <= m)%Z.

Lemma scan_loop_lead (lead : list ascii) :
  Forall (fun c => c <> "0"%char) lead ->
  forall (f : nat) (bitvec seen rest : list ascii) frames positions,
  bitvec = seen ++ lead ++ rest ->
  scan_loop (length lead + f) bitvec m (length seen) frames positions =
  scan_loop f bitvec m (length (seen ++ lead)) frames positions.
Proof.
  induction 1 as [| c lead Hc _ IH]; intros f bitvec seen rest frames positions Hbv.
  - now rewrite app_nil_r.
  - cbn [length Nat.add scan_loop]. cbn [app] in Hbv.
    replace (length seen <? length bitvec) with true
      by (subst bitvec; symmetry; apply index_in_range).
    replace (char_at bitvec (length seen)) with c
      by (subst bitvec; symmetry; apply char_at_app).
    apply Ascii.eqb_neq in Hc. rewrite Hc.
    rewrite (length_snoc seen c), (IH f bitvec (seen ++ [c]) rest).
    + now rewrite <- app_assoc.
    + now rewrite Hbv, <- app_assoc.
Qed.

(** X13. After any lead-in without a ['0'], a capture of frames, each
    followed by an idle run of [min_idle] or more ['1'], is extracted into
    exactly its frames, in order, each at its position; the frames need not
    be equal. A single frame followed by its idle run is extracted into
    itself. *)
Theorem capture_is_extracted_into_its_frames
    (lead : list ascii) (segments : list (list ascii * nat)) :
  Forall (fun c => c <> "0"%char) lead ->
  Forall (capture_segment m) segments ->
  extract_frames (lead ++ capture segments) m =
    Some (map fst segments, segment_positions (length lead) segments).
Proof.
  intros Hlead Hsegs. unfold extract_frames.
  rewrite length_app, <- Nat.add_assoc.
  change 0 with (@length ascii []).
  rewrite (scan_loop_lead lead Hlead _ _ [] (capture segments)) by reflexivity.
  apply (scan_loop_capture m m_positive segments Hsegs _ _ ([] ++ lead) [] []);
    [reflexivity | lia].
Qed.

End LeadIn.

Lemma capture_is_extracted_into_its_frames_witness :
  (1 <= 3)%Z /\
  Forall (fun c => c <> "0"%char) (list_ascii_of_string "11") /\
  Forall (capture_segment 3)
         [(list_ascii_of_string "010", 5); (list_ascii_of_string "0010", 3)] /\
  extract_frames
    (list_ascii_of_string "11"
     ++ capture [(list_ascii_of_string "010", 5); (list_ascii_of_string "0010", 3)]) 3 =
    Some (map fst [(list_ascii_of_string "010", 5); (list_ascii_of_string "0010", 3)],
          segment_positions (length (list_ascii_of_string "11"))
            [(list_ascii_of_string "010", 5); (list_ascii_of_string "0010", 3)]).
Proof.
  assert (H1 : (1 <= 3)%Z) by lia.
  assert (H2 : Forall (fun c => c <> "0"%char) (list_ascii_of_string "11"))
    by (repeat constructor; discriminate).
  assert (H3 : Forall (capture_segment 3)
                 [(list_ascii_of_string "010", 5); (list_ascii_of_string "0010", 3)]).
  { repeat constructor; simpl; lia. }
  repeat (split; [assumption |]).
  exact (capture_is_extracted_into_its_frames 3 H1 _ _ H2 H3).
Defined.

(** ** whole_line *)

Section WholeLine.

Lemma firstn_add {A : Type} (n k : nat) (l : list A) :
  firstn (n + k) l = firstn n l ++ firstn k (skipn n l).
Proof.
  revert l. induction n as [| n IH]; intros l; [reflexivity |].
  destruct l as [| a l]; cbn [Nat.add firstn skipn app].
  - now rewrite firstn_nil.
  - now rewrite IH.
Qed.

Lemma slice_split {A : Type} (s : list A) (a b c : nat) :
  a <= b -> b <= c -> slice s a c = slice s a b ++ slice s b c.
Proof.
  intros Hab Hbc. unfold slice.
  replace (c - a) with ((b - a) + (c - b)) by lia.
  rewrite firstn_add, skipn_skipn. do 3 f_equal. lia.
Qed.

Lemma slice_length {A : Type} (s : list A) (a b : nat) :
  a <= b -> b <= length s -> length (slice s a b) = b - a.
Proof.
  intros Hab Hb. unfold slice. rewrite length_firstn, length_skipn. lia.
Qed.

(** X14. For a frame at [start <= end] within the bit vector, [whole_line]
    shows the frame between the bits of the vector right before it and
    right after it, up to 5 on each side (fewer only where the vector
    begins or ends), and marks with an ellipsis each side where bits of the
    vector are left out. *)
Theorem whole_line_shows_frame_in_context (bitvec : list ascii) (start end_ : nat) :
  start <= end_ <= length bitvec ->
  whole_line bitvec start end_ =
    (if 5 <? start then "..." else "")
    +++ string_of_list_ascii
          (slice bitvec (start - 5) start
           ++ slice bitvec start end_
           ++ slice bitvec end_ (Nat.min (length bitvec) (end_ + 5)))
    +++ (if end_ + 5 <? length bitvec then "..." else "") /\
  length (slice bitvec (start - 5) start) = Nat.min start 5 /\
  length (slice bitvec end_ (Nat.min (length bitvec) (end_ + 5)))
    = Nat.min (length bitvec - end_) 5.
Proof.
  intros [Hse Hen]. unfold whole_line. rewrite Nat.max_0_l.
  split; [| split].
  - rewrite <- !slice_split by lia.
    replace (0 <? start - 5) with (5 <? start)
      by (destruct (Nat.ltb_spec 5 start), (Nat.ltb_spec 0 (start - 5)); lia || reflexivity).
    replace (Nat.min (length bitvec) (end_ + 5) <? length bitvec)
      with (end_ + 5 <? length bitvec); [reflexivity |].
    destruct (Nat.ltb_spec (end_ + 5) (length bitvec)),
      (Nat.ltb_spec (Nat.min (length bitvec) (end_ + 5)) (length bitvec));
      lia || reflexivity.
  - rewrite slice_length by lia. lia.
  - rewrite slice_length by lia. lia.
Qed.

Lemma whole_line_shows_frame_in_context_witness :
  7 <= 10 <= length (list_ascii_of_string "1101011111001011101111") /\
  whole_line (list_ascii_of_string "1101011111001011101111") 7 10 =
    (if 5 <? 7 then "..." else "")
    +++ string_of_list_ascii
          (slice (list_ascii_of_string "1101011111001011101111") (7 - 5) 7
           ++ slice (list_ascii_of_string "1101011111001011101111") 7 10
           ++ slice (list_ascii_of_string "1101011111001011101111") 10
                (Nat.min (length (list_ascii_of_string "1101011111001011101111"))
                         (10 + 5)))
    +++ (if 10 + 5 <? length (list_ascii_of_string "1101011111001011101111")
         then "..." else "") /\
  length (slice (list_ascii_of_string "1101011111001011101111") (7 - 5) 7)
    = Nat.min 7 5 /\
  length (slice (list_ascii_of_string "1101011111001011101111") 10
            (Nat.min (length (list_ascii_of_string "1101011111001011101111"))
                     (10 + 5)))
    = Nat.min (length (list_ascii_of_string "1101011111001011101111") - 10) 5.
Proof.
  assert (H : 7 <= 10 <= length (list_ascii_of_string "1101011111001011101111"))
    by (simpl; lia).
  split; [exact H |].
  exact (whole_line_shows_frame_in_context _ 7 10 H).
Defined.

End WholeLine.

(** ** main: what stops the run, what is recorded and what is written *)

Section MainLoop.

Lemma read_trace_raise (samples : list sample) (e : exn) :
  read_trace samples = Raise e ->
  samples = [] /\ e = IndexError "list index out of range".
Proof.
  destruct samples as [| s rest]; [intros [= <-]; auto |].
  rewrite read_trace_cons. discriminate.
Qed.

Lemma read_trace_runs (samples : list sample) (runs : list run) (ts : list Q)
    (ls : list Z) :
  read_trace samples = Ok (runs, ts, ls) -> runs <> [].
Proof.
  destruct samples as [| s rest]; [discriminate |].
  rewrite read_trace_cons. intros [= <- _ _].
  destruct (transitions_head s rest) as [trs ->].
  intros E. apply (f_equal (@length run)) in E.
  rewrite compute_runs_length in E. discriminate.
Qed.

Lemma expand_loop_raise_kind (T0 : Q) (runs : list run) (acc : list Z) (e : exn) :
  fold_left (expand_step T0) runs (Ok acc) = Raise e ->
  e = ZeroDivisionError "float division by zero".
Proof.
  revert acc. induction runs as [| [v d] runs IH]; intros acc; [discriminate |].
  cbn [fold_left]. unfold expand_step at 2. cbn [bind]. unfold py_div.
  destruct (Qeq_bool T0 0); cbn [bind].
  - rewrite expand_loop_raise. now intros [= <-].
  - apply IH.
Qed.

Lemma build_bitvector_raise (runs : list run) (e : exn) :
  runs <> [] -> build_bitvector runs = Raise e ->
  e = ZeroDivisionError "float division by zero".
Proof.
  intros Hne. destruct runs as [| r runs]; [congruence |].
  destruct (estimate_T0_in r runs) as (T0 & v & HT0 & _).
  unfold build_bitvector. rewrite HT0. cbn [bind]. unfold expand_runs.
  destruct (fold_left (expand_step T0) (trim_idle T0 (r :: runs)) (Ok [])) eqn:Hx;
    cbn [bind]; [discriminate |].
  intros [= <-]. now apply expand_loop_raise_kind in Hx.
Qed.

Lemma extract_and_verify_raise (bitvec : list ascii) (min_idle : Z)
    (out : list string) (e : exn) :
  extract_and_verify bitvec min_idle = Some (out, Raise e) ->
  exists msg, e = ValueError msg.
Proof.
  unfold extract_and_verify.
  destruct (extract_frames bitvec min_idle) as [[frames ps] |]; [| discriminate].
  intros [= H]. unfold verify_frames in H.
  destruct frames as [| first others]; [inversion H; eauto |].
  destruct (fold_left _ _ _) as [out' errors].
  destruct (0 <? errors); inversion H; eauto.
Qed.

Lemma length_check_ok (frame : list ascii) (u : unit) :
  length_check frame = Ok u -> 30 <= length frame <= 34.
Proof.
  unfold length_check.
  destruct (Nat.ltb_spec (length frame) 30); [discriminate |].
  destruct (Nat.ltb_spec 34 (length frame)); [discriminate |]. lia.
Qed.

Lemma length_check_raise (frame : list ascii) (e : exn) :
  length_check frame = Raise e -> exists msg, e = ValueError msg.
Proof.
  unfold length_check.
  destruct ((length frame <? 30) || (34 <? length frame)); [| discriminate].
  intros [= <-]. eauto.
Qed.

(** What one turn of the loop does to the state. *)
Lemma process_trace_step (st : main_state) (trace : string) (samples : list sample)
    (outcome : main_outcome) :
  process_trace st trace samples = Some outcome ->
  match outcome with
  | Continue st' =>
      frame_var st' <> None /\
      (written st' = written st \/
       exists frame,
         written st' = written st ++ [(trace, frame ++ list_ascii_of_string newline)] /\
         30 <= length frame <= 34)
  | Abort st' e =>
      written st' = written st /\ trace_errors st' = trace_errors st /\
      ((samples = [] /\ e = IndexError "list index out of range") \/
       e = ZeroDivisionError "float division by zero" \/
       (e = UnboundLocalError
              "cannot access local variable 'frame' where it is not associated with a value"
        /\ frame_var st = None))
  end.
Proof.
  unfold process_trace.
  destruct (read_trace samples) as [[[runs ts] ls] | e] eqn:Hr.
  2: { intros [= <-]. apply read_trace_raise in Hr. cbn. auto. }
  destruct (build_bitvector runs) as [[bv T0] | e] eqn:Hb.
  2: { intros [= <-]. apply build_bitvector_raise in Hb;
         [| now apply read_trace_runs in Hr]. cbn. auto. }
  destruct (extract_and_verify bv 20) as [[out res] |] eqn:Hx; [| discriminate].
  destruct res as [[[frame count] ps] | e].
  - destruct (length_check frame) as [u | e] eqn:Hl.
    + intros [= <-]. apply length_check_ok in Hl. unfold report_frame.
      destruct (5 <=? count); cbn; split; try discriminate; eauto.
    + destruct (length_check_raise _ _ Hl) as [msg ->].
      intros [= <-]. cbn. split; [discriminate | now left].
  - destruct (extract_and_verify_raise _ _ _ _ Hx) as [msg ->].
    intros [= <-]. unfold handle_value_error. cbn [frame_var print].
    destruct (frame_var st) as [f |] eqn:Hf; cbn.
    + split; [discriminate | now left].
    + split; [reflexivity | split; [reflexivity |]]. right. right. now split.
Qed.

Lemma process_traces_abort (traces : list (string * list sample)) :
  forall (st0 st : main_state) (e : exn),
  (frame_var st0 = None -> trace_errors st0 = [] /\ written st0 = []) ->
  process_traces st0 traces = Some (Abort st e) ->
  exists trace samples,
    In (trace, samples) traces /\
    ((samples = [] /\ e = IndexError "list index out of range") \/
     e = ZeroDivisionError "float division by zero" \/
     (e = UnboundLocalError
            "cannot access local variable 'frame' where it is not associated with a value"
      /\ trace_errors st = [] /\ written st = [])).
Proof.
  induction traces as [| [trace samples] traces IH]; intros st0 st e Hinv;
    cbn [process_traces]; [discriminate |].
  destruct (process_trace st0 trace samples) as [[st1 | st1 e1] |] eqn:Hp;
    [| | discriminate]; apply process_trace_step in Hp.
  - intros H. destruct Hp as [Hbound _].
    destruct (IH st1 st e) as (t & smp & Hin & Hcause); [tauto | exact H |].
    exists t, smp. split; [now right | exact Hcause].
  - intros [= <- <-]. destruct Hp as (Hw & He & Hcause).
    exists trace, samples. split; [now left |].
    destruct Hcause as [H | [H | [H Hnone]]]; [now left | now (right; left) |].
    right. right. rewrite Hw, He. destruct (Hinv Hnone). auto.
Qed.

(** X15. When [main] stops on the [UnboundLocalError] of its handler, no
    frame had been accepted before: nothing has been recorded in
    [trace_errors] and nothing has been written. *)
Theorem handler_failure_leaves_nothing_recorded
    (traces : list (string * list sample)) (st : main_state) (msg : string) :
  main traces = Some (Abort st (UnboundLocalError msg)) ->
  trace_errors st = [] /\ written st = [].
Proof.
  unfold main.
  destruct (process_traces initial_state traces) as [[st1 | st1 e1] |] eqn:Hp;
    [discriminate | | discriminate].
  intros [= <- ->].
  destruct (process_traces_abort traces initial_state st1 _ ltac:(auto) Hp)
    as (trace & samples & _ & [[_ H] | [H | (_ & H)]]);
    [discriminate | discriminate | exact H].
Qed.

Lemma handler_failure_leaves_nothing_recorded_witness :
  main [("capture.csv", idle_trace)] =
    Some (Abort
            {| stdout := [newline +++ "Processing capture.csv...";
                          "Error processing capture.csv: No frames found"];
               trace_errors := [];
               frame_var := None;
               written := [] |}
            (UnboundLocalError
               "cannot access local variable 'frame' where it is not associated with a value"))
  /\
  trace_errors
    {| stdout := [newline +++ "Processing capture.csv...";
                  "Error processing capture.csv: No frames found"];
       trace_errors := [];
       frame_var := None;
       written := [] |} = [] /\
  written
    {| stdout := [newline +++ "Processing capture.csv...";
                  "Error processing capture.csv: No frames found"];
       trace_errors := [];
       frame_var := None;
       written := [] |} = [].
Proof.
  assert (H : main [("capture.csv", idle_trace)] =
    Some (Abort
            {| stdout := [newline +++ "Processing capture.csv...";
                          "Error processing capture.csv: No frames found"];
               trace_errors := [];
               frame_var := None;
               written := [] |}
            (UnboundLocalError
               "cannot access local variable 'frame' where it is not associated with a value")))
    by (vm_compute; reflexivity).
  split; [exact H |].
  exact (handler_failure_leaves_nothing_recorded _ _ _ H).
Defined.

Lemma process_traces_written (traces : list (string * list sample)) :
  forall (st0 : main_state) (outcome : main_outcome),
  process_traces st0 traces = Some outcome ->
  forall t content,
  In (t, content) (written (final_state outcome)) ->
  In (t, content) (written st0) \/
  exists samples frame,
    In (t, samples) traces /\
    content = frame ++ list_ascii_of_string newline /\
    30 <= length frame <= 34.
Proof.
  induction traces as [| [trace samples] traces IH]; intros st0 outcome;
    cbn [process_traces].
  - intros [= <-] t content Hin. now left.
  - destruct (process_trace st0 trace samples) as [[st1 | st1 e1] |] eqn:Hp;
      [| | discriminate]; apply process_trace_step in Hp.
    + intros H t content Hin.
      destruct (IH st1 outcome H t content Hin) as [Hold | (smp & fr & H1 & H2)].
      * destruct Hp as [_ [Hw | (frame & Hw & Hlen)]]; rewrite Hw in Hold.
        -- now left.
        -- apply in_app_or in Hold. destruct Hold as [Hold | [[= <- <-] | []]];
             [now left |].
           right. exists samples, frame. split; [now left | now split].
      * right. exists smp, fr. split; [now right | exact H2].
    + intros [= <-] t content Hin. cbn [final_state] in Hin.
      destruct Hp as (Hw & _). rewrite Hw in Hin. now left.
Qed.

(** X16. Whatever [main] has written when it returns or stops, it is, for
    one of the traces given, a frame of 30 to 34 bits followed by a line
    end. *)
Theorem main_writes_only_frames_of_checked_length
    (traces : list (string * list sample)) (outcome : main_outcome)
    (t : string) (content : list ascii) :
  main traces = Some outcome ->
  In (t, content) (written (final_state outcome)) ->
  exists samples frame,
    In (t, samples) traces /\
    content = frame ++ list_ascii_of_string newline /\
    30 <= length frame <= 34.
Proof.
  unfold main.
  destruct (process_traces initial_state traces) as [[st1 | st1 e1] |] eqn:Hp;
    [| | discriminate]; intros [= <-] Hin.
  - assert (Hin' : In (t, content) (written (final_state (Continue st1)))).
    { cbn [final_state] in Hin |- *. unfold report_errors in Hin.
      destruct (trace_errors st1); exact Hin. }
    destruct (process_traces_written traces _ _ Hp t content Hin') as [[] | H].
    exact H.
  - destruct (process_traces_written traces _ _ Hp t content Hin) as [[] | H].
    exact H.
Qed.

Lemma build_bitvector_single (v : Z) (d : Q) :
  v = 0%Z \/ v = 1%Z -> (0 < d)%Q ->
  build_bitvector [(v, d)] = Ok ([bit_char v], d).
Proof.
  intros Hv Hd. unfold build_bitvector.
  assert (HT0 : estimate_T0 [(v, d)] = Ok d) by (destruct Hv as [-> | ->]; reflexivity).
  rewrite HT0. cbn [bind]. unfold trim_idle. cbn [first_idle].
  assert (Hidle : Qle_bool (20 * d) d = false).
  { destruct (Qle_bool (20 * d) d) eqn:E; [| reflexivity].
    apply Qle_bool_iff in E. lra. }
  rewrite Hidle. unfold expand_runs. cbn [fold_left]. unfold expand_step.
  cbn [bind]. unfold py_div.
  assert (Hnz : Qeq_bool d 0 = false).
  { destruct (Qeq_bool d 0) eqn:E; [| reflexivity]. apply Qeq_bool_iff in E. lra. }
  rewrite Hnz. cbn [bind app].
  rewrite (py_round_integer (d / d) 1).
  - destruct Hv as [-> | ->]; reflexivity.
  - change (inject_Z 1) with 1%Q. field. lra.
Qed.

(** X17. A trace that stays at one level, 0 or 1, over a positive time has
    no frame. When a frame was decoded from an earlier trace, the failure is
    recorded with the name of this trace and the frame of the earlier one,
    and the loop goes on; when none was, the handler raises
    [UnboundLocalError] and the run stops. *)
Theorem level_trace_is_recorded_with_the_earlier_frame
    (st : main_state) (trace : string) (s : sample) (rest : list sample) :
  Forall (fun x => snd x = snd s) rest ->
  snd s = 0%Z \/ snd s = 1%Z ->
  (fst s < last (map fst (s :: rest)) 0)%Q ->
  process_trace st trace (s :: rest) =
    Some
      match frame_var st with
      | Some f =>
          Continue
            {| stdout := stdout st
                         ++ [newline +++ "Processing " +++ trace +++ "..."]
                         ++ ["Error processing " +++ trace +++ ": No frames found"];
               trace_errors := trace_errors st ++ [(trace, f, "No frames found")];
               frame_var := Some f;
               written := written st |}
      | None =>
          Abort
            {| stdout := stdout st
                         ++ [newline +++ "Processing " +++ trace +++ "..."]
                         ++ ["Error processing " +++ trace +++ ": No frames found"];
               trace_errors := trace_errors st;
               frame_var := None;
               written := written st |}
            (UnboundLocalError
               "cannot access local variable 'frame' where it is not associated with a value")
      end.
Proof.
  intros Hconst Hv Hd. unfold process_trace.
  rewrite read_trace_cons, constant_level_transitions, compute_runs_one by exact Hconst.
  rewrite build_bitvector_single; [| exact Hv | lra].
  assert (Hx : extract_and_verify [bit_char (snd s)] 20 =
               Some ([], Raise (ValueError "No frames found")))
    by (destruct Hv as [-> | ->]; reflexivity).
  rewrite Hx. unfold handle_value_error, print.
  cbn [frame_var stdout trace_errors written].
  rewrite app_nil_r, <- app_assoc. destruct (frame_var st); reflexivity.
Qed.

Lemma level_trace_is_recorded_with_the_earlier_frame_witness :
  Forall (fun x : sample => snd x = snd (0%Q, 1%Z)) [(1%Q, 1%Z)] /\
  (snd (0%Q, 1%Z) = 0%Z \/ snd (0%Q, 1%Z) = 1%Z) /\
  (fst (0%Q, 1%Z) < last (map fst [(0%Q, 1%Z); (1%Q, 1%Z)]) 0)%Q /\
  process_trace
    {| stdout := []; trace_errors := []; frame_var := Some sample_pattern;
       written := [] |} "later.csv" [(0%Q, 1%Z); (1%Q, 1%Z)] =
    Some (Continue
            {| stdout := [newline +++ "Processing later.csv...";
                          "Error processing later.csv: No frames found"];
               trace_errors := [("later.csv", sample_pattern, "No frames found")];
               frame_var := Some sample_pattern;
               written := [] |}).
Proof.
  assert (H1 : Forall (fun x : sample => snd x = snd (0%Q, 1%Z)) [(1%Q, 1%Z)])
    by (repeat constructor).
  assert (H2 : snd (0%Q, 1%Z) = 0%Z \/ snd (0%Q, 1%Z) = 1%Z) by (right; reflexivity).
  assert (H3 : (fst (0%Q, 1%Z) < last (map fst [(0%Q, 1%Z); (1%Q, 1%Z)]) 0)%Q)
    by reflexivity.
  repeat (split; [assumption |]).
  exact (level_trace_is_recorded_with_the_earlier_frame
           {| stdout := []; trace_errors := []; frame_var := Some sample_pattern;
              written := [] |} "later.csv" (0%Q, 1%Z) [(1%Q, 1%Z)] H1 H2 H3).
Defined.

(** X18. A trace with timestamps that never decrease and whose last sample
    is a falling edge to level 0 stops the whole run: its last run is a low
    run of zero duration, the quantum is zero, and [ZeroDivisionError] is
    raised outside the [try] block. *)
Theorem trace_ending_on_falling_edge_stops_the_run
    (st : main_state) (trace : string) (s : sample) (rest : list sample) (t_last : Q) :
  Sorted Qle (map fst ((s :: rest) ++ [(t_last, 0%Z)])) ->
  snd (last (s :: rest) (0%Q, 0%Z)) <> 0%Z ->
  process_trace st trace ((s :: rest) ++ [(t_last, 0%Z)]) =
    Some (Abort (print st [newline +++ "Processing " +++ trace +++ "..."])
                (ZeroDivisionError "float division by zero")).
Proof.
  intros Hsorted Hedge.
  destruct (trailing_edge_runs s rest t_last 0%Z) as (runs & Hne & Hread);
    [congruence |].
  assert (Hpos : Forall (fun r : run => (0 <= snd r)%Q)
                        (runs ++ [(0%Z, (t_last - t_last)%Q)])).
  { pose proof (sorted_trace_runs s (rest ++ [(t_last, 0%Z)]) Hsorted) as H.
    assert (E : compute_runs
                  (fold_left transition_step (rest ++ [(t_last, 0%Z)]) [s])
                  (last (map fst (s :: rest ++ [(t_last, 0%Z)])) 0%Q)
                = runs ++ [(0%Z, (t_last - t_last)%Q)]).
    { pose proof Hread as Hr.
      change ((s :: rest) ++ [(t_last, 0%Z)]) with (s :: rest ++ [(t_last, 0%Z)]) in Hr.
      rewrite read_trace_cons in Hr. injection Hr as E. exact E. }
    rewrite <- E. exact H. }
  assert (Hbuild : build_bitvector (runs ++ [(0%Z, (t_last - t_last)%Q)]) =
                   Raise (ZeroDivisionError "float division by zero")).
  { apply (zero_quantum_raises _ (t_last - t_last)%Q).
    - exact Hpos.
    - apply in_or_app. right. now left.
    - unfold Qminus. apply Qplus_opp_r.
    - rewrite length_app. cbn [length]. destruct runs; [congruence | cbn [length]; lia]. }
  unfold process_trace. now rewrite Hread, Hbuild.
Qed.

Lemma trace_ending_on_falling_edge_stops_the_run_witness :
  Sorted Qle (map fst ([(0%Q, 0%Z); (1%Q, 1%Z)] ++ [(2%Q, 0%Z)])) /\
  snd (last [(0%Q, 0%Z); (1%Q, 1%Z)] (0%Q, 0%Z)) <> 0%Z /\
  process_trace initial_state "edge.csv" ([(0%Q, 0%Z); (1%Q, 1%Z)] ++ [(2%Q, 0%Z)]) =
    Some (Abort (print initial_state [newline +++ "Processing " +++ "edge.csv" +++ "..."])
                (ZeroDivisionError "float division by zero")).
Proof.
  assert (H1 : Sorted Qle (map fst ([(0%Q, 0%Z); (1%Q, 1%Z)] ++ [(2%Q, 0%Z)])))
    by (repeat constructor; unfold Qle; simpl; lia).
  assert (H2 : snd (last [(0%Q, 0%Z); (1%Q, 1%Z)] (0%Q, 0%Z)) <> 0%Z)
    by (simpl; lia).
  repeat (split; [assumption |]).
  exact (trace_ending_on_falling_edge_stops_the_run initial_state "edge.csv"
           (0%Q, 0%Z) [(1%Q, 1%Z)] 2%Q H1 H2).
Defined.

Lemma extract_and_verify_tiled (m : Z) (p : list ascii) (seps : list nat) :
  (1 <= m)%Z -> framed m p ->
  Forall (fun k => (m <= Z.of_nat k)%Z) seps ->
  seps <> [] ->
  extract_and_verify (tiled p seps) m =
    Some (["Frames found: " +++ str_nat (length seps)],
          Ok (p, length seps, segment_positions 0 (map (fun k => (p, k)) seps))).
Proof.
  intros Hm Hp Hseps Hne. unfold extract_and_verify, tiled.
  rewrite (extract_frames_capture m Hm) by now apply tiled_segments_ok.
  pose proof (tiled_frames p seps) as Hall.
  destruct seps as [| k0 seps]; [congruence |].
  cbn [map fst] in Hall |- *. inversion Hall as [| x l _ Hothers]; subst.
  unfold verify_frames.
  rewrite (verify_loop_all_equal p _ Hothers). cbn [Nat.ltb Nat.leb].
  rewrite Nat.sub_0_r. cbn [length]. rewrite !length_map. reflexivity.
Qed.

(** X19. A trace whose bit vector is a pattern of 30 to 34 bits, beginning
    and ending with ['0'] and without a run of 20 ['1'], repeated once or
    more, each time followed by 20 or more ['1']: the pattern is bound to
    [frame] and reported with the number of repetitions, nothing is recorded
    as an error, and the pattern is written out exactly when it is repeated
    5 times or more. *)
Theorem repeated_pattern_is_written_from_five_repetitions
    (st : main_state) (trace : string) (samples : list sample)
    (runs : list run) (ts : list Q) (ls : list Z) (T0 : Q)
    (p : list ascii) (seps : list nat) :
  read_trace samples = Ok (runs, ts, ls) ->
  build_bitvector runs = Ok (tiled p seps, T0) ->
  framed 20 p ->
  30 <= length p <= 34 ->
  seps <> [] ->
  Forall (fun k => (20 <= Z.of_nat k)%Z) seps ->
  process_trace st trace samples =
    Some (Continue
            {| stdout := stdout st
                         ++ [newline +++ "Processing " +++ trace +++ "..."]
                         ++ ["Frames found: " +++ str_nat (length seps)]
                         ++ ["Frame (length " +++ str_nat (length p) +++ "): "
                             +++ string_of_list_ascii p +++ " found "
                             +++ str_nat (length seps) +++ " times"];
               trace_errors := trace_errors st;
               frame_var := Some p;
               written := if 5 <=? length seps
                          then written st ++ [(trace, p ++ list_ascii_of_string newline)]
                          else written st |}).
Proof.
  intros Hr Hb Hp Hlen Hne Hseps. unfold process_trace. rewrite Hr, Hb.
  rewrite (extract_and_verify_tiled 20 p seps) by (lia || assumption).
  rewrite (length_check_passes p Hlen). unfold report_frame, print.
  cbn [stdout trace_errors frame_var written].
  rewrite <- !app_assoc. destruct (5 <=? length seps); reflexivity.
Qed.

Lemma repeated_pattern_is_written_from_five_repetitions_witness :
  read_trace (samples_of_counts 0 (capture_counts 5)) =
    Ok (quantized 1 (capture_counts 5),
        map fst (samples_of_counts 0 (capture_counts 5)),
        map snd (samples_of_counts 0 (capture_counts 5))) /\
  build_bitvector (quantized 1 (capture_counts 5)) =
    Ok (tiled sample_pattern [25; 25; 25; 25; 25], 1%Q) /\
  framed 20 sample_pattern /\
  30 <= length sample_pattern <= 34 /\
  [25; 25; 25; 25; 25] <> [] /\
  Forall (fun k => (20 <= Z.of_nat k)%Z) [25; 25; 25; 25; 25] /\
  process_trace initial_state "capture.csv" (samples_of_counts 0 (capture_counts 5)) =
    Some (Continue
            {| stdout := stdout initial_state
                         ++ [newline +++ "Processing " +++ "capture.csv" +++ "..."]
                         ++ ["Frames found: " +++ str_nat (length [25; 25; 25; 25; 25])]
                         ++ ["Frame (length " +++ str_nat (length sample_pattern) +++ "): "
                             +++ string_of_list_ascii sample_pattern +++ " found "
                             +++ str_nat (length [25; 25; 25; 25; 25]) +++ " times"];
               trace_errors := trace_errors initial_state;
               frame_var := Some sample_pattern;
               written := if 5 <=? length [25; 25; 25; 25; 25]
                          then written initial_state
                               ++ [("capture.csv",
                                    sample_pattern ++ list_ascii_of_string newline)]
                          else written initial_state |}).
Proof.
  assert (H1 : read_trace (samples_of_counts 0 (capture_counts 5)) =
               Ok (quantized 1 (capture_counts 5),
                   map fst (samples_of_counts 0 (capture_counts 5)),
                   map snd (samples_of_counts 0 (capture_counts 5))))
    by (vm_compute; reflexivity).
  assert (H2 : build_bitvector (quantized 1 (capture_counts 5)) =
               Ok (tiled sample_pattern [25; 25; 25; 25; 25], 1%Q))
    by (vm_compute; reflexivity).
  assert (H3 : 30 <= length sample_pattern <= 34) by (simpl; lia).
  assert (H4 : [25; 25; 25; 25; 25] <> []) by discriminate.
  assert (H5 : Forall (fun k => (20 <= Z.of_nat k)%Z) [25; 25; 25; 25; 25])
    by (repeat constructor; simpl; lia).
  split; [exact H1 |]. split; [exact H2 |]. split; [exact sample_pattern_framed |].
  repeat (split; [assumption |]).
  exact (repeated_pattern_is_written_from_five_repetitions initial_state "capture.csv"
           _ _ _ _ _ _ _ H1 H2 sample_pattern_framed H3 H4 H5).
Defined.

Lemma main_writes_only_frames_of_checked_length_witness :
  main [("capture.csv", samples_of_counts 0 (capture_counts 5))] =
    Some (Continue
            {| stdout := [newline +++ "Processing capture.csv...";
                          "Frames found: 5";
                          "Frame (length 30): 010011000111010100110001110100 found 5 times"];
               trace_errors := [];
               frame_var := Some sample_pattern;
               written := [("capture.csv",
                            sample_pattern ++ list_ascii_of_string newline)] |}) /\
  exists samples frame,
    In ("capture.csv", samples)
       [("capture.csv", samples_of_counts 0 (capture_counts 5))] /\
    sample_pattern ++ list_ascii_of_string newline
      = frame ++ list_ascii_of_string newline /\
    30 <= length frame <= 34.
Proof.
  assert (H : main [("capture.csv", samples_of_counts 0 (capture_counts 5))] =
    Some (Continue
            {| stdout := [newline +++ "Processing capture.csv...";
                          "Frames found: 5";
                          "Frame (length 30): 010011000111010100110001110100 found 5 times"];
               trace_errors := [];
               frame_var := Some sample_pattern;
               written := [("capture.csv",
                            sample_pattern ++ list_ascii_of_string newline)] |}))
    by (vm_compute; reflexivity).
  split; [exact H |].
  apply (main_writes_only_frames_of_checked_length _ _ "capture.csv"
           (sample_pattern ++ list_ascii_of_string newline) H).
  cbn [final_state written]. now left.
Defined.

End MainLoop.

(** ** debug_print_frame_and_bitvec *)

Section Aligner.

(** X20. The aligner prints four lines, then one line per position, then a
    closing line. The line of a position that holds a frame as long as the
    reference shows that frame, marked OK when it is the reference and DIFF
    when it is not. *)
Theorem aligner_marks_frames_of_reference_length
    (frame bitvec : list ascii) (positions : list (nat * nat))
    (i : nat) (pos : nat * nat) :
  nth_error positions i = Some pos ->
  fst pos <= snd pos ->
  snd pos - fst pos = length frame ->
  length (debug_print_frame_and_bitvec frame bitvec positions) = 5 + length positions /\
  nth_error (debug_print_frame_and_bitvec frame bitvec positions) (4 + i) =
    Some (string_of_list_ascii (slice bitvec (fst pos) (snd pos)) +++ "   "
          +++ (if str_eqb (slice bitvec (fst pos) (snd pos)) frame
               then "OK" else "DIFF")).
Proof.
  intros Hpos Hrange Hlen. unfold debug_print_frame_and_bitvec. split.
  - rewrite !length_app, length_map. cbn [length]. lia.
  - cbn [app Nat.add nth_error].
    rewrite nth_error_app1
      by (rewrite length_map; apply nth_error_Some; congruence).
    rewrite nth_error_map, Hpos. cbn [option_map].
    replace (fst pos + length frame) with (snd pos) by lia. reflexivity.
Qed.

Lemma aligner_marks_frames_of_reference_length_witness :
  nth_error [(0, 3); (6, 9)] 1 = Some (6, 9) /\
  fst (6, 9) <= snd (6, 9) /\
  snd (6, 9) - fst (6, 9) = length (list_ascii_of_string "010") /\
  length (debug_print_frame_and_bitvec (list_ascii_of_string "010")
            (list_ascii_of_string "010111011111") [(0, 3); (6, 9)])
    = 5 + length [(0, 3); (6, 9)] /\
  nth_error (debug_print_frame_and_bitvec (list_ascii_of_string "010")
               (list_ascii_of_string "010111011111") [(0, 3); (6, 9)]) (4 + 1) =
    Some (string_of_list_ascii
            (slice (list_ascii_of_string "010111011111") (fst (6, 9)) (snd (6, 9)))
          +++ "   "
          +++ (if str_eqb (slice (list_ascii_of_string "010111011111")
                                 (fst (6, 9)) (snd (6, 9)))
                          (list_ascii_of_string "010")
               then "OK" else "DIFF")).
Proof.
  assert (H1 : nth_error [(0, 3); (6, 9)] 1 = Some (6, 9)) by reflexivity.
  assert (H2 : fst (6, 9) <= snd (6, 9)) by (simpl; lia).
  assert (H3 : snd (6, 9) - fst (6, 9) = length (list_ascii_of_string "010"))
    by reflexivity.
  repeat (split; [assumption |]).
  exact (aligner_marks_frames_of_reference_length _ _ _ 1 (6, 9) H1 H2 H3).
Defined.

End Aligner.

(** * Properties on binary64 floats *)

(** ** Rounding to binary64 *)

Section Rounding.

Lemma pow2_pos (e : Z) : (0 < pow2 e)%Q.
Proof. apply Qpower_0_lt. reflexivity. Qed.

Lemma pow2_add (a b : Z) : (pow2 (a + b) == pow2 a * pow2 b)%Q.
Proof. apply Qpower_plus. discriminate. Qed.

Lemma pow2_inject (n : Z) : (0 <= n)%Z -> (pow2 n == inject_Z (2 ^ n))%Q.
Proof. intros Hn. unfold pow2. now rewrite (Zpower_Qpower 2 n Hn). Qed.


Lemma Qabs_num_den (x : Q) :
  (Qabs x == inject_Z (Z.abs (Qnum x)) / inject_Z (Zpos (Qden x)))%Q.
Proof.
  destruct x as [n d]. unfold Qabs, Qeq, Qdiv, Qmult, Qinv, inject_Z. simpl. lia.
Qed.

(** The exponent taken is not above the value. *)
Lemma ilog2_le (x : Q) : ~ (x == 0)%Q -> (pow2 (ilog2 x) <= Qabs x)%Q.
Proof.
  intros Hx. unfold ilog2.
  set (n := Z.abs (Qnum x)). set (d := Zpos (Qden x)).
  destruct (Qle_bool (pow2 (Z.log2 n - Z.log2 d)) (Qabs x)) eqn:E.
  - now apply Qle_bool_iff.
  - clear E.
    assert (Hn : (0 < n)%Z).
    { subst n. destruct x as [[| p | p] dd]; simpl; try lia.
      exfalso. apply Hx. reflexivity. }
    assert (Hd : (0 < d)%Z) by (subst d; lia).
    destruct (Z.log2_spec n Hn) as [Hn1 _]. destruct (Z.log2_spec d Hd) as [_ Hd2].
    pose proof (Z.log2_nonneg n) as Hln. pose proof (Z.log2_nonneg d) as Hld.
    rewrite Qabs_num_den. fold n d.
    replace (Z.log2 n - Z.log2 d - 1)%Z with (Z.log2 n + - (Z.succ (Z.log2 d)))%Z by lia.
    rewrite pow2_add. unfold pow2 at 2. rewrite Qpower_opp.
    fold (pow2 (Z.succ (Z.log2 d))).
    rewrite !pow2_inject by lia.
    assert (H2 : (0 < inject_Z (2 ^ Z.succ (Z.log2 d)))%Q).
    { rewrite <- pow2_inject by lia. apply pow2_pos. }
    assert (Hdq : (0 < inject_Z d)%Q)
      by (change 0%Q with (inject_Z 0); now rewrite <- Zlt_Qlt).
    assert (A : (inject_Z (2 ^ Z.log2 n) <= inject_Z n)%Q) by now rewrite <- Zle_Qle.
    assert (B : (inject_Z d <= inject_Z (2 ^ Z.succ (Z.log2 d)))%Q)
      by (rewrite <- Zle_Qle; lia).
    assert (A0 : (0 < inject_Z (2 ^ Z.log2 n))%Q).
    { rewrite <- pow2_inject by lia. apply pow2_pos. }
    unfold Qdiv.
    apply Qle_trans with (inject_Z (2 ^ Z.log2 n) * / inject_Z d)%Q.
    + apply Qmult_le_l; [exact A0 |].
      apply Qle_shift_inv_l; [exact Hdq |].
      rewrite Qmult_comm. apply Qle_shift_div_r; [exact H2 |]. lra.
    + apply Qmult_le_r; [now apply Qinv_lt_0_compat | exact A].
Qed.






Lemma pow2_opp (k : Z) : (pow2 (- k) == / pow2 k)%Q.
Proof. apply Qpower_opp. Qed.

Lemma pow2_le (a b : Z) : (a <= b)%Z -> (pow2 a <= pow2 b)%Q.
Proof. intros H. apply Qpower_le_compat_l; [exact H | discriminate]. Qed.

(** A whole number below [2^53] is a float: it is not rounded. *)
Lemma b64_integer (x : Q) (c : Z) :
  (x == inject_Z c)%Q -> (0 < c < 2 ^ 53)%Z -> b64 x = Fin (inject_Z c).
Proof.
  intros Hx Hc.
  assert (Hpos : (0 < inject_Z c)%Q)
    by (change 0%Q with (inject_Z 0); rewrite <- Zlt_Qlt; lia).
  assert (Hlt : (inject_Z c < pow2 53)%Q).
  { rewrite pow2_inject by lia. rewrite <- Zlt_Qlt. lia. }
  assert (Hx0 : ~ (x == 0)%Q) by (rewrite Hx; lra).
  assert (Habs : (Qabs x == inject_Z c)%Q) by (rewrite Hx; apply Qabs_pos; lra).
  assert (He : (Z.max (ilog2 x) (-1022) <= 52)%Z).
  { pose proof (ilog2_le x Hx0) as Hl. rewrite Habs in Hl.
    assert (ilog2 x < 53)%Z.
    { apply (Qpower_lt_compat_l_inv 2); [| reflexivity].
      fold (pow2 (ilog2 x)) (pow2 53). lra. }
    lia. }
  unfold b64.
  destruct (Qeq_bool x 0) eqn:E; [apply Qeq_bool_iff in E; contradiction | clear E].
  set (e := Z.max (ilog2 x) (-1022)) in *.
  set (k := (52 - e)%Z).
  replace (e - 52)%Z with (- k)%Z by (subst k; lia).
  assert (Hk : (0 <= k)%Z) by (subst k; lia).
  assert (Hu : (pow2 (- k) == / inject_Z (2 ^ k))%Q).
  { rewrite pow2_opp. now rewrite pow2_inject. }
  assert (Hk2 : (0 < inject_Z (2 ^ k))%Q).
  { rewrite <- pow2_inject by lia. apply pow2_pos. }
  assert (Hq : (x / pow2 (- k) == inject_Z (c * 2 ^ k))%Q).
  { rewrite Hu, Hx, inject_Z_mult. field. lra. }
  rewrite (py_round_integer _ _ Hq).
  assert (Hy : (inject_Z (c * 2 ^ k) * pow2 (- k) == inject_Z c)%Q).
  { rewrite Hu, inject_Z_mult. field. lra. }
  destruct (Qle_bool (pow2 1024) _) eqn:E.
  - exfalso. apply Qle_bool_iff in E.
    rewrite Hy, (Qabs_pos _ (Qlt_le_weak _ _ Hpos)) in E.
    pose proof (pow2_le 53 1024 ltac:(lia)). lra.
  - f_equal. rewrite (Qred_complete _ _ Hy). apply Qcanon.Qred_identity.
    simpl. apply Z.gcd_1_r.
Qed.

End Rounding.

(** ** The run loop: durations and the duration of the trace *)

Section RunLoopB64.







End RunLoopB64.



(** ** build_bitvector: the runs that are kept and their expansion *)

Section BuildBitvectorB64.

Lemma first_idle_b64_spec (T0 : float) (runs : list float_run) (i : nat) :
  match first_idle_b64 T0 runs i with
  | None => Forall (fun r : float_run => idle_test T0 (snd r) = false) runs
  | Some j =>
      exists before r after,
        runs = before ++ r :: after /\ j = i + length before /\
        Forall (fun r' : float_run => idle_test T0 (snd r') = false) before /\
        idle_test T0 (snd r) = true
  end.
Proof.
  revert i. induction runs as [| [v d] runs IH]; intros i; cbn [first_idle_b64];
    [constructor |].
  destruct (idle_test T0 d) eqn:Hd.
  - exists [], (v, d), runs. repeat split; auto; cbn [length]; lia.
  - specialize (IH (S i)). destruct (first_idle_b64 T0 runs (S i)) as [j |].
    + destruct IH as (before & r & after & -> & -> & Hb & Hr).
      exists ((v, d) :: before), r, after. repeat split; auto; cbn [length]; lia.
    + constructor; assumption.
Qed.

Lemma trim_idle_b64_kept (T0 : float) (runs : list float_run) :
  kept_after_trim T0 runs (trim_idle_b64 T0 runs).
Proof.
  unfold kept_after_trim, trim_idle_b64.
  pose proof (first_idle_b64_spec T0 runs 0) as H.
  destruct (first_idle_b64 T0 runs 0) as [j |].
  - right. destruct H as (before & r & after & -> & -> & Hb & Hr).
    exists before, r. split; [| now split].
    f_equal. f_equal. cbn [Nat.add].
    replace (length before + 1) with (length before + 1 + 0) by lia.
    rewrite skipn_app.
    replace (length before + 1 + 0 - length before) with 1 by lia.
    rewrite skipn_all2 by lia. reflexivity.
  - left. now split.
Qed.















End BuildBitvectorB64.

Lemma first_passing_unique (T0 : float) (before before' : list float_run)
    (r r' : float_run) (kept kept' : list float_run) :
  before ++ r :: kept = before' ++ r' :: kept' ->
  Forall (fun x : float_run => idle_test T0 (snd x) = false) before ->
  Forall (fun x : float_run => idle_test T0 (snd x) = false) before' ->
  idle_test T0 (snd r) = true -> idle_test T0 (snd r') = true ->
  kept = kept'.
Proof.
  revert before'. induction before as [| a before IH]; intros [| a' before'] E Hb Hb' Hr Hr'.
  - now injection E.
  - injection E as -> _. inversion Hb'; subst. congruence.
  - injection E as <- _. inversion Hb; subst. congruence.
  - injection E as _ E. inversion Hb; inversion Hb'; subst. now apply (IH before').
Qed.

(** X6. The idle trim keeps exactly the runs after the first one that passes
    the test [dur >= 20 * T0] of line 48, as the floats decide it, and all
    the runs when none passes it; no other list of runs fits this
    description. *)
Theorem idle_trim_keeps_the_runs_after_the_first_idle_one
    (T0 : float) (runs : list float_run) :
  kept_after_trim T0 runs (trim_idle_b64 T0 runs) /\
  forall kept, kept_after_trim T0 runs kept -> kept = trim_idle_b64 T0 runs.
Proof.
  pose proof (trim_idle_b64_kept T0 runs) as H. split; [exact H |].
  intros kept Hk.
  destruct H as [[Hall E] | (before & r & E & Hb & Hr)];
    destruct Hk as [[Hall' E'] | (before' & r' & E' & Hb' & Hr')].
  - congruence.
  - exfalso. rewrite E' in Hall. apply Forall_app in Hall. destruct Hall as [_ Hall].
    inversion Hall; subst. congruence.
  - exfalso. rewrite E in Hall'. apply Forall_app in Hall'. destruct Hall' as [_ Hall'].
    inversion Hall'; subst. congruence.
  - symmetry. apply (first_passing_unique T0 before before' r r'); try assumption.
    congruence.
Qed.




(** *** Rounding on ordinary inputs

    The decimal literals 0.6, 0.07 and 1.4 as floats; the quotient
    1.5 / 0.6 is the float 2.5 and rounds to 2, while the exact quotient of
    the same two floats is above 2.5; 20 * 0.07 is a float above 1.4, so a
    run of 1.4 fails the idle test at quantum 0.07; and the quotient of 1.0
    by the least positive float is an infinity, which [round] refuses. *)
Example b64_decimal_literals :
  b64 (6 # 10) = Fin (5404319552844595 # 9007199254740992) /\
  b64 (7 # 100) = Fin (1261007895663739 # 18014398509481984) /\
  b64 (14 # 10) = Fin (3152519739159347 # 2251799813685248).
Proof. vm_compute. repeat split. Qed.

Example quotient_is_rounded_before_round :
  run_count (Fin (5404319552844595 # 9007199254740992)) (Fin (3 # 2)) = Ok 2%Z /\
  py_round ((3 # 2) / (5404319552844595 # 9007199254740992)) = 3%Z.
Proof. vm_compute. split; reflexivity. Qed.

Example twenty_quanta_may_fail_the_idle_test :
  float_mul (Fin 20) (Fin (1261007895663739 # 18014398509481984))
    = Fin (6305039478318695 # 4503599627370496) /\
  idle_test (Fin (1261007895663739 # 18014398509481984))
            (Fin (3152519739159347 # 2251799813685248)) = false.
Proof. vm_compute. split; reflexivity. Qed.

Example quotient_overflow_raises :
  build_bitvector_b64 [(0%Z, Fin (pow2 (-1074))); (1%Z, Fin 1); (0%Z, Fin 1)]
    = Raise (OverflowError "cannot convert float infinity to integer").
Proof. vm_compute. reflexivity. Qed.

Example b64_at_the_ends_of_the_range :
  b64 (pow2 (-1075)) = Fin 0 /\
  b64 (3 * pow2 (-1075)) = Fin (Qred (pow2 (-1073))) /\
  b64 (pow2 1024 - pow2 971) = Fin (Qred (pow2 1024 - pow2 971)) /\
  b64 (pow2 1024 - pow2 970) = PInf /\
  b64 (inject_Z (2 ^ 53 + 1)) = Fin (inject_Z (2 ^ 53)) /\
  b64 (inject_Z (2 ^ 53 + 3)) = Fin (inject_Z (2 ^ 53 + 4)).
Proof. vm_compute. repeat split. Qed.

(** On the scenario's runs, read as floats, the builder returns the bit
    vector it returns with exact arithmetic. *)
Example scenario_on_binary64 :
  exists (bitvec : list ascii) (T0 : float),
    build_bitvector_b64 (map (fun r : run => (fst r, b64 (snd r))) scenario_runs)
      = Ok (bitvec, T0) /\
    build_bitvector scenario_runs = Ok (bitvec, 1 # 1000) /\
    T0 = b64 (1 # 1000).
Proof. eexists. eexists. vm_compute. repeat split. Qed.

(** ** build_bitvector: runs of whole seconds *)

Section UnitRuns.

Lemma float_lt_seconds (a b : nat) : float_lt (seconds a) (seconds b) = (a <? b).
Proof.
  unfold seconds. cbn [float_lt].
  destruct (Nat.ltb_spec a b) as [H | H].
  - assert (E : (inject_Z (Z.of_nat a) ?= inject_Z (Z.of_nat b))%Q = Lt).
    { apply (proj1 (Qlt_alt _ _)). rewrite <- Zlt_Qlt. lia. }
    now rewrite E.
  - destruct (inject_Z (Z.of_nat a) ?= inject_Z (Z.of_nat b))%Q eqn:E; try reflexivity.
    apply (proj2 (Qlt_alt _ _)) in E. rewrite <- Zlt_Qlt in E. lia.
Qed.

Lemma float_min_loop_seconds (cs : list nat) (c : nat) :
  fold_left (fun m y => if float_lt y m then y else m)
            (map seconds cs) (seconds c)
  = seconds (fold_left Nat.min cs c).
Proof.
  revert c. induction cs as [| c' cs IH]; intros c; [reflexivity |].
  cbn [map fold_left]. rewrite float_lt_seconds.
  destruct (Nat.ltb_spec c' c) as [H | H].
  - rewrite IH. now rewrite Nat.min_r by lia.
  - rewrite IH. now rewrite Nat.min_l by lia.
Qed.

Lemma fold_min_one (cs : list nat) (c : nat) :
  Forall (fun c' => 1 <= c') (c :: cs) -> In 1 (c :: cs) -> fold_left Nat.min cs c = 1.
Proof.
  revert c. induction cs as [| c' cs IH]; intros c Hall Hin.
  - destruct Hin as [E | []]. exact E.
  - cbn [fold_left]. apply IH.
    + inversion Hall as [| ? ? Hc Hall']; subst. inversion Hall' as [| ? ? Hc' Hall'']; subst.
      constructor; [lia | assumption].
    + inversion Hall as [| ? ? Hc Hall']; subst. inversion Hall' as [| ? ? Hc' _]; subst.
      destruct Hin as [E | [E | Hin]]; [left; lia | left; lia | now right].
Qed.

Lemma float_min_seconds (cs : list nat) :
  Forall (fun c => 1 <= c) cs -> In 1 cs ->
  float_min (map seconds cs) = Ok (Fin 1).
Proof.
  intros Hall Hin. destruct cs as [| c cs]; [destruct Hin |].
  cbn [map float_min]. rewrite float_min_loop_seconds, (fold_min_one cs c Hall Hin).
  reflexivity.
Qed.

Lemma low_durations_unit_runs (counts : list (Z * nat)) :
  low_durations_b64 (unit_runs counts)
  = map seconds (map snd (filter (fun vc => (fst vc =? 0)%Z) counts)).
Proof.
  unfold low_durations_b64, unit_runs.
  induction counts as [| [v c] counts IH]; [reflexivity |].
  cbn [map filter fst snd]. destruct (v =? 0)%Z; cbn [map snd]; now rewrite IH.
Qed.

Lemma estimate_T0_unit_runs (counts : list (Z * nat)) :
  Forall (fun vc => 1 <= snd vc) counts -> In (0%Z, 1) counts ->
  estimate_T0_b64 (unit_runs counts) = Ok (Fin 1).
Proof.
  intros Hall Hin. unfold estimate_T0_b64. rewrite low_durations_unit_runs.
  set (low := map snd (filter (fun vc : Z * nat => (fst vc =? 0)%Z) counts)).
  assert (Hlow : In 1 low).
  { apply in_map_iff. exists (0%Z, 1). split; [reflexivity |].
    apply filter_In. split; [exact Hin | reflexivity]. }
  assert (Hall' : Forall (fun c => 1 <= c) low).
  { apply Forall_forall. intros c Hc. apply in_map_iff in Hc.
    destruct Hc as (vc & <- & Hf). apply filter_In in Hf.
    rewrite Forall_forall in Hall. apply Hall. tauto. }
  clearbody low. destruct low as [| c low']; [destruct Hlow |].
  cbn [map]. change (float_min (map seconds (c :: low')) = Ok (Fin 1)).
  now apply float_min_seconds.
Qed.

Lemma idle_test_seconds (c : nat) : idle_test (Fin 1) (seconds c) = (20 <=? c).
Proof.
  unfold idle_test.
  assert (E : float_mul (Fin 20) (Fin 1) = seconds 20) by (vm_compute; reflexivity).
  rewrite E. unfold float_ge. rewrite float_lt_seconds.
  destruct (Nat.ltb_spec c 20), (Nat.leb_spec 20 c); try reflexivity; lia.
Qed.

Lemma first_idle_unit_runs (counts : list (Z * nat)) (i : nat) :
  match first_idle_b64 (Fin 1) (unit_runs counts) i, after_first_idle counts with
  | Some j, Some rest => skipn (j + 1 - i) counts = rest
  | None, None => True
  | _, _ => False
  end.
Proof.
  revert i. induction counts as [| [v c] counts IH]; intros i; [exact I |].
  cbn [unit_runs map first_idle_b64 after_first_idle fst snd].
  rewrite idle_test_seconds. destruct (20 <=? c).
  - replace (i + 1 - i) with 1 by lia. reflexivity.
  - specialize (IH (S i)). fold (unit_runs counts).
    destruct (first_idle_b64 (Fin 1) (unit_runs counts) (S i)) as [j |] eqn:E;
      destruct (after_first_idle counts); try exact IH.
    assert (S i <= j).
    { clear - E. revert E. generalize (S i). generalize (unit_runs counts).
      induction l as [| [v d] l IHl]; intros n; cbn [first_idle_b64]; [discriminate |].
      destruct (idle_test (Fin 1) d); [intros [= <-]; lia |].
      intros H. apply IHl in H. lia. }
    replace (j + 1 - i) with (S (j + 1 - S i)) by lia. exact IH.
Qed.

Lemma trim_idle_unit_runs (counts : list (Z * nat)) :
  trim_idle_b64 (Fin 1) (unit_runs counts) = unit_runs (kept_counts counts).
Proof.
  unfold trim_idle_b64, kept_counts. pose proof (first_idle_unit_runs counts 0) as H.
  destruct (first_idle_b64 (Fin 1) (unit_runs counts) 0) as [j |];
    destruct (after_first_idle counts) as [rest |]; try contradiction; [| reflexivity].
  rewrite Nat.sub_0_r in H. rewrite <- H. unfold unit_runs. now rewrite skipn_map.
Qed.

Lemma run_count_seconds (c : nat) :
  (0 < Z.of_nat c < 2 ^ 53)%Z -> run_count (Fin 1) (seconds c) = Ok (Z.of_nat c).
Proof.
  intros Hc. unfold run_count, seconds. cbn [float_div].
  change (Qeq_bool 1 0) with false. cbv iota. cbn [bind].
  assert (E : (inject_Z (Z.of_nat c) / 1 == inject_Z (Z.of_nat c))%Q) by (field).
  rewrite (b64_integer _ _ E Hc). cbn [bind float_round].
  now rewrite (py_round_integer _ (Z.of_nat c)).
Qed.

Lemma expand_loop_unit_runs (counts : list (Z * nat)) (acc : list Z) :
  Forall (fun vc => (0 < Z.of_nat (snd vc) < 2 ^ 53)%Z) counts ->
  fold_left (expand_step_b64 (Fin 1)) (unit_runs counts) (Ok acc)
  = Ok (acc ++ concat (map (fun vc => repeat (fst vc) (snd vc)) counts)).
Proof.
  intros Hall. revert acc. induction Hall as [| [v c] counts Hc _ IH]; intros acc.
  - cbn. now rewrite app_nil_r.
  - cbn [unit_runs map fold_left fst snd]. unfold expand_step_b64 at 2. cbn [bind].
    rewrite (run_count_seconds c Hc). cbn [bind]. fold (unit_runs counts).
    rewrite IH, Nat2Z.id. cbn [map concat fst snd]. now rewrite <- app_assoc.
Qed.

Lemma join_bits_counts (counts : list (Z * nat)) :
  Forall (fun vc => fst vc = 0%Z \/ fst vc = 1%Z) counts ->
  join_bits (concat (map (fun vc => repeat (fst vc) (snd vc)) counts))
  = bits_of_counts counts.
Proof.
  induction 1 as [| [v c] counts Hv _ IH]; [reflexivity |].
  unfold bits_of_counts. cbn [map concat fst snd].
  rewrite join_bits_app, join_bits_repeat by exact Hv. f_equal. exact IH.
Qed.

Lemma build_bitvector_unit_runs (counts : list (Z * nat)) :
  Forall (fun vc => fst vc = 0%Z \/ fst vc = 1%Z) counts ->
  Forall (fun vc => (0 < Z.of_nat (snd vc) < 2 ^ 53)%Z) counts ->
  In (0%Z, 1) counts ->
  build_bitvector_b64 (unit_runs counts)
  = Ok (bits_of_counts (kept_counts counts), Fin 1).
Proof.
  intros Hbin Hall Hin. unfold build_bitvector_b64.
  rewrite estimate_T0_unit_runs; [| | exact Hin].
  2:{ eapply Forall_impl; [| exact Hall]. cbn. intros vc H. lia. }
  cbn [bind]. rewrite trim_idle_unit_runs. unfold expand_runs_b64.
  rewrite expand_loop_unit_runs.
  2:{ apply Forall_forall. intros x Hx. rewrite Forall_forall in Hall.
      apply Hall. now apply kept_counts_incl. }
  cbn [bind app]. rewrite join_bits_counts; [reflexivity |].
  apply Forall_forall. intros x Hx. rewrite Forall_forall in Hbin.
  apply Hbin. now apply kept_counts_incl.
Qed.

End UnitRuns.

(** ** The decoding of a tiled trace *)

Section TiledTrace.

Lemma bits_of_counts_app (l1 l2 : list (Z * nat)) :
  bits_of_counts (l1 ++ l2) = bits_of_counts l1 ++ bits_of_counts l2.
Proof. unfold bits_of_counts. now rewrite map_app, concat_app. Qed.

Lemma bit_char_level (c : ascii) :
  (c =? "0")%char || (c =? "1")%char = true -> bit_char (bit_level c) = c.
Proof.
  unfold bit_level, bit_char. destruct (Ascii.eqb_spec c "0"%char) as [-> | _]; [reflexivity |].
  destruct (Ascii.eqb_spec c "1"%char) as [-> | _]; [reflexivity | discriminate].
Qed.

Lemma run_lengths_bits (s : list ascii) :
  is_bitvector s -> bits_of_counts (run_lengths s) = s.
Proof.
  unfold is_bitvector. induction s as [| c s IH]; [reflexivity |].
  cbn [forallb]. intros H. apply andb_prop in H. destruct H as [Hc Hs].
  specialize (IH Hs). cbn [run_lengths].
  destruct (run_lengths s) as [| [v n] rest].
  - cbn in IH. subst s. cbn. now rewrite (bit_char_level c Hc).
  - destruct (Z.eqb_spec (bit_level c) v) as [E | E].
    + rewrite <- IH. unfold bits_of_counts. cbn [map concat fst snd repeat app].
      rewrite <- E, (bit_char_level c Hc). reflexivity.
    + rewrite <- IH. unfold bits_of_counts. cbn [map concat fst snd repeat app].
      now rewrite (bit_char_level c Hc).
Qed.

Lemma run_lengths_ok (s : list ascii) :
  Forall (fun vc : Z * nat => (fst vc = 0%Z \/ fst vc = 1%Z) /\ 1 <= snd vc <= length s)
         (run_lengths s).
Proof.
  induction s as [| c s IH]; [constructor |]. cbn [run_lengths length].
  assert (Hl : bit_level c = 0%Z \/ bit_level c = 1%Z)
    by (unfold bit_level; destruct (c =? "0")%char; auto).
  assert (IH' : Forall (fun vc : Z * nat =>
                          (fst vc = 0%Z \/ fst vc = 1%Z) /\ 1 <= snd vc <= S (length s))
                       (run_lengths s)).
  { eapply Forall_impl; [| exact IH]. cbn. intros vc [H1 H2]. split; [exact H1 | lia]. }
  destruct (run_lengths s) as [| [v n] rest].
  - constructor; [| constructor]. cbn. split; [exact Hl | lia].
  - inversion IH as [| ? ? [Hv Hn] Hrest]; subst. inversion IH' as [| ? ? _ Hrest']; subst.
    cbn [fst snd] in *. destruct (bit_level c =? v)%Z.
    + constructor; [cbn; split; [exact Hv | lia] | exact Hrest'].
    + constructor; [cbn; split; [exact Hl | lia] |]. exact IH'.
Qed.

Lemma tiled_counts_bits (p : list ascii) (seps : list nat) :
  is_bitvector p ->
  bits_of_counts (tiled_counts None p seps) = tiled p seps.
Proof.
  intros Hp. unfold tiled_counts, tiled. cbn [app].
  induction seps as [| k seps IH]; [reflexivity |].
  cbn [map concat]. rewrite capture_cons, !bits_of_counts_app, IH, (run_lengths_bits p Hp).
  unfold bits_of_counts at 1. cbn [map concat fst snd]. rewrite app_nil_r.
  now rewrite <- app_assoc.
Qed.

Lemma kept_counts_lead (lead : nat) (p : list ascii) (seps : list nat) :
  20 <= lead ->
  kept_counts (tiled_counts (Some lead) p seps) = tiled_counts None p seps.
Proof.
  intros H. unfold kept_counts, tiled_counts. cbn [app after_first_idle].
  destruct (Nat.leb_spec 20 lead); [reflexivity | lia].
Qed.

Lemma after_first_idle_app (short : list (Z * nat)) (k : nat)
    (rest : list (Z * nat)) :
  Forall (fun vc => snd vc < 20) short -> 20 <= k ->
  after_first_idle (short ++ (1%Z, k) :: rest) = Some rest.
Proof.
  intros Hs Hk. induction Hs as [| [v c] short Hc _ IH]; cbn [app after_first_idle].
  - destruct (Nat.leb_spec 20 k); [reflexivity | lia].
  - cbn [snd] in Hc. destruct (Nat.leb_spec 20 c); [lia | exact IH].
Qed.

Lemma kept_counts_no_lead (p : list ascii) (k : nat) (seps : list nat) :
  Forall (fun vc => snd vc < 20) (run_lengths p) -> 20 <= k ->
  kept_counts (tiled_counts None p (k :: seps)) = tiled_counts None p seps.
Proof.
  intros Hp Hk. unfold kept_counts, tiled_counts. cbn [app map concat].
  rewrite <- app_assoc. cbn [app]. now rewrite (after_first_idle_app _ k _ Hp Hk).
Qed.

Lemma tiled_counts_ok (lead : option nat) (p : list ascii) (seps : list nat) :
  length p <= 34 ->
  match lead with Some j => 1 <= j /\ (Z.of_nat j < 2 ^ 53)%Z | None => True end ->
  Forall (fun k => 1 <= k /\ (Z.of_nat k < 2 ^ 53)%Z) seps ->
  Forall (fun vc : Z * nat => fst vc = 0%Z \/ fst vc = 1%Z) (tiled_counts lead p seps) /\
  Forall (fun vc : Z * nat => (0 < Z.of_nat (snd vc) < 2 ^ 53)%Z) (tiled_counts lead p seps).
Proof.
  intros Hlen Hlead Hseps.
  assert (Hp : Forall (fun vc : Z * nat =>
                         (fst vc = 0%Z \/ fst vc = 1%Z) /\
                         (0 < Z.of_nat (snd vc) < 2 ^ 53)%Z) (run_lengths p)).
  { eapply Forall_impl; [| apply run_lengths_ok]. cbn. intros vc [H1 H2].
    split; [exact H1 |]. split; [lia |].
    apply Z.le_lt_trans with 34%Z; [lia | reflexivity]. }
  assert (H : Forall (fun vc : Z * nat =>
                        (fst vc = 0%Z \/ fst vc = 1%Z) /\
                        (0 < Z.of_nat (snd vc) < 2 ^ 53)%Z) (tiled_counts lead p seps)).
  { unfold tiled_counts. apply Forall_app. split.
    - destruct lead as [j |]; constructor; [| constructor]. cbn. split; [now right | lia].
    - induction Hseps as [| k seps Hk _ IH]; [constructor |].
      cbn [map concat]. apply Forall_app. split; [| exact IH].
      apply Forall_app. split; [exact Hp |]. constructor; [| constructor].
      cbn. split; [now right | lia]. }
  split; (eapply Forall_impl; [| exact H]); cbn; tauto.
Qed.

Lemma tiled_counts_quantum (lead : option nat) (p : list ascii) (seps : list nat) :
  In (0%Z, 1) (run_lengths p) -> seps <> [] ->
  In (0%Z, 1) (tiled_counts lead p seps).
Proof.
  intros Hp Hne. unfold tiled_counts. apply in_or_app. right.
  destruct seps as [| k seps]; [congruence |]. cbn [map concat].
  apply in_or_app. left. apply in_or_app. now left.
Qed.

Lemma decode_tiled (counts : list (Z * nat)) (p : list ascii) (seps : list nat) :
  build_bitvector_b64 (unit_runs counts) = Ok (tiled p seps, Fin 1) ->
  framed 20 p -> 30 <= length p <= 34 -> seps <> [] ->
  Forall (fun k => (20 <= Z.of_nat k)%Z) seps ->
  decode (unit_runs counts) = Some (Ok (p, length seps)).
Proof.
  intros Hb Hp Hlen Hne Hseps. unfold decode. rewrite Hb.
  rewrite (extract_and_verify_tiled 20 p seps) by (lia || assumption).
  now rewrite (length_check_passes p Hlen).
Qed.

End TiledTrace.

(** X8. Runs that last whole numbers of seconds below [2^53], at levels 0
    and 1, none empty, with a level-0 run of exactly one second: the
    quantum estimated is 1.0, and the bit vector built holds, for each run
    after the leading idle (the first run of 20 seconds or more), one bit
    per second at the level of the run.  On these durations no float
    operation of the builder rounds. *)
Theorem whole_second_runs_expand_to_their_counts (counts : list (Z * nat)) :
  Forall (fun vc => fst vc = 0%Z \/ fst vc = 1%Z) counts ->
  Forall (fun vc => (0 < Z.of_nat (snd vc) < 2 ^ 53)%Z) counts ->
  In (0%Z, 1) counts ->
  build_bitvector_b64 (unit_runs counts)
  = Ok (bits_of_counts (kept_counts counts), Fin 1).
Proof. apply build_bitvector_unit_runs. Qed.

Lemma whole_second_runs_expand_to_their_counts_witness :
  Forall (fun vc : Z * nat => fst vc = 0%Z \/ fst vc = 1%Z)
         [(1%Z, 30); (0%Z, 1); (1%Z, 2); (0%Z, 3); (1%Z, 25)] /\
  Forall (fun vc : Z * nat => (0 < Z.of_nat (snd vc) < 2 ^ 53)%Z)
         [(1%Z, 30); (0%Z, 1); (1%Z, 2); (0%Z, 3); (1%Z, 25)] /\
  In (0%Z, 1) [(1%Z, 30); (0%Z, 1); (1%Z, 2); (0%Z, 3); (1%Z, 25)] /\
  build_bitvector_b64
    (unit_runs [(1%Z, 30); (0%Z, 1); (1%Z, 2); (0%Z, 3); (1%Z, 25)])
  = Ok (bits_of_counts
          (kept_counts [(1%Z, 30); (0%Z, 1); (1%Z, 2); (0%Z, 3); (1%Z, 25)]), Fin 1).
Proof.
  assert (H1 : Forall (fun vc : Z * nat => fst vc = 0%Z \/ fst vc = 1%Z)
                 [(1%Z, 30); (0%Z, 1); (1%Z, 2); (0%Z, 3); (1%Z, 25)])
    by (repeat constructor; simpl; auto).
  assert (H2 : Forall (fun vc : Z * nat => (0 < Z.of_nat (snd vc) < 2 ^ 53)%Z)
                 [(1%Z, 30); (0%Z, 1); (1%Z, 2); (0%Z, 3); (1%Z, 25)])
    by (repeat constructor; simpl; lia).
  assert (H3 : In (0%Z, 1) [(1%Z, 30); (0%Z, 1); (1%Z, 2); (0%Z, 3); (1%Z, 25)])
    by (right; left; reflexivity).
  repeat (split; [assumption |]).
  exact (whole_second_runs_expand_to_their_counts _ H1 H2 H3).
Defined.

(** C1, as the code has it. The synthetic trace is a run list, one second
    per bit: the runs of the pattern followed by an idle run, once per
    separator, after an idle lead-in or without one.  For every pattern of
    30 to 34 bits that begins and ends with ['0'], holds no run of 20 or
    more ['1'] and has a ['0'] standing alone (so that the quantum is one
    bit), every [k >= 5] and idle runs of 20 seconds or more: decoding the
    trace with the lead-in returns exactly that pattern, found [k] times;
    decoding the trace without it, when the pattern has no run of 20 or
    more ['0'] either, returns the pattern found [k - 1] times, the idle
    trim having dropped the first repetition with the first separator. *)
Theorem tiled_trace_round_trip (p : list ascii) (lead : nat) (seps : list nat) :
  is_bitvector p -> framed 20 p -> In (0%Z, 1) (run_lengths p) ->
  30 <= length p <= 34 -> 5 <= length seps ->
  Forall (fun k => 20 <= k /\ (Z.of_nat k < 2 ^ 53)%Z) (lead :: seps) ->
  decode (unit_runs (tiled_counts (Some lead) p seps)) = Some (Ok (p, length seps)) /\
  (Forall (fun vc => snd vc < 20) (run_lengths p) ->
   decode (unit_runs (tiled_counts None p seps)) = Some (Ok (p, length seps - 1))).
Proof.
  intros Hbits Hp Hq Hlen Hk Hall.
  inversion Hall as [| ? ? [Hlead Hlead'] Hseps]; subst.
  assert (Hseps1 : Forall (fun k => 1 <= k /\ (Z.of_nat k < 2 ^ 53)%Z) seps).
  { eapply Forall_impl; [| exact Hseps]. cbn. intros k [H1 H2]. split; [lia | exact H2]. }
  assert (Hseps20 : Forall (fun k => (20 <= Z.of_nat k)%Z) seps).
  { eapply Forall_impl; [| exact Hseps]. cbn. intros k [H1 H2]. lia. }
  assert (Hne : seps <> []) by (destruct seps; [cbn in Hk; lia | discriminate]).
  split.
  - destruct (tiled_counts_ok (Some lead) p seps) as [Hbin Hcnt];
      [lia | split; [lia | exact Hlead'] | exact Hseps1 |].
    apply decode_tiled; try assumption.
    rewrite (build_bitvector_unit_runs _ Hbin Hcnt (tiled_counts_quantum _ p seps Hq Hne)).
    now rewrite (kept_counts_lead lead p seps Hlead), (tiled_counts_bits p seps Hbits).
  - intros Hshort.
    destruct (tiled_counts_ok None p seps) as [Hbin Hcnt]; [lia | exact I | exact Hseps1 |].
    destruct seps as [| k seps]; [congruence |].
    inversion Hseps as [| ? ? [Hk20 _] _]; subst.
    inversion Hseps20 as [| ? ? _ Hseps20']; subst.
    cbn [length] in Hk |- *. rewrite Nat.sub_succ, Nat.sub_0_r.
    apply decode_tiled; try assumption; [| destruct seps; [cbn in Hk; lia | discriminate]].
    rewrite (build_bitvector_unit_runs _ Hbin Hcnt
               (tiled_counts_quantum None p (k :: seps) Hq Hne)).
    now rewrite (kept_counts_no_lead p k seps Hshort Hk20), (tiled_counts_bits p seps Hbits).
Qed.

Lemma tiled_trace_round_trip_witness :
  is_bitvector sample_pattern /\
  framed 20 sample_pattern /\
  In (0%Z, 1) (run_lengths sample_pattern) /\
  30 <= length sample_pattern <= 34 /\
  5 <= length [20; 20; 25; 20; 31] /\
  Forall (fun k => 20 <= k /\ (Z.of_nat k < 2 ^ 53)%Z) (30 :: [20; 20; 25; 20; 31]) /\
  decode (unit_runs (tiled_counts (Some 30) sample_pattern [20; 20; 25; 20; 31]))
    = Some (Ok (sample_pattern, length [20; 20; 25; 20; 31])) /\
  Forall (fun vc : Z * nat => snd vc < 20) (run_lengths sample_pattern) /\
  decode (unit_runs (tiled_counts None sample_pattern [20; 20; 25; 20; 31]))
    = Some (Ok (sample_pattern, length [20; 20; 25; 20; 31] - 1)).
Proof.
  assert (H1 : is_bitvector sample_pattern) by reflexivity.
  assert (H2 : In (0%Z, 1) (run_lengths sample_pattern)) by (left; reflexivity).
  assert (H3 : 30 <= length sample_pattern <= 34) by (simpl; lia).
  assert (H4 : 5 <= length [20; 20; 25; 20; 31]) by (simpl; lia).
  assert (H5 : Forall (fun k => 20 <= k /\ (Z.of_nat k < 2 ^ 53)%Z)
                      (30 :: [20; 20; 25; 20; 31]))
    by (repeat constructor; simpl; lia).
  assert (H6 : Forall (fun vc : Z * nat => snd vc < 20) (run_lengths sample_pattern))
    by (repeat constructor; simpl; lia).
  repeat (split; [assumption || exact sample_pattern_framed |]).
  destruct (tiled_trace_round_trip sample_pattern 30 [20; 20; 25; 20; 31]
              H1 sample_pattern_framed H2 H3 H4 H5) as [Hlead Hnone].
  split; [exact Hlead |]. split; [exact H6 |]. exact (Hnone H6).
Defined.

(** C1, as stated, fails in five ways, each on a pattern of 30 bits tiled 5
    times with idle runs of 25 bit times.  The pattern that begins with a
    ['1'] loses it to the idle run before it, and the frame of 29 bits
    that is left fails the length check.  The pattern whose ['0'] all come
    in pairs makes the quantum two bits, no idle run then reaches 20 quanta
    and no frame is found.  The 30-bit pattern of the capture above, tiled
    without a lead-in, is returned with a count of 4: the idle trim drops
    the trace up to and including the first separator.  Tiled after a
    lead-in but with no idle run after the last repetition, it is returned
    with a count of 4 as well: the scan never closes the last frame.  And
    at a bit time of 0.07 s, after a lead-in of 1.4 s, which is 20 bit
    times, it is returned with a count of 4 again: [20 * 0.07] is a float
    above 1.4, the lead-in fails the test of the idle trim and the first
    separator passes it. *)
Lemma tiled_trace_is_not_always_decoded :
  let leading_one := list_ascii_of_string "101001100011101010011000111010" in
  let paired := list_ascii_of_string "001100110011001100110011001100" in
  (is_bitvector leading_one /\ length leading_one = 30 /\
   decode (unit_runs (tiled_counts (Some 30) leading_one [25; 25; 25; 25; 25]))
     = Some (Raise (ValueError "Frame too long (29 bits), unreliable capture"))) /\
  (is_bitvector paired /\ length paired = 30 /\ framed 20 paired /\
   decode (unit_runs (tiled_counts (Some 30) paired [25; 25; 25; 25; 25]))
     = Some (Raise (ValueError "No frames found"))) /\
  decode (unit_runs (tiled_counts None sample_pattern [25; 25; 25; 25; 25]))
    = Some (Ok (sample_pattern, 4)) /\
  decode (unit_runs (tiled_counts (Some 30) sample_pattern [25; 25; 25; 25]
                     ++ run_lengths sample_pattern))
    = Some (Ok (sample_pattern, 4)) /\
  (b64 (7 # 100) = Fin (1261007895663739 # 18014398509481984) /\
   b64 (14 # 10) = Fin (3152519739159347 # 2251799813685248) /\
   decode ((1%Z, Fin (3152519739159347 # 2251799813685248))
           :: timed_runs (Fin (1261007895663739 # 18014398509481984))
                (tiled_counts None sample_pattern [25; 25; 25; 25; 25]))
     = Some (Ok (sample_pattern, 4))).
Proof.
  cbv zeta. split; [| split; [| split; [| split]]].
  - split; [reflexivity |]. split; [reflexivity |]. vm_compute. reflexivity.
  - split; [reflexivity |]. split; [reflexivity |]. split; [repeat split |].
    vm_compute. reflexivity.
  - vm_compute. reflexivity.
  - vm_compute. reflexivity.
  - split; [vm_compute; reflexivity |]. split; vm_compute; reflexivity.
Qed.
